(** * Dog bark detection pipeline: chunking, event extraction, merging, summary

    A shallow embedding of the algorithmic core of the repository:
    - [AudioProcessor.process_in_chunks]   (dog_bark_detector/audio_processor.py)
    - [DogBarkDetector.detect_in_waveform],
      [DogBarkDetector.merge_detections],
      [DogBarkDetector.get_detection_summary] (dog_bark_detector/detector.py)
    - [process_audio_file]                 (detect_bark.py)

    A Python float is the rational [Q] it denotes. Comparisons, [max] and
    [min] select one of their arguments. The additions and subtractions of
    the chunk scheduler and of the summary's [sum] round to the nearest
    double ([Float64]); the time stamps of the extractor, of the driver's
    shift to global time and of the merger's gap test are computed exactly.
    Python exceptions are an explicit [result] type. *)

From Stdlib Require Import QArith Qround Qminmax Qabs Qpower Lia Lqa Sorted.
From Stdlib Require Import Ascii String.
From stdpp Require Import base tactics option list strings gmap.

Local Open Scope Q_scope.

(** ** Python runtime: exceptions, [max], [min] *)

Inductive exn : Type :=
  | ValueError (msg : string)
  | IndexError
  | TypeError.

Inductive result (A : Type) : Type :=
  | Ok (a : A)
  | Raise (e : exn).
Arguments Ok {A} a.
Arguments Raise {A} e.

Definition bind {A B} (r : result A) (k : A -> result B) : result B :=
  match r with
  | Ok a => k a
  | Raise e => Raise e
  end.

Notation "x <-- r ;; k" := (bind r (fun x => k))
  (at level 100, r at next level, right associativity, only parsing).

Definition raises {A} (r : result A) : Prop := exists e, r = Raise e.

(** [max(a, b)] returns [a] unless [b > a]; [min(a, b)] returns [a] unless
    [b < a]. *)
Definition py_max (a b : Q) : Q := if Qle_bool b a then a else b.
Definition py_min (a b : Q) : Q := if Qle_bool a b then a else b.

(** [l[i]] on a Python list or a numpy row, for a non-negative index. *)
Definition getitem {A} (l : list A) (i : nat) : result A :=
  match l !! i with
  | Some x => Ok x
  | None => Raise IndexError
  end.

(** [sorted(l, key=key)]: Python's sort is stable; it is modelled by stable
    insertion (an element goes in front of the first one whose key is not
    smaller than its own). *)
Fixpoint insert_by_key {A} (key : A -> Q) (d : A) (l : list A) : list A :=
  match l with
  | [] => [d]
  | x :: r =>
      if Qle_bool (key d) (key x) then d :: x :: r
      else x :: insert_by_key key d r
  end.

Fixpoint py_sorted {A} (key : A -> Q) (l : list A) : list A :=
  match l with
  | [] => []
  | d :: r => insert_by_key key d (py_sorted key r)
  end.

(** ** Double-precision arithmetic

    A double is a rational [m * 2^e] with an integer [|m| <= 2^53]; the
    result of an addition or subtraction is the exact result rounded to the
    nearest double, ties to the even significand. The exponent range is
    taken unbounded: no overflow to infinity, and no result small enough
    to be subnormal is met by a sum or difference of doubles. *)

Module Float64.

(** The precision of a double: 53 significant bits. *)
Definition prec : Z := 53.

Definition pow2 (e : Z) : Q := 2 ^ e.

(** Round to the nearest integer, ties to the even one. *)
Definition Zrne (t : Q) : Z :=
  let f := Qfloor t in
  match Qcompare (t - inject_Z f) (1 # 2) with
  | Lt => f
  | Gt => (f + 1)%Z
  | Eq => if Z.even f then f else (f + 1)%Z
  end.

(** For [a > 0], the exponent [k] with [2^(k-1) <= a < 2^k]. *)
Definition mag (a : Q) : Z :=
  let k := (Z.log2 (Qnum a) - Z.log2 (Zpos (Qden a)))%Z in
  if Qle_bool (pow2 k) a then (k + 1)%Z else k.

(** Rounding of a positive number to 53 significant bits. *)
Definition round_pos (a : Q) : Q :=
  let e := (mag a - prec)%Z in
  inject_Z (Zrne (a * pow2 (- e))) * pow2 e.

(** The double nearest to [x], as a reduced fraction. *)
Definition round_double (x : Q) : Q :=
  match Qcompare x 0 with
  | Eq => 0
  | Gt => Qred (round_pos x)
  | Lt => Qred (- round_pos (- x))
  end.

(** [x] is (the value of) a double. *)
Definition is_double (x : Q) : Prop := round_double x == x.

(** [a + b] and [a - b] on doubles. *)
Definition fadd (a b : Q) : Q := round_double (a + b).
Definition fsub (a b : Q) : Q := round_double (a - b).

End Float64.

(** ** Detection events

    The dictionaries built by [detect_in_waveform]; [class_name] and
    [class_index] are [None] when no target class scored above zero. *)
Record event : Type := mk_event {
  start_time : Q;
  end_time : Q;
  confidence : Q;
  class_name : option string;
  class_index : option nat
}.

Module Merger.

Definition set_end_time (d : event) (v : Q) : event :=
  mk_event (start_time d) v (confidence d) (class_name d) (class_index d).
Definition set_confidence (d : event) (v : Q) : event :=
  mk_event (start_time d) (end_time d) v (class_name d) (class_index d).

(** The two assignments of the merge branch. *)
Definition absorb (current detection : event) : event :=
  let current :=
    set_end_time current (py_max (end_time current) (end_time detection)) in
  set_confidence current (py_max (confidence current) (confidence detection)).

(** One iteration of [for detection in sorted_detections[1:]], on the loop
    state [(merged, current)]. *)
Definition merge_step (merge_gap : Q) (st : list event * event) (detection : event)
  : list event * event :=
  let '(merged, current) := st in
  if Qle_bool (start_time detection - end_time current) merge_gap
  then (merged, absorb current detection)
  else (merged ++ [current], detection).

Definition merge_detections (detections : list event) (merge_gap : Q)
  : result (list event) :=
  match detections with
  | [] => Ok []
  | _ :: _ =>
      let sorted_detections := py_sorted start_time detections in
      current0 <-- getitem sorted_detections 0 ;;
      let '(merged, current) :=
        foldl (merge_step merge_gap) ([], current0) (drop 1 sorted_detections) in
      Ok (merged ++ [current])
  end.

(** The loop of [merge_detections] read as a recursion on the remaining
    sorted events. *)
Fixpoint scan (merge_gap : Q) (current : event) (l : list event) : list event :=
  match l with
  | [] => [current]
  | detection :: rest =>
      if Qle_bool (start_time detection - end_time current) merge_gap
      then scan merge_gap (absorb current detection) rest
      else current :: scan merge_gap detection rest
  end.

End Merger.

(** ** Chunk scheduler ([AudioProcessor.process_in_chunks]) *)

Module Scheduler.
Import Float64.

(** The tuple [(audio_chunk, offset, end_time)] yielded by the generator. *)
Record chunk (A : Type) : Type := mk_chunk {
  audio_chunk : A;
  global_start : Q;
  global_end : Q
}.
Arguments mk_chunk {A} _ _ _.
Arguments audio_chunk {A} _.
Arguments global_start {A} _.
Arguments global_end {A} _.

(** Control state of the generator object between calls of [next]:
    not yet started, suspended at the [yield] with the current value of
    [offset], or finished. *)
Inductive gen_state : Type :=
  | GenCreated
  | GenSuspended (offset : Q)
  | GenFinished.

Section Generator.
Context {A : Type}.
(** [self.load_audio(file_path, duration=..., offset=...)] and
    [self.get_audio_duration(file_path)] for the file at hand: the
    file reader is an external collaborator. *)
Variable load_audio : Q -> Q -> A.
Variable total_duration : Q.
Variables chunk_duration overlap : Q.

(** The body of the [while] loop up to the [yield]. *)
Definition make_chunk (offset : Q) : chunk A :=
  let current_chunk_duration :=
    py_min chunk_duration (fsub total_duration offset) in
  let audio := load_audio current_chunk_duration offset in
  let end_time := fadd offset current_chunk_duration in
  mk_chunk audio offset end_time.

(** The test [while offset < total_duration] followed by the loop body
    up to [yield]; leaving the loop ends the generator. *)
Definition while_head (offset : Q) : result (option (chunk A)) * gen_state :=
  if negb (Qle_bool total_duration offset)
  then (Ok (Some (make_chunk offset)), GenSuspended offset)
  else (Ok None, GenFinished).

(** One call of [next] on the generator: [Ok (Some c)] is a yielded chunk,
    [Ok None] is [StopIteration]. *)
Definition gen_next (st : gen_state) : result (option (chunk A)) * gen_state :=
  match st with
  | GenCreated => while_head 0
  | GenSuspended offset =>
      let offset := fadd offset (fsub chunk_duration overlap) in
      if Qle_bool total_duration offset then (Ok None, GenFinished)
      else while_head offset
  | GenFinished => (Ok None, GenFinished)
  end.

(** [list(itertools.islice(gen, fuel))] together with the state the
    generator is left in and whether it signalled its end. *)
Fixpoint gen_take (fuel : nat) (st : gen_state)
  : result (list (chunk A) * bool) :=
  match fuel with
  | O => Ok ([], false)
  | S n =>
      match gen_next st with
      | (Raise e, _) => Raise e
      | (Ok None, _) => Ok ([], true)
      | (Ok (Some c), st') =>
          match gen_take n st' with
          | Ok (cs, fin) => Ok (c :: cs, fin)
          | Raise e => Raise e
          end
      end
  end.

(** The offset the generator would test next, and the run of the loop
    from that test on. *)
Definition next_offset (st : gen_state) : Q :=
  match st with
  | GenCreated => 0
  | GenSuspended offset => fadd offset (fsub chunk_duration overlap)
  | GenFinished => total_duration
  end.

Fixpoint run (fuel : nat) (offset : Q) : list (chunk A) * bool :=
  match fuel with
  | O => ([], false)
  | S n =>
      if Qle_bool total_duration offset then ([], true)
      else let '(cs, fin) := run n (fadd offset (fsub chunk_duration overlap)) in
           (make_chunk offset :: cs, fin)
  end.

(** [list(itertools.islice(self.process_in_chunks(...), fuel))] on a fresh
    generator. *)
Definition process_in_chunks (fuel : nat) : result (list (chunk A) * bool) :=
  gen_take fuel GenCreated.
End Generator.

End Scheduler.

(** ** Event extractor ([DogBarkDetector.detect_in_waveform]) *)

Module Extractor.

(** The attributes of [self] read by [detect_in_waveform]; [model] is the
  frame scorer ([scores, embeddings, spectrogram = self.model(waveform)],
  of which only [scores.numpy()] is used: one row of class scores per
  frame). *)
Record detector (W : Type) : Type := mk_detector {
confidence_threshold : Q;
model : W -> list (list Q);
class_names : list string;
dog_class_indices : list nat
}.
Arguments mk_detector {W} _ _ _ _.
Arguments confidence_threshold {W} _.
Arguments model {W} _.
Arguments class_names {W} _.
Arguments dog_class_indices {W} _.

Definition frame_duration : Q := 0.96.
Definition hop_duration : Q := 0.48.

Section Detect.
Context {W : Type}.
Variable self : detector W.

(** The running maximum [(max_dog_score, max_dog_class, max_dog_class_idx)]. *)
Definition best : Type := Q * option string * option nat.

(** One iteration of [for class_idx in self.dog_class_indices]. *)
Definition best_step (frame_scores : list Q) (st : best) (class_idx : nat)
: result best :=
let '(max_dog_score, _, _) := st in
score <-- getitem frame_scores class_idx ;;
if negb (Qle_bool score max_dog_score)
then name <-- getitem (class_names self) class_idx ;;
     Ok (score, Some name, Some class_idx)
else Ok st.

Fixpoint best_loop (frame_scores : list Q) (st : best) (idxs : list nat)
: result best :=
match idxs with
| [] => Ok st
| class_idx :: rest =>
    st' <-- best_step frame_scores st class_idx ;;
    best_loop frame_scores st' rest
end.

(** The body of [for frame_idx, frame_scores in enumerate(scores.numpy())]:
  the detections list after this frame. *)
Definition frame_body (frame_idx : nat) (frame_scores : list Q)
(detections : list event) : result (list event) :=
st <-- best_loop frame_scores (0, None, None) (dog_class_indices self) ;;
let '(max_dog_score, max_dog_class, max_dog_class_idx) := st in
if Qle_bool (confidence_threshold self) max_dog_score
then
  let start_time := inject_Z (Z.of_nat frame_idx) * hop_duration in
  let end_time := start_time + frame_duration in
  Ok (detections ++
      [mk_event start_time end_time max_dog_score max_dog_class max_dog_class_idx])
else Ok detections.

Fixpoint frame_loop (frame_idx : nat) (frames : list (list Q))
(detections : list event) : result (list event) :=
match frames with
| [] => Ok detections
| frame_scores :: rest =>
    detections' <-- frame_body frame_idx frame_scores detections ;;
    frame_loop (S frame_idx) rest detections'
end.

Definition detect_in_waveform (waveform : W) (sample_rate : Z)
: result (list event) :=
if negb (sample_rate =? 16000)%Z
then Raise (ValueError "YAMNet requires 16kHz audio")
else frame_loop 0 (model self waveform) [].
End Detect.

End Extractor.

(** ** Summary reducer ([DogBarkDetector.get_detection_summary]) *)

Module Summary.
Import Float64.

Inductive value : Type :=
| VInt (n : Z)
| VFloat (x : Q).

(** [sum(l)] on floats: the items are added left to right to [0], each
    addition rounding (the interpreters the package declares, Python 3.8
    to 3.11). *)
Definition py_sum (l : list Q) : Q := foldl fadd 0 l.

(** [max(l)] and [min(l)] on a list with first element [x]. *)
Definition py_max_list (x : Q) (l : list Q) : Q := foldl py_max x l.
Definition py_min_list (x : Q) (l : list Q) : Q := foldl py_min x l.

Section Reducer.
(** [np.mean] on a list of floats: numpy's reduction, whose order of
    additions and rounding are numpy's own, is a collaborator outside
    this repository. *)
Variable np_mean : list Q -> Q.

Definition get_detection_summary (detections : list event)
: result (gmap string value) :=
match detections with
| [] =>
  Ok (<["total_events" := VInt 0]>
      (<["total_duration" := VFloat 0]>
      (<["avg_confidence" := VFloat 0]>
      (<["max_confidence" := VFloat 0]>
      (<["min_confidence" := VFloat 0]> ∅)))))
| d0 :: rest =>
  let confidences := map confidence detections in
  let durations := map (fun d => fsub (end_time d) (start_time d)) detections in
  Ok (<["total_events" := VInt (Z.of_nat (length detections))]>
      (<["total_duration" := VFloat (py_sum durations)]>
      (<["avg_duration" := VFloat (np_mean durations)]>
      (<["avg_confidence" := VFloat (np_mean confidences)]>
      (<["max_confidence" := VFloat (py_max_list (confidence d0) (map confidence rest))]>
      (<["min_confidence" := VFloat (py_min_list (confidence d0) (map confidence rest))]> ∅))))))
end.
End Reducer.

End Summary.

(** ** The driver loop ([process_audio_file] in detect_bark.py) *)

Module Driver.
Import Scheduler Extractor.

(** [detection['start_time'] += start_time; detection['end_time'] += start_time]. *)
Definition adjust_timestamps (start_time0 : Q) (detection : event) : event :=
mk_event (start_time detection + start_time0) (end_time detection + start_time0)
       (confidence detection) (class_name detection) (class_index detection).

(** The events of the chunks, each list moved to the chunk's start. *)
Definition globalised {W} (chunks : list (chunk W)) (dets : list (list event))
: list (list event) :=
zip_with (fun c ds => map (adjust_timestamps (global_start c)) ds) chunks dets.

Section ProcessAudioFile.
Context {W : Type}.
Variable load_audio : Q -> Q -> W.
Variable total_duration : Q.
Variable detector0 : detector W.
Variable chunk_size : Q.

(** The [for ... in audio_processor.process_in_chunks(file_path,
chunk_duration=chunk_size, overlap=2.0)] loop, the generator being
advanced once per iteration; [None] when [fuel] iterations did not
exhaust the generator. *)
Fixpoint chunk_loop (fuel : nat) (gen : gen_state) (all_detections : list event)
: option (result (list event)) :=
match fuel with
| O => None
| S n =>
  match gen_next load_audio total_duration chunk_size 2 gen with
  | (Raise e, _) => Some (Raise e)
  | (Ok None, _) => Some (Ok all_detections)
  | (Ok (Some c), gen') =>
      match detect_in_waveform detector0 (audio_chunk c) 16000 with
      | Raise e => Some (Raise e)
      | Ok detections =>
          let detections := map (adjust_timestamps (global_start c)) detections in
          chunk_loop n gen' (all_detections ++ detections)
      end
  end
end.

Definition process_audio_file (fuel : nat) (merge_gap : Q) (no_merge : bool)
: option (result (list event)) :=
match chunk_loop fuel GenCreated [] with
| None => None
| Some (Raise e) => Some (Raise e)
| Some (Ok all_detections) =>
  if negb no_merge && negb (bool_decide (all_detections = []))
  then Some (Merger.merge_detections all_detections merge_gap)
  else Some (Ok all_detections)
end.
End ProcessAudioFile.

End Driver.

(** ** [merge_detections] on the object heap

Lists and dictionaries are mutable objects; a reference is an index into
the heap and allocation extends the heap at its end. *)

Module Heap.
Import Merger.

Abbreviation loc := nat.

Inductive obj : Type :=
| ODict (d : event)
| OList (items : list loc).

Abbreviation heap := (list obj).

Definition alloc (o : obj) (h : heap) : loc * heap := (length h, h ++ [o]).

Definition read_dict (l : loc) (h : heap) : result event :=
match h !! l with
| Some (ODict d) => Ok d
| _ => Raise TypeError
end.

Definition read_list (l : loc) (h : heap) : result (list loc) :=
match h !! l with
| Some (OList items) => Ok items
| _ => Raise TypeError
end.

(** [lst.append(x)]. *)
Definition list_append (lst x : loc) (h : heap) : result heap :=
items <-- read_list lst h ;;
Ok (<[lst := OList (items ++ [x])]> h).

Fixpoint read_dicts (ls : list loc) (h : heap) : result (list event) :=
match ls with
| [] => Ok []
| l :: r =>
d <-- read_dict l h ;;
ds <-- read_dicts r h ;;
Ok (d :: ds)
end.

(** The events a list object denotes. *)
Definition view (lst : loc) (h : heap) : result (list event) :=
items <-- read_list lst h ;;
read_dicts items h.

(** [sorted(detections, key=lambda x: x['start_time'])]: the keys are read
once, then the references are sorted by them into a new list. *)
Fixpoint read_keys (ls : list loc) (h : heap) : result (list (Q * loc)) :=
match ls with
| [] => Ok []
| l :: r =>
d <-- read_dict l h ;;
ks <-- read_keys r h ;;
Ok ((start_time d, l) :: ks)
end.

(** One iteration of the loop on the heap; the state is the reference held
by [current] and the heap. *)
Definition merge_step_heap (merge_gap : Q) (merged : loc) (st : loc * heap)
(detection : loc) : result (loc * heap) :=
let '(current, h) := st in
d <-- read_dict detection h ;;
c <-- read_dict current h ;;
if Qle_bool (start_time d - end_time c) merge_gap
then
let h := <[current := ODict (set_end_time c (py_max (end_time c) (end_time d)))]> h in
c <-- read_dict current h ;;
d <-- read_dict detection h ;;
let h := <[current := ODict (set_confidence c (py_max (confidence c) (confidence d)))]> h in
Ok (current, h)
else
h <-- list_append merged current h ;;
d <-- read_dict detection h ;;
Ok (alloc (ODict d) h).

Fixpoint merge_loop_heap (merge_gap : Q) (merged : loc) (st : loc * heap)
(ls : list loc) : result (loc * heap) :=
match ls with
| [] => Ok st
| detection :: r =>
st' <-- merge_step_heap merge_gap merged st detection ;;
merge_loop_heap merge_gap merged st' r
end.

Definition merge_detections_heap (detections : loc) (merge_gap : Q) (h : heap)
: result (loc * heap) :=
items <-- read_list detections h ;;
match items with
| [] => Ok (alloc (OList []) h)
| _ :: _ =>
keyed <-- read_keys items h ;;
let '(sorted_detections, h) :=
  alloc (OList (map snd (py_sorted fst keyed))) h in
let '(merged, h) := alloc (OList []) h in
sorted_items <-- read_list sorted_detections h ;;
first <-- getitem sorted_items 0 ;;
d <-- read_dict first h ;;
let '(current, h) := alloc (ODict d) h in
let '(rest, h) := alloc (OList (drop 1 sorted_items)) h in
rest_items <-- read_list rest h ;;
st <-- merge_loop_heap merge_gap merged (current, h) rest_items ;;
let '(current, h) := st in
h <-- list_append merged current h ;;
Ok (merged, h)
end.

End Heap.

(** * Further parts of the program *)

(** ** The target classes ([DogBarkDetector._load_class_names]) *)

Module ClassMap.
Import Extractor.

Definition DOG_BARK_CLASSES : list string :=
  ["Bark"; "Bow-wow"; "Dog"; "Growling"; "Howl"; "Yip"; "Animal";
   "Domestic animals, pets"]%string.

(** [str.lower()] on ASCII text. *)
Definition lower_char (c : ascii) : ascii :=
  let n := nat_of_ascii c in
  if ((65 <=? n) && (n <=? 90))%nat then ascii_of_nat (n + 32) else c.

Fixpoint lower (s : string) : string :=
  match s with
  | EmptyString => EmptyString
  | String c r => String (lower_char c) (lower r)
  end.

(** [needle in hay] on strings. *)
Fixpoint contains (needle hay : string) : bool :=
  String.prefix needle hay ||
  match hay with
  | EmptyString => false
  | String _ r => contains needle r
  end.

(** The inner loop [for dog_class in self.DOG_BARK_CLASSES], which appends
    the index at the first match and breaks: whether it appends. *)
Fixpoint dog_class_loop (class_name : string) (dog_classes : list string) : bool :=
  match dog_classes with
  | [] => false
  | dog_class :: rest =>
      if contains (lower dog_class) (lower class_name) then true
      else dog_class_loop class_name rest
  end.

(** The outer loop [for idx, class_name in enumerate(self.class_names)]. *)
Fixpoint class_loop (idx : nat) (names : list string) (dog_class_indices : list nat)
  : list nat :=
  match names with
  | [] => dog_class_indices
  | class_name :: rest =>
      class_loop (S idx) rest
        (if dog_class_loop class_name DOG_BARK_CLASSES
         then dog_class_indices ++ [idx] else dog_class_indices)
  end.

(** [self.dog_class_indices] after [_load_class_names], for the class names
    read from the model's class map. *)
Definition load_class_names (class_names : list string) : list nat :=
  class_loop 0 class_names [].

(** The detector object after [__init__]. *)
Definition init_detector {W : Type} (model0 : W -> list (list Q))
  (class_names0 : list string) (confidence_threshold0 : Q) : detector W :=
  mk_detector confidence_threshold0 model0 class_names0
              (load_class_names class_names0).

End ClassMap.

(** ** Sample arrays ([AudioProcessor.normalize_audio],
    [AudioProcessor.apply_noise_reduction]) *)

Module Audio.

(** [np.abs(audio).max()]; numpy refuses the maximum of an empty array. *)
Definition np_abs_max (audio : list Q) : result Q :=
  match audio with
  | [] => Raise (ValueError "zero-size array to reduction operation maximum")
  | x :: rest => Ok (foldl py_max (Qabs x) (map Qabs rest))
  end.

Definition normalize_audio (audio : list Q) : result (list Q) :=
  max_val <-- np_abs_max audio ;;
  if negb (Qle_bool max_val 0)
  then Ok (map (fun x => x / max_val) audio)
  else Ok audio.

(** [cleaned = audio.copy(); mask = np.abs(cleaned) < noise_threshold;
    cleaned[mask] = cleaned[mask] * 0.1]. *)
Definition apply_noise_reduction (audio : list Q) (noise_threshold : Q) : list Q :=
  map (fun x => if negb (Qle_bool noise_threshold (Qabs x)) then x * 0.1 else x)
      audio.

End Audio.

(** ** The summary printed by [main] and saved by [save_results] *)

Module Report.
Import Summary.

(** Outcome of code that reads dictionary keys. *)
Inductive outcome (A : Type) : Type :=
  | Returned (a : A)
  | KeyError (key : string)
  | Raised (e : exn).
Arguments Returned {A} a.
Arguments KeyError {A} key.
Arguments Raised {A} e.

(** [summary[key]]. *)
Definition dict_getitem (summary : gmap string value) (key : string)
  : outcome value :=
  match summary !! key with
  | Some v => Returned v
  | None => KeyError key
  end.

Fixpoint read_keys (summary : gmap string value) (keys : list string)
  : outcome (list value) :=
  match keys with
  | [] => Returned []
  | key :: rest =>
      match dict_getitem summary key with
      | Returned v =>
          match read_keys summary rest with
          | Returned vs => Returned (v :: vs)
          | KeyError k => KeyError k
          | Raised e => Raised e
          end
      | KeyError k => KeyError k
      | Raised e => Raised e
      end
  end.

(** The keys the five [print] calls of [main] read, in order. *)
Definition printed_keys : list string :=
  ["total_events"; "total_duration"; "avg_duration"; "avg_confidence";
   "min_confidence"; "max_confidence"]%string.

Section Main.
Variable np_mean : list Q -> Q.

(** The body of [if detections:] in [main]: the values printed. *)
Definition print_summary (detections : list event) : outcome (list value) :=
  match get_detection_summary np_mean detections with
  | Ok summary => read_keys summary printed_keys
  | Raise e => Raised e
  end.

(** [if detections: ...] in [main]. *)
Definition main_summary (detections : list event) : outcome (list value) :=
  match detections with
  | [] => Returned []
  | _ :: _ => print_summary detections
  end.
End Main.

End Report.

(** ** Google Drive links ([GDriveDownloader.extract_file_id],
    [GDriveDownloader.is_gdrive_url])

The three [DRIVE_URL_PATTERNS] have one shape: a sequence of positions,
each accepting some characters, followed by the group
[([a-zA-Z0-9_-]+)], which is greedy and ends the pattern. *)

Module GDrive.
Import ClassMap.

(** A literal piece of a pattern, and a bracketed set such as [[?&]]. *)
Definition lit (s : string) : list (ascii -> bool) :=
  map Ascii.eqb (list_ascii_of_string s).

Definition one_of (s : string) : ascii -> bool :=
  fun c => existsb (Ascii.eqb c) (list_ascii_of_string s).

(** [[a-zA-Z0-9_-]]. *)
Definition id_char (c : ascii) : bool :=
  let n := nat_of_ascii c in
  ((97 <=? n) && (n <=? 122) || (65 <=? n) && (n <=? 90) ||
   (48 <=? n) && (n <=? 57) || (n =? 95) || (n =? 45))%nat.

(** The longest run of [[a-zA-Z0-9_-]] at the start of [s], and what
    follows it. *)
Fixpoint id_run (s : string) : string :=
  match s with
  | String c r => if id_char c then String c (id_run r) else EmptyString
  | EmptyString => EmptyString
  end.

Fixpoint id_rest (s : string) : string :=
  match s with
  | String c r => if id_char c then id_rest r else s
  | EmptyString => EmptyString
  end.

(** The pattern matched at the start of [s]: the text of group 1. *)
Fixpoint match_here (items : list (ascii -> bool)) (s : string) : option string :=
  match items with
  | [] => match id_run s with
          | EmptyString => None
          | g => Some g
          end
  | p :: items' =>
      match s with
      | String c r => if p c then match_here items' r else None
      | EmptyString => None
      end
  end.

(** [re.search(pattern, url)] followed by [match.group(1)]: the match at
    the leftmost position that has one. *)
Fixpoint re_search (items : list (ascii -> bool)) (s : string) : option string :=
  match match_here items s with
  | Some g => Some g
  | None =>
      match s with
      | String _ r => re_search items r
      | EmptyString => None
      end
  end.

Definition DRIVE_URL_PATTERNS : list (list (ascii -> bool)) :=
  [ lit "https://drive.google.com/file/d/";
    lit "https://drive.google.com/open?id=";
    one_of "?&" :: lit "id=" ].

(** [for pattern in self.DRIVE_URL_PATTERNS], returning at the first match. *)
Fixpoint pattern_loop (patterns : list (list (ascii -> bool))) (url : string)
  : option string :=
  match patterns with
  | [] => None
  | pattern :: rest =>
      match re_search pattern url with
      | Some g => Some g
      | None => pattern_loop rest url
      end
  end.

(** [re.match(r'^[a-zA-Z0-9_-]+$', url)]: [$] matches at the end of the
    text and before a newline that ends it. *)
Definition is_bare_id (url : string) : bool :=
  match id_run url with
  | EmptyString => false
  | _ => String.eqb (id_rest url) EmptyString ||
         String.eqb (id_rest url) (String "010" EmptyString)
  end.

Definition extract_file_id (url : string) : option string :=
  match pattern_loop DRIVE_URL_PATTERNS url with
  | Some g => Some g
  | None => if is_bare_id url then Some url else None
  end.

(** The address [download_file] asks for. *)
Definition download_url (file_id : string) : string :=
  ("https://drive.google.com/uc?export=download&id=" ++ file_id)%string.

Definition is_gdrive_url (url : string) : bool :=
  contains "drive.google.com" (lower url).

(** Every character of [s] is one of [[a-zA-Z0-9_-]]. *)
Fixpoint all_id (s : string) : bool :=
  match s with
  | String c r => id_char c && all_id r
  | EmptyString => true
  end.

End GDrive.

(** ** Properties of events and episodes *)

Module EventProps.

(** The data invariant of a detection event. *)
Definition well_timed (d : event) : Prop := start_time d < end_time d.

(** The episode [ep] spans the event [d] and is at least as confident. *)
Definition covers (ep d : event) : Prop :=
  start_time ep <= start_time d /\ end_time d <= end_time ep /\
  confidence d <= confidence ep.

(** Every field of [ep] is the field of an event of [input]; the start and
    the class come from one and the same event. *)
Definition built_from (input : list event) (ep : event) : Prop :=
  (exists d, d ∈ input /\ start_time ep = start_time d /\
             class_name ep = class_name d /\ class_index ep = class_index d) /\
  (exists d, d ∈ input /\ end_time ep = end_time d) /\
  (exists d, d ∈ input /\ confidence ep = confidence d).

End EventProps.

(** ** Comparing summaries *)

Module SummaryProps.
Import Summary.

(** Two entries of summaries that agree: the same count, or floats equal
    as numbers, or both absent. *)
Definition entry_equiv (a b : option value) : Prop :=
  match a, b with
  | None, None => True
  | Some (VInt m), Some (VInt n) => m = n
  | Some (VFloat x), Some (VFloat y) => x == y
  | _, _ => False
  end.

End SummaryProps.

(** ** The shape of an extracted event *)

Module ExtractorProps.
Import Extractor.

(** [e] is an event of the frame of index [i]: it spans the frame and its
    confidence reaches the detector's threshold. *)
Definition emitted_at {W : Type} (self : detector W) (i : nat) (e : event) : Prop :=
  start_time e = inject_Z (Z.of_nat i) * hop_duration /\
  end_time e = start_time e + frame_duration /\
  confidence_threshold self <= confidence e /\
  0 <= confidence e.

(** The event of frame [i] that carries the initial values of the running
    maximum: confidence [0.0] and no class. *)
Definition unlabelled (i : nat) : event :=
  mk_event (inject_Z (Z.of_nat i) * hop_duration)
           (inject_Z (Z.of_nat i) * hop_duration + frame_duration)
           0 None None.

(** No target class of the frame scores above zero. *)
Definition no_positive_target {W : Type} (self : detector W) (frame : list Q) : Prop :=
  Forall (fun idx => exists s, frame !! idx = Some s /\ s <= 0)
         (dog_class_indices self).

End ExtractorProps.

(** * Specifications

The statements of the component contracts, in their own words; they are
compared with the embedding in the next part. *)

Definition key_le {A} (key : A -> Q) (x y : A) : Prop := key x <= key y.


Module MergerSpec.

(** The current episode after it absorbed [detection]: the later end, the
higher confidence, its own start and class. *)
Definition absorbed (current detection : event) : event :=
mk_event (start_time current)
     (Qmax (end_time current) (end_time detection))
     (Qmax (confidence current) (confidence detection))
     (class_name current) (class_index current).

(** [episodes g current l out]: scanning the sorted events [l] with the
running episode [current] emits the episodes [out]. *)
Inductive episodes (merge_gap : Q) : event -> list event -> list event -> Prop :=
| episodes_last current :
episodes merge_gap current [] [current]
| episodes_absorb current detection rest out :
start_time detection - end_time current <= merge_gap ->
episodes merge_gap (absorbed current detection) rest out ->
episodes merge_gap current (detection :: rest) out
| episodes_emit current detection rest out :
~ start_time detection - end_time current <= merge_gap ->
episodes merge_gap detection rest out ->
episodes merge_gap current (detection :: rest) (current :: out).


(** Consecutive episodes [a], [b] that the merger would not have merged. *)
Definition apart (merge_gap : Q) (a b : event) : Prop :=
~ start_time b - end_time a <= merge_gap.


End MergerSpec.

Module ExtractorSpec.
Import Extractor.

Section Contract.
Context {W : Type} (self : detector W).

(** [s] is the score of the target class [idx] in the frame. *)
Definition target_score (frame : list Q) (idx : nat) (s : Q) : Prop :=
idx ∈ dog_class_indices self /\ frame !! idx = Some s.

(** [m] is the maximum score among the target classes of the frame. *)
Definition max_target_score (frame : list Q) (m : Q) : Prop :=
(exists idx, target_score frame idx m) /\
(forall idx s, target_score frame idx s -> s <= m).

(** What frame [i] contributes: an event carrying the highest-scoring
target class when the maximum reaches the threshold, nothing
otherwise. *)
Definition frame_event (i : nat) (frame : list Q) (oe : option event) : Prop :=
match oe with
| Some e =>
max_target_score frame (confidence e) /\
confidence_threshold self <= confidence e /\
(exists idx name,
    target_score frame idx (confidence e) /\
    class_names self !! idx = Some name /\
    class_index e = Some idx /\
    class_name e = Some name) /\
start_time e = inject_Z (Z.of_nat i) * hop_duration /\
end_time e = start_time e + frame_duration
| None =>
forall m, max_target_score frame m -> m < confidence_threshold self
end.

(** One event or none per frame, in frame order. *)
Definition extractor_contract (scores : list (list Q)) (out : list event) : Prop :=
exists per_frame : list (option event),
length per_frame = length scores /\
out = omap id per_frame /\
forall (i : nat) frame oe,
scores !! i = Some frame -> per_frame !! i = Some oe ->
frame_event i frame oe.

(** Invariant of the inner loop after the target indices [done]. *)
Definition best_inv (frame : list Q) (done : list nat) (st : best) : Prop :=
let '(m, name, idx) := st in
(forall k s, k ∈ done -> frame !! k = Some s -> s <= m) /\
((m = 0 /\ name = None /\ idx = None) \/
(0 < m /\ exists k n, k ∈ done /\ frame !! k = Some m /\
class_names self !! k = Some n /\ idx = Some k /\ name = Some n)).

(** Every target index is a column of every frame and has a name. *)
Definition well_indexed (scores : list (list Q)) : Prop :=
Forall (fun idx => idx < length (class_names self))%nat (dog_class_indices self) /\
Forall (fun frame : list Q =>
      Forall (fun idx => idx < length frame)%nat (dog_class_indices self))
   scores.
End Contract.

End ExtractorSpec.

Module HeapSpec.
Import Heap.

(** The references [ls] point to dictionaries holding the events [es]. *)
Definition denotes (h : heap) (ls : list loc) (es : list event) : Prop :=
  Forall2 (fun l e => h !! l = Some (ODict e)) ls es.

(** Every object of [h] is still there, unchanged, in [h']. *)
Definition preserved (h h' : heap) : Prop :=
  forall (l : loc) o, h !! l = Some o -> h' !! l = Some o.

(** Invariant of the merge loop on the heap [hc], started from the heap
    [h]: the list [merged] and the dictionary [current] were allocated by
    the call, [merged] holds references allocated by the call, and the two
    denote the state [(mp, cp)] of the loop on values. *)
Definition loop_inv (h : heap) (merged current : loc) (hc : heap)
  (mlocs : list loc) (mp : list event) (cp : event) : Prop :=
  h `prefix_of` hc /\
  (length h <= merged)%nat /\ (merged < current)%nat /\ (current < length hc)%nat /\
  hc !! merged = Some (OList mlocs) /\
  hc !! current = Some (ODict cp) /\
  denotes hc mlocs mp /\
  Forall (fun l => length h <= l < current)%nat mlocs.

End HeapSpec.

(** * Properties *)

(** ** Rational comparisons and the result monad *)

Lemma Qle_bool_true (x y : Q) : Qle_bool x y = true <-> x <= y.
Proof. apply Qle_bool_iff. Qed.

Lemma Qle_bool_false (x y : Q) : Qle_bool x y = false <-> y < x.
Proof.
rewrite <- not_true_iff_false, Qle_bool_iff. split.
- apply Qnot_le_lt.
- apply Qlt_not_le.
Qed.

Ltac case_Qle x y H :=
destruct (Qle_bool x y) eqn:H;
[apply Qle_bool_true in H | apply Qle_bool_false in H].


Lemma py_min_Qmin (a b : Q) : py_min a b = Qmin a b.
Proof.
unfold py_min, Qmin, GenericMinMax.gmin.
case_Qle a b H; destruct (Qcompare_spec a b) as [E|E|E]; try reflexivity; lra.
Qed.

Lemma bind_Ok {A B} (a : A) (k : A -> result B) : bind (Ok a) k = k a.
Proof. reflexivity. Qed.

Lemma bind_Ok_inv {A B} (r : result A) (k : A -> result B) (b : B) :
bind r k = Ok b -> exists a, r = Ok a /\ k a = Ok b.
Proof. destruct r as [a|e]; simpl; [eauto | discriminate]. Qed.

Lemma raises_Ok {A} (a : A) : ~ raises (Ok a).
Proof. intros [e He]. discriminate. Qed.

(** ** The stable sort *)

Section SortFacts.
Context {A : Type} (key : A -> Q).

Lemma insert_by_key_perm d l : Permutation (insert_by_key key d l) (d :: l).
Proof.
induction l as [|x r IH]; simpl; [reflexivity|].
destruct (Qle_bool (key d) (key x)); [reflexivity|].
rewrite IH. apply perm_swap.
Qed.

Lemma py_sorted_perm l : Permutation (py_sorted key l) l.
Proof.
induction l as [|d r IH]; simpl; [reflexivity|].
rewrite insert_by_key_perm. now constructor.
Qed.

Lemma insert_by_key_sorted d l :
StronglySorted (key_le key) l -> StronglySorted (key_le key) (insert_by_key key d l).
Proof.
induction 1 as [|x r Hr IH Hx]; simpl.
- repeat constructor.
- case_Qle (key d) (key x) Hd.
+ constructor; [now constructor|].
constructor; [exact Hd|].
eapply Forall_impl; [exact Hx|]. intros y Hy. unfold key_le in *. lra.
+ constructor; [exact IH|].
rewrite insert_by_key_perm. constructor; [|exact Hx].
unfold key_le. lra.
Qed.

Lemma py_sorted_sorted l : StronglySorted (key_le key) (py_sorted key l).
Proof.
induction l as [|d r IH]; simpl; [constructor|].
now apply insert_by_key_sorted.
Qed.




(** Sorting a list that is already in order returns it as it is. *)
Lemma py_sorted_id l : StronglySorted (key_le key) l -> py_sorted key l = l.
Proof.
induction 1 as [|x r Hr IH Hx]; [reflexivity|].
cbn [py_sorted]. rewrite IH.
destruct r as [|y r']; [reflexivity|].
cbn [insert_by_key]. apply Forall_cons_1 in Hx as [Hy _].
apply Qle_bool_true in Hy. now rewrite Hy.
Qed.



Lemma py_sorted_nil_inv l : py_sorted key l = [] -> l = [].
Proof.
intros H. pose proof (py_sorted_perm l) as HP. rewrite H in HP.
now apply Permutation_nil in HP.
Qed.

Lemma py_sorted_map {B} (f : B -> A) (l : list B) :
map f (py_sorted (fun b => key (f b)) l) = py_sorted key (map f l).
Proof.
assert (Hins : forall d l, map f (insert_by_key (fun b => key (f b)) d l)
         = insert_by_key key (f d) (map f l)).
{ intros d l'. induction l' as [|x r IH]; [reflexivity|].
cbn [insert_by_key map].
destruct (Qle_bool (key (f d)) (key (f x))); [reflexivity|].
cbn [map]. now rewrite IH. }
induction l as [|d r IH]; [reflexivity|].
cbn [py_sorted map]. now rewrite Hins, IH.
Qed.
End SortFacts.

(** ** The event merger *)

Module MergerFacts.
Import Merger MergerSpec.


Lemma foldl_merge_step g l merged current :
(let '(m, c) := foldl (merge_step g) (merged, current) l in m ++ [c]) =
merged ++ scan g current l.
Proof.
revert merged current.
induction l as [|d r IH]; intros merged current; [reflexivity|].
cbn [foldl scan]. unfold merge_step at 2.
destruct (Qle_bool (start_time d - end_time current) g).
- apply IH.
- rewrite IH, <- app_assoc. reflexivity.
Qed.

Lemma merge_detections_scan detections g :
merge_detections detections g =
Ok (match py_sorted start_time detections with
| [] => []
| first :: rest => scan g first rest
end).
Proof.
destruct detections as [|d0 r0]; [reflexivity|].
unfold merge_detections.
destruct (py_sorted start_time (d0 :: r0)) as [|first rest] eqn:E.
- apply py_sorted_nil_inv in E. discriminate.
- change (drop 1 (first :: rest)) with rest.
cbn [getitem lookup list_lookup bind].
pose proof (foldl_merge_step g rest [] first) as H.
destruct (foldl (merge_step g) ([], first) rest) as [m c].
cbn in H |- *. now rewrite H.
Qed.





Lemma scan_head g l : forall current,
exists e r, scan g current l = e :: r /\ start_time e = start_time current.
Proof.
induction l as [|d r IH]; intros current; cbn [scan]; [eauto|].
destruct (Qle_bool (start_time d - end_time current) g); [|eauto].
destruct (IH (absorb current d)) as (e & r' & -> & He). eauto.
Qed.

Lemma scan_lower_bound g k l : forall current,
k <= start_time current -> Forall (fun d => k <= start_time d) l ->
Forall (fun e => k <= start_time e) (scan g current l).
Proof.
induction l as [|d r IH]; intros current Hc Hl; cbn [scan].
- now constructor.
- apply Forall_cons_1 in Hl as [Hd Hr].
destruct (Qle_bool (start_time d - end_time current) g).
+ now apply IH.
+ constructor; [exact Hc | now apply IH].
Qed.

Lemma scan_sorted g l : forall current,
StronglySorted (key_le start_time) (current :: l) ->
StronglySorted (key_le start_time) (scan g current l).
Proof.
induction l as [|d r IH]; intros current Hs; cbn [scan]; [exact Hs|].
apply StronglySorted_inv in Hs as [Hs Hc].
apply Forall_cons_1 in Hc as [Hcd Hcr].
pose proof Hs as Hs'. apply StronglySorted_inv in Hs' as [Hr Hd].
destruct (Qle_bool (start_time d - end_time current) g).
- apply IH. constructor; [exact Hr | exact Hcr].
- constructor; [now apply IH|].
apply scan_lower_bound; [exact Hcd | exact Hcr].
Qed.

Lemma scan_apart g l : forall current, Sorted (apart g) (scan g current l).
Proof.
induction l as [|d r IH]; intros current; cbn [scan]; [repeat constructor|].
case_Qle (start_time d - end_time current) g H; [apply IH|].
constructor; [apply IH|].
destruct (scan_head g r d) as (e & r' & -> & He).
constructor. unfold apart. rewrite He. lra.
Qed.

(** A sorted list whose neighbours are apart is left as it is. *)
Lemma scan_fixed g l : forall current,
Sorted (apart g) (current :: l) -> scan g current l = current :: l.
Proof.
induction l as [|d r IH]; intros current Hs; [reflexivity|].
apply Sorted_inv in Hs as [Hs Hd]. apply HdRel_inv in Hd.
unfold apart in Hd. rewrite <- Qle_bool_true, not_true_iff_false in Hd.
cbn [scan]. rewrite Hd. f_equal. now apply IH.
Qed.

Lemma apart_pairwise g out :
StronglySorted (key_le start_time) out -> Sorted (apart g) out ->
StronglySorted (fun a b => end_time a + g < start_time b) out.
Proof.
induction 1 as [|a out' Hs IH Ha]; intros Hap; [constructor|].
apply Sorted_inv in Hap as [Hap Hd].
constructor; [now apply IH|].
destruct out' as [|c out'']; [constructor|].
apply HdRel_inv in Hd. unfold apart in Hd.
apply StronglySorted_inv in Hs as [_ Hc].
constructor; [lra|].
eapply Forall_impl; [exact Hc|]. intros b Hb. unfold key_le in Hb. lra.
Qed.

Lemma StronglySorted_lookup {A} (R : A -> A -> Prop) (l : list A) :
StronglySorted R l ->
forall (i j : nat) a b, (i < j)%nat -> l !! i = Some a -> l !! j = Some b -> R a b.
Proof.
induction 1 as [|x r Hr IH Hx]; intros i j a b Hij Hi Hj; [discriminate|].
destruct j as [|j]; [lia|]. cbn in Hj.
destruct i as [|i]; cbn in Hi.
- injection Hi as <-. rewrite Forall_forall in Hx. apply Hx.
eapply list_elem_of_lookup_2. exact Hj.
- apply (IH i j); [lia | exact Hi | exact Hj].
Qed.

Lemma Sorted_lookup {A} (R : A -> A -> Prop) (l : list A) :
Sorted R l ->
forall (i : nat) a b, l !! i = Some a -> l !! S i = Some b -> R a b.
Proof.
induction 1 as [|x r Hr IH Hx]; intros i a b Hi Hj; [discriminate|].
destruct i as [|i]; cbn in Hi, Hj.
- injection Hi as <-. destruct r as [|y r']; [discriminate|].
injection Hj as <-. now apply HdRel_inv in Hx.
- apply (IH i); assumption.
Qed.



(** C6. For every input and every gap [>= 0] the merged episodes are in
ascending order of [start_time], no two neighbours are within
[merge_gap] of each other, and hence any two episodes are disjoint with
more than [merge_gap] between the end of the earlier and the start of
the later. *)
Theorem merge_detections_separated (detections : list event) (merge_gap : Q)
(Hgap : 0 <= merge_gap) :
exists out,
merge_detections detections merge_gap = Ok out /\
(forall (i j : nat) a b, (i < j)%nat -> out !! i = Some a -> out !! j = Some b ->
start_time a <= start_time b) /\
(forall (i : nat) a b, out !! i = Some a -> out !! S i = Some b ->
~ start_time b - end_time a <= merge_gap) /\
(forall (i j : nat) a b, (i < j)%nat -> out !! i = Some a -> out !! j = Some b ->
end_time a < start_time b /\ merge_gap < start_time b - end_time a).
Proof.
rewrite merge_detections_scan.
pose proof (py_sorted_sorted start_time detections) as Hs.
destruct (py_sorted start_time detections) as [|first rest].
{ exists []. repeat split; intros; discriminate. }
exists (scan merge_gap first rest).
pose proof (scan_sorted merge_gap rest first Hs) as Hsorted.
pose proof (scan_apart merge_gap rest first) as Hapart.
split; [reflexivity|]. split; [|split].
- intros i j a b. apply (StronglySorted_lookup _ _ Hsorted).
- intros i a b. apply (Sorted_lookup _ _ Hapart).
- intros i j a b Hij Hi Hj.
pose proof (StronglySorted_lookup _ _ (apart_pairwise _ _ Hsorted Hapart)
        i j a b Hij Hi Hj) as H.
cbn in H. split; lra.
Qed.

Lemma merge_detections_separated_witness :
0 <= 1 /\
exists out,
merge_detections [mk_event 3 4 0.6 None None; mk_event 0 1 0.5 None None] 1
= Ok out /\
forall (i j : nat) a b, (i < j)%nat -> out !! i = Some a -> out !! j = Some b ->
end_time a < start_time b /\ 1 < start_time b - end_time a.
Proof.
split; [discriminate|].
destruct (merge_detections_separated
    [mk_event 3 4 0.6 None None; mk_event 0 1 0.5 None None] 1)
as (out & Hout & _ & _ & Hpair); [discriminate|].
exists out. split; [exact Hout | exact Hpair].
Defined.

Lemma merge_detections_fixed (detections : list event) (g : Q) :
exists out,
merge_detections detections g = Ok out /\ merge_detections out g = Ok out.
Proof.
rewrite merge_detections_scan.
pose proof (py_sorted_sorted start_time detections) as Hs.
destruct (py_sorted start_time detections) as [|first rest].
{ exists []. split; reflexivity. }
exists (scan g first rest). split; [reflexivity|].
rewrite merge_detections_scan.
rewrite (py_sorted_id _ _ (scan_sorted g rest first Hs)).
pose proof (scan_apart g rest first) as Hapart.
destruct (scan g first rest) as [|e r]; [reflexivity|].
now rewrite (scan_fixed g r e Hapart).
Qed.

(** C7. Merging is idempotent: for every event list and gap [>= 0], merging
the merged list again with the same gap returns it unchanged; and the
empty list merges to the empty list, without an error. *)
Theorem merge_detections_idempotent (detections : list event) (merge_gap : Q)
(Hgap : 0 <= merge_gap) :
(exists out,
merge_detections detections merge_gap = Ok out /\
merge_detections out merge_gap = Ok out) /\
bind (merge_detections detections merge_gap)
(fun out => merge_detections out merge_gap)
= merge_detections detections merge_gap /\
merge_detections [] merge_gap = Ok [].
Proof.
destruct (merge_detections_fixed detections merge_gap) as (out & H1 & H2).
split; [eauto|]. split; [|reflexivity].
rewrite H1. exact H2.
Qed.

Lemma merge_detections_idempotent_witness :
0 <= 1 /\
exists out,
merge_detections [mk_event 0.5 1.5 0.7 None None; mk_event 3 4 0.6 None None;
            mk_event 0 1 0.5 None None] 1 = Ok out /\
merge_detections out 1 = Ok out.
Proof.
split; [discriminate|].
apply (merge_detections_idempotent
 [mk_event 0.5 1.5 0.7 None None; mk_event 3 4 0.6 None None;
  mk_event 0 1 0.5 None None] 1).
discriminate.
Defined.




End MergerFacts.

(** ** Rounding to double precision *)

Module Float64Facts.
Import Float64.

Lemma pow2_pos (e : Z) : 0 < pow2 e.
Proof. apply Qpower_0_lt. reflexivity. Qed.

Lemma pow2_add (a b : Z) : pow2 (a + b) == pow2 a * pow2 b.
Proof. apply Qpower_plus. discriminate. Qed.

Lemma pow2_opp (a : Z) : pow2 (- a) == / pow2 a.
Proof. apply Qpower_opp. Qed.

Lemma pow2_cancel (a : Z) : pow2 a * pow2 (- a) == 1.
Proof. rewrite <- pow2_add, Z.add_opp_diag_r. reflexivity. Qed.

Lemma pow2_le (a b : Z) : (a <= b)%Z -> pow2 a <= pow2 b.
Proof. intros H. apply Qpower_le_compat_l; [exact H | discriminate]. Qed.

Lemma pow2_lt (a b : Z) : (a < b)%Z -> pow2 a < pow2 b.
Proof. intros H. apply Qpower_lt_compat_l; [exact H | reflexivity]. Qed.

Lemma pow2_lt_inv (a b : Z) : pow2 a < pow2 b -> (a < b)%Z.
Proof. intros H. eapply Qpower_lt_compat_l_inv; [exact H | reflexivity]. Qed.

Lemma pow2_Z (n : Z) : (0 <= n)%Z -> pow2 n == inject_Z (2 ^ n).
Proof. intros H. unfold pow2. now rewrite Zpower_Qpower. Qed.

Lemma pow2_succ (e : Z) : pow2 (e + 1) == 2 * pow2 e.
Proof. rewrite pow2_add. change (pow2 1) with 2. ring. Qed.

Lemma pow2_pred (e : Z) : pow2 e == 2 * pow2 (e - 1).
Proof. rewrite <- pow2_succ. now replace (e - 1 + 1)%Z with e by lia. Qed.

(** Bounds of a positive integer by powers of two. *)
Lemma log2_bounds (n : Z) :
  (0 < n)%Z -> pow2 (Z.log2 n) <= inject_Z n /\ inject_Z n < pow2 (Z.log2 n + 1).
Proof.
  intros Hn. destruct (Z.log2_spec n Hn) as [H1 H2].
  pose proof (Z.log2_nonneg n) as H0.
  rewrite !pow2_Z by lia. rewrite <- Zle_Qle, <- Zlt_Qlt.
  split; [exact H1|]. now rewrite <- Z.add_1_r in H2.
Qed.

Lemma mag_spec (a : Q) : 0 < a -> pow2 (mag a - 1) <= a /\ a < pow2 (mag a).
Proof.
  intros Ha. unfold mag. destruct a as [n d]. cbn [Qnum Qden].
  assert (Hn : (0 < n)%Z).
  { unfold Qlt in Ha. cbn in Ha. lia. }
  destruct (log2_bounds n Hn) as [N1 N2].
  destruct (log2_bounds (Zpos d) ltac:(lia)) as [D1 D2].
  set (ln := Z.log2 n) in *. set (ld := Z.log2 (Zpos d)) in *.
  assert (E : n # d == inject_Z n / inject_Z (Zpos d)) by apply Qmake_Qdiv.
  assert (Hd : 0 < inject_Z (Zpos d)) by reflexivity.
  pose proof (pow2_pos ld) as Pd. pose proof (pow2_pos (ld + 1)) as Pd1.
  assert (Lo : pow2 (ln - ld - 1) <= n # d).
  { rewrite E. apply Qle_shift_div_l; [exact Hd|].
    replace (ln - ld - 1)%Z with (ln + - (ld + 1))%Z by lia.
    rewrite pow2_add, pow2_opp.
    apply Qle_trans with (pow2 ln * / pow2 (ld + 1) * pow2 (ld + 1)).
    - apply Qmult_le_compat_nonneg.
      + split; [|apply Qle_refl].
        apply Qmult_le_0_compat; [apply Qlt_le_weak, pow2_pos|].
        apply Qinv_le_0_compat, Qlt_le_weak, pow2_pos.
      + split; [now apply Qlt_le_weak | now apply Qlt_le_weak].
    - assert (X : pow2 ln * / pow2 (ld + 1) * pow2 (ld + 1) == pow2 ln).
      { field. intros Hz. rewrite Hz in Pd1. discriminate. }
      rewrite X. exact N1. }
  assert (Hi : n # d < pow2 (ln - ld + 1)).
  { rewrite E. apply Qlt_shift_div_r; [exact Hd|].
    replace (ln - ld + 1)%Z with (ln + 1 + - ld)%Z by lia.
    rewrite pow2_add, pow2_opp.
    apply Qlt_le_trans with (pow2 (ln + 1)); [exact N2|].
    assert (X : pow2 (ln + 1) == pow2 (ln + 1) * / pow2 ld * pow2 ld).
    { field. intros Hz. rewrite Hz in Pd. discriminate. }
    rewrite X at 1. apply Qmult_le_compat_nonneg.
    - split; [|apply Qle_refl].
      apply Qmult_le_0_compat; [apply Qlt_le_weak, pow2_pos|].
      apply Qinv_le_0_compat, Qlt_le_weak, pow2_pos.
    - split; [now apply Qlt_le_weak | exact D1]. }
  destruct (Qle_bool (pow2 (ln - ld)) (n # d)) eqn:Eb.
  - apply Qle_bool_iff in Eb.
    replace (ln - ld + 1 - 1)%Z with (ln - ld)%Z by lia. now split.
  - split; [exact Lo|].
    apply Qnot_le_lt. intros H. apply Qle_bool_iff in H. congruence.
Qed.

Lemma mag_unique (a : Q) (k : Z) :
  0 < a -> pow2 (k - 1) <= a -> a < pow2 k -> mag a = k.
Proof.
  intros Ha H1 H2. destruct (mag_spec a Ha) as [M1 M2].
  assert (A : (k - 1 < mag a)%Z).
  { apply pow2_lt_inv. eapply Qle_lt_trans; eassumption. }
  assert (B : (mag a - 1 < k)%Z).
  { apply pow2_lt_inv. eapply Qle_lt_trans; eassumption. }
  lia.
Qed.

Lemma mag_le (a b : Q) : 0 < a -> a <= b -> (mag a <= mag b)%Z.
Proof.
  intros Ha Hab. assert (Hb : 0 < b) by lra.
  destruct (mag_spec a Ha) as [A1 A2]. destruct (mag_spec b Hb) as [B1 B2].
  assert (X : (mag a - 1 < mag b)%Z).
  { apply pow2_lt_inv. lra. }
  lia.
Qed.

Lemma mag_comp (a b : Q) : 0 < a -> a == b -> mag a = mag b.
Proof.
  intros Ha E. assert (Hb : 0 < b) by lra.
  destruct (mag_spec a Ha) as [A1 A2].
  symmetry. apply mag_unique; lra.
Qed.

Lemma Qfloor_comp (s t : Q) : s == t -> Qfloor s = Qfloor t.
Proof.
  intros E. apply Z.le_antisymm; apply Qfloor_resp_le; rewrite E; apply Qle_refl.
Qed.

Lemma Zrne_comp (s t : Q) : s == t -> Zrne s = Zrne t.
Proof.
  intros E. unfold Zrne. rewrite (Qfloor_comp s t E).
  assert (X : s - inject_Z (Qfloor t) == t - inject_Z (Qfloor t)) by now rewrite E.
  now rewrite X.
Qed.

(** [Zrne t] is the floor of [t] or the next integer, whichever is nearer. *)
Lemma Zrne_cases (t : Q) :
  (Zrne t = Qfloor t /\ t - inject_Z (Qfloor t) <= 1 # 2) \/
  (Zrne t = (Qfloor t + 1)%Z /\ 1 # 2 <= t - inject_Z (Qfloor t)).
Proof.
  unfold Zrne.
  destruct (Qcompare_spec (t - inject_Z (Qfloor t)) (1 # 2)) as [E|L|G].
  - destruct (Z.even (Qfloor t)); [left | right]; split; try reflexivity; lra.
  - left. split; [reflexivity | lra].
  - right. split; [reflexivity | lra].
Qed.

Lemma Zrne_Z (z : Z) : Zrne (inject_Z z) = z.
Proof.
  unfold Zrne. rewrite Qfloor_Z.
  assert (X : inject_Z z - inject_Z z == 0) by ring.
  now rewrite X.
Qed.

Lemma Zrne_le (s t : Q) : s <= t -> (Zrne s <= Zrne t)%Z.
Proof.
  intros Hst. pose proof (Qfloor_resp_le s t Hst) as Hf.
  destruct (Z.eq_dec (Qfloor s) (Qfloor t)) as [E|N].
  - unfold Zrne. rewrite E.
    destruct (Qcompare_spec (s - inject_Z (Qfloor t)) (1 # 2)) as [Es|Ls|Gs];
      destruct (Qcompare_spec (t - inject_Z (Qfloor t)) (1 # 2)) as [Et|Lt|Gt];
      try lra; try lia; destruct (Z.even (Qfloor t)); lia.
  - destruct (Zrne_cases s) as [[-> _]|[-> _]];
      destruct (Zrne_cases t) as [[-> _]|[-> _]]; lia.
Qed.

Lemma Zrne_ge_Z (z : Z) (t : Q) : inject_Z z <= t -> (z <= Zrne t)%Z.
Proof. intros H. rewrite <- (Zrne_Z z). now apply Zrne_le. Qed.

Lemma Zrne_le_Z (z : Z) (t : Q) : t <= inject_Z z -> (Zrne t <= z)%Z.
Proof. intros H. rewrite <- (Zrne_Z z). now apply Zrne_le. Qed.

Lemma Zrne_error (t : Q) : Qabs (t - inject_Z (Zrne t)) <= 1 # 2.
Proof.
  pose proof (Qfloor_le t) as F1. pose proof (Qlt_floor t) as F2.
  rewrite inject_Z_plus in F2. change (inject_Z 1) with 1 in F2.
  apply Qabs_Qle_condition.
  destruct (Zrne_cases t) as [[-> H]|[-> H]].
  - lra.
  - rewrite inject_Z_plus. change (inject_Z 1) with 1. lra.
Qed.

(** The significand of [a > 0] before rounding lies in [[2^52, 2^53)]. *)
Lemma scaled_range (a : Q) :
  0 < a ->
  pow2 52 <= a * pow2 (- (mag a - prec)) /\ a * pow2 (- (mag a - prec)) < pow2 53.
Proof.
  intros Ha. destruct (mag_spec a Ha) as [M1 M2]. unfold prec.
  pose proof (pow2_pos (- (mag a - 53))) as P.
  split.
  - replace 52%Z with (mag a - 1 + - (mag a - 53))%Z by lia.
    rewrite pow2_add. apply Qmult_le_compat_r; [exact M1 | now apply Qlt_le_weak].
  - replace 53%Z with (mag a + - (mag a - 53))%Z at 2 by lia.
    rewrite pow2_add. apply Qmult_lt_compat_r; [exact P | exact M2].
Qed.

Lemma significand_range (a : Q) :
  0 < a ->
  (2 ^ 52 <= Zrne (a * pow2 (- (mag a - prec))) <= 2 ^ 53)%Z.
Proof.
  intros Ha. destruct (scaled_range a Ha) as [S1 S2].
  rewrite (pow2_Z 52) in S1 by lia. rewrite (pow2_Z 53) in S2 by lia. split.
  - now apply Zrne_ge_Z.
  - apply Zrne_le_Z. now apply Qlt_le_weak.
Qed.

Lemma round_pos_bounds (a : Q) :
  0 < a -> pow2 (mag a - 1) <= round_pos a /\ round_pos a <= pow2 (mag a).
Proof.
  intros Ha. destruct (significand_range a Ha) as [S1 S2]. unfold round_pos.
  set (m := Zrne (a * pow2 (- (mag a - prec)))) in *.
  pose proof (pow2_pos (mag a - prec)) as P.
  rewrite Zle_Qle in S1, S2.
  rewrite <- (pow2_Z 52) in S1 by lia. rewrite <- (pow2_Z 53) in S2 by lia.
  unfold prec in *. split.
  - replace (mag a - 1)%Z with (52 + (mag a - 53))%Z by lia.
    rewrite pow2_add. apply Qmult_le_compat_r; [exact S1 | now apply Qlt_le_weak].
  - replace (mag a)%Z with (53 + (mag a - 53))%Z at 2 by lia.
    rewrite pow2_add. apply Qmult_le_compat_r; [exact S2 | now apply Qlt_le_weak].
Qed.

Lemma round_pos_pos (a : Q) : 0 < a -> 0 < round_pos a.
Proof.
  intros Ha. destruct (round_pos_bounds a Ha) as [B _].
  pose proof (pow2_pos (mag a - 1)). lra.
Qed.

Lemma round_pos_comp (a b : Q) : 0 < a -> a == b -> round_pos a == round_pos b.
Proof.
  intros Ha E. unfold round_pos. rewrite <- (mag_comp a b Ha E).
  assert (X : a * pow2 (- (mag a - prec)) == b * pow2 (- (mag a - prec)))
    by (apply Qmult_comp; [exact E | reflexivity]).
  now rewrite (Zrne_comp _ _ X).
Qed.

Lemma round_pos_le (a b : Q) : 0 < a -> a <= b -> round_pos a <= round_pos b.
Proof.
  intros Ha Hab. assert (Hb : 0 < b) by lra.
  pose proof (mag_le a b Ha Hab) as Hm.
  destruct (Z.eq_dec (mag a) (mag b)) as [E|N].
  - unfold round_pos. rewrite E.
    apply Qmult_le_compat_r; [|apply Qlt_le_weak, pow2_pos].
    rewrite <- Zle_Qle. apply Zrne_le.
    apply Qmult_le_compat_r; [exact Hab | apply Qlt_le_weak, pow2_pos].
  - destruct (round_pos_bounds a Ha) as [_ A]. destruct (round_pos_bounds b Hb) as [B _].
    assert (P : pow2 (mag a) <= pow2 (mag b - 1)) by (apply pow2_le; lia).
    lra.
Qed.

(** A positive integer below [2^53], scaled by a power of two, is not
    changed by rounding. *)
Lemma round_pos_repr_lt (M e : Z) :
  (0 < M < 2 ^ 53)%Z -> round_pos (inject_Z M * pow2 e) == inject_Z M * pow2 e.
Proof.
  intros [HM1 HM2]. set (a := inject_Z M * pow2 e).
  pose proof (pow2_pos e) as Pe.
  assert (HMq : 0 < inject_Z M).
  { change 0 with (inject_Z 0). now rewrite <- Zlt_Qlt. }
  assert (Ha : 0 < a).
  { unfold a. apply Qmult_lt_0_compat; assumption. }
  destruct (mag_spec a Ha) as [M1 M2].
  assert (Hk : (mag a <= 53 + e)%Z).
  { assert (X : pow2 (mag a - 1) < pow2 (53 + e)).
    { eapply Qle_lt_trans; [exact M1|]. unfold a. rewrite pow2_add.
      apply Qmult_lt_compat_r; [exact Pe|].
      rewrite pow2_Z by lia. now rewrite <- Zlt_Qlt. }
    apply pow2_lt_inv in X. lia. }
  unfold round_pos, prec. fold a.
  set (e' := (mag a - 53)%Z).
  assert (X : a * pow2 (- e') == inject_Z (M * 2 ^ (e - e'))).
  { unfold a. rewrite inject_Z_mult, <- pow2_Z by lia.
    replace (e - e')%Z with (e + - e')%Z by lia. rewrite pow2_add. ring. }
  rewrite (Zrne_comp _ _ X), Zrne_Z.
  rewrite inject_Z_mult, <- pow2_Z by lia.
  unfold a. rewrite <- Qmult_assoc, <- pow2_add.
  now replace (e - e' + e')%Z with e by lia.
Qed.

Lemma round_pos_repr (M e : Z) :
  (0 < M <= 2 ^ 53)%Z -> round_pos (inject_Z M * pow2 e) == inject_Z M * pow2 e.
Proof.
  intros [HM1 HM2]. destruct (Z.eq_dec M (Z.pow 2 53)) as [->|N].
  - assert (X : inject_Z (Z.pow 2 53) * pow2 e == inject_Z (Z.pow 2 52) * pow2 (e + 1)).
    { rewrite pow2_succ.
      assert (Y : inject_Z (Z.pow 2 53) == 2 * inject_Z (Z.pow 2 52)) by reflexivity.
      rewrite Y. ring. }
    assert (P : 0 < inject_Z (Z.pow 2 53) * pow2 e).
    { apply Qmult_lt_0_compat; [reflexivity | apply pow2_pos]. }
    rewrite (round_pos_comp _ _ P X), round_pos_repr_lt by lia.
    now rewrite X.
  - apply round_pos_repr_lt. lia.
Qed.

(** Rounding commits a relative error of at most [2^-53]. *)
Lemma round_pos_error (a : Q) :
  0 < a -> Qabs (a - round_pos a) <= a * pow2 (- 53).
Proof.
  intros Ha. destruct (mag_spec a Ha) as [M1 _]. unfold round_pos, prec.
  set (e := (mag a - 53)%Z).
  pose proof (Zrne_error (a * pow2 (- e))) as Hr.
  set (m := Zrne (a * pow2 (- e))) in *.
  pose proof (pow2_pos e) as Pe.
  assert (X : a - inject_Z m * pow2 e == (a * pow2 (- e) - inject_Z m) * pow2 e).
  { pose proof (pow2_cancel e) as C.
    assert (Y : a == a * (pow2 e * pow2 (- e))) by (rewrite C; ring).
    rewrite Y at 1. ring. }
  rewrite X, Qabs_Qmult, (Qabs_pos (pow2 e)) by now apply Qlt_le_weak.
  apply Qle_trans with ((1 # 2) * pow2 e).
  - apply Qmult_le_compat_r; [exact Hr | now apply Qlt_le_weak].
  - assert (Z1 : (1 # 2) * pow2 e == pow2 (mag a - 1) * pow2 (- 53)).
    { rewrite <- pow2_add. replace (mag a - 1 + - 53)%Z with (e + - 1)%Z by lia.
      rewrite pow2_add. change (pow2 (- 1)) with (1 # 2). ring. }
    rewrite Z1. apply Qmult_le_compat_r; [exact M1|].
    apply Qlt_le_weak, pow2_pos.
Qed.

Lemma round_double_pos (x : Q) : 0 < x -> round_double x == round_pos x.
Proof.
  intros H. unfold round_double.
  destruct (Qcompare_spec x 0) as [E|L|G]; [lra | lra | apply Qred_correct].
Qed.

Lemma round_double_neg (x : Q) : x < 0 -> round_double x == - round_pos (- x).
Proof.
  intros H. unfold round_double.
  destruct (Qcompare_spec x 0) as [E|L|G]; [lra | apply Qred_correct | lra].
Qed.

Lemma round_double_zero (x : Q) : x == 0 -> round_double x = 0.
Proof.
  intros H. unfold round_double.
  destruct (Qcompare_spec x 0) as [E|L|G]; [reflexivity | lra | lra].
Qed.

(** Equal numbers round to the same double, in the same representation. *)
Lemma round_double_comp (x y : Q) : x == y -> round_double x = round_double y.
Proof.
  intros E. unfold round_double. rewrite <- (Qcompare_comp x y E 0 0 (Qeq_refl 0)).
  destruct (Qcompare_spec x 0) as [Z|L|G]; [reflexivity| |].
  - apply Qred_complete. apply Qopp_comp. apply round_pos_comp; [lra|].
    now apply Qopp_comp.
  - apply Qred_complete. now apply round_pos_comp.
Qed.

#[export] Instance round_double_proper : Proper (Qeq ==> Qeq) round_double.
Proof. intros x y E. now rewrite (round_double_comp x y E). Qed.

#[export] Instance fadd_proper : Proper (Qeq ==> Qeq ==> Qeq) fadd.
Proof. intros a a' Ea b b' Eb. unfold fadd. now rewrite Ea, Eb. Qed.

#[export] Instance fsub_proper : Proper (Qeq ==> Qeq ==> Qeq) fsub.
Proof. intros a a' Ea b b' Eb. unfold fsub. now rewrite Ea, Eb. Qed.

#[export] Instance is_double_proper : Proper (Qeq ==> iff) is_double.
Proof. intros x y E. unfold is_double. now rewrite E. Qed.

Lemma round_double_opp (x : Q) : round_double (- x) == - round_double x.
Proof.
  destruct (Qcompare_spec x 0) as [Z|L|G].
  - rewrite (round_double_zero x Z), (round_double_zero (- x)) by lra. reflexivity.
  - rewrite (round_double_neg x L), (round_double_pos (- x)) by lra. ring.
  - rewrite (round_double_pos x G), (round_double_neg (- x)) by lra.
    assert (E : - - x == x) by ring.
    rewrite (round_pos_comp (- - x) x) by lra. reflexivity.
Qed.

Lemma round_double_pos_lt (x : Q) : 0 < x -> 0 < round_double x.
Proof. intros H. rewrite round_double_pos by exact H. now apply round_pos_pos. Qed.

Lemma round_double_neg_lt (x : Q) : x < 0 -> round_double x < 0.
Proof.
  intros H. rewrite round_double_neg by exact H.
  pose proof (round_pos_pos (- x)). lra.
Qed.

(** Rounding is monotone. *)
Lemma round_double_le (x y : Q) : x <= y -> round_double x <= round_double y.
Proof.
  intros Hxy.
  destruct (Qcompare_spec x 0) as [Zx|Lx|Gx].
  - rewrite (round_double_zero x Zx).
    destruct (Qcompare_spec y 0) as [Zy|Ly|Gy]; [|lra|].
    + rewrite (round_double_zero y Zy). apply Qle_refl.
    + apply Qlt_le_weak. now apply round_double_pos_lt.
  - destruct (Qcompare_spec y 0) as [Zy|Ly|Gy].
    + rewrite (round_double_zero y Zy). apply Qlt_le_weak.
      now apply round_double_neg_lt.
    + rewrite (round_double_neg x Lx), (round_double_neg y Ly).
      pose proof (round_pos_le (- y) (- x)). lra.
    + pose proof (round_double_neg_lt x Lx). pose proof (round_double_pos_lt y Gy).
      lra.
  - rewrite (round_double_pos x Gx), (round_double_pos y) by lra.
    now apply round_pos_le.
Qed.


Lemma round_double_nonpos (x : Q) : x <= 0 -> round_double x <= 0.
Proof. intros H. apply (round_double_le x 0 H). Qed.

(** An integer of magnitude at most [2^53], scaled by a power of two, is
    a double. *)
Lemma is_double_repr (M e : Z) :
  (Z.abs M <= 2 ^ 53)%Z -> is_double (inject_Z M * pow2 e).
Proof.
  intros HM. unfold is_double. pose proof (pow2_pos e) as Pe.
  destruct (Z.lt_trichotomy M 0) as [L|[->|G]].
  - assert (X : inject_Z M * pow2 e == - (inject_Z (- M) * pow2 e)).
    { rewrite inject_Z_opp. ring. }
    rewrite X, round_double_opp.
    assert (P : 0 < inject_Z (- M) * pow2 e).
    { apply Qmult_lt_0_compat; [|exact Pe].
      change 0 with (inject_Z 0). rewrite <- Zlt_Qlt. lia. }
    rewrite (round_double_pos _ P), round_pos_repr by lia. reflexivity.
  - rewrite round_double_zero; [|ring]. ring.
  - assert (P : 0 < inject_Z M * pow2 e).
    { apply Qmult_lt_0_compat; [|exact Pe].
      change 0 with (inject_Z 0). now rewrite <- Zlt_Qlt. }
    rewrite (round_double_pos _ P). apply round_pos_repr. lia.
Qed.

Lemma is_double_Z (z : Z) : (Z.abs z <= 2 ^ 53)%Z -> is_double (inject_Z z).
Proof.
  intros H. assert (X : inject_Z z == inject_Z z * pow2 0).
  { change (pow2 0) with 1. ring. }
  rewrite X. now apply is_double_repr.
Qed.

Lemma is_double_0 : is_double 0.
Proof. reflexivity. Qed.

(** A positive double is its 53-bit significand times a power of two. *)
Lemma double_repr (x : Q) :
  is_double x -> 0 < x ->
  exists M : Z, (2 ^ 52 <= M <= 2 ^ 53)%Z /\ x == inject_Z M * pow2 (mag x - prec).
Proof.
  intros Hx Hpos. unfold is_double in Hx.
  rewrite (round_double_pos x Hpos) in Hx.
  exists (Zrne (x * pow2 (- (mag x - prec)))).
  split; [now apply significand_range|]. symmetry. exact Hx.
Qed.

(** The result of rounding is a double. *)
Lemma is_double_round (x : Q) : is_double (round_double x).
Proof.
  destruct (Qcompare_spec x 0) as [Z|L|G].
  - rewrite (round_double_zero x Z). reflexivity.
  - rewrite (round_double_neg x L).
    destruct (significand_range (- x)) as [S1 S2]; [lra|].
    unfold round_pos.
    assert (X : - (inject_Z (Zrne (- x * pow2 (- (mag (- x) - prec))))
                   * pow2 (mag (- x) - prec))
                == inject_Z (- Zrne (- x * pow2 (- (mag (- x) - prec))))
                   * pow2 (mag (- x) - prec)).
    { rewrite inject_Z_opp. ring. }
    rewrite X. apply is_double_repr. lia.
  - rewrite (round_double_pos x G).
    destruct (significand_range x G) as [S1 S2].
    apply is_double_repr. lia.
Qed.

Lemma is_double_fadd (a b : Q) : is_double (fadd a b).
Proof. apply is_double_round. Qed.

Lemma is_double_fsub (a b : Q) : is_double (fsub a b).
Proof. apply is_double_round. Qed.

Lemma is_double_opp (x : Q) : is_double x -> is_double (- x).
Proof. unfold is_double. intros H. now rewrite round_double_opp, H. Qed.

(** Twice a double is a double. *)
Lemma is_double_twice (x : Q) : is_double x -> is_double (2 * x).
Proof.
  intros Hx. destruct (Qcompare_spec x 0) as [Z|L|G].
  - assert (E : 2 * x == 0) by lra. rewrite E. reflexivity.
  - destruct (double_repr (- x)) as (M & HM & E); [now apply is_double_opp | lra |].
    assert (X : 2 * x == inject_Z (- M) * pow2 (mag (- x) - prec + 1)).
    { rewrite pow2_succ, inject_Z_opp. lra. }
    rewrite X. apply is_double_repr. lia.
  - destruct (double_repr x Hx G) as (M & HM & E).
    assert (X : 2 * x == inject_Z M * pow2 (mag x - prec + 1)).
    { rewrite pow2_succ. lra. }
    rewrite X. apply is_double_repr. lia.
Qed.

(** A double is returned unchanged by rounding, so rounding below or above
    a double stays on its side. *)
Lemma round_double_le_double (x d : Q) : is_double d -> x <= d -> round_double x <= d.
Proof.
  intros Hd H. unfold is_double in Hd.
  apply Qle_trans with (round_double d); [now apply round_double_le|].
  rewrite Hd. apply Qle_refl.
Qed.

Lemma round_double_ge_double (x d : Q) : is_double d -> d <= x -> d <= round_double x.
Proof.
  intros Hd H. unfold is_double in Hd.
  apply Qle_trans with (round_double d); [|now apply round_double_le].
  rewrite Hd. apply Qle_refl.
Qed.

(** Sterbenz: the difference of two doubles within a factor two of each
    other is a double, so their subtraction is exact. *)
Lemma sterbenz (a b : Q) :
  is_double a -> is_double b -> 0 < b -> b <= a -> a <= 2 * b ->
  is_double (a - b).
Proof.
  intros Ha Hb Hpos Hba Hab.
  destruct (double_repr b Hb Hpos) as (Mb & HMb & Eb).
  destruct (double_repr a Ha) as (Ma & HMa & Ea); [lra|].
  pose proof (mag_le b a Hpos Hba) as Hm.
  set (eb := (mag b - prec)%Z) in *. set (ea := (mag a - prec)%Z) in *.
  pose proof (pow2_pos eb) as Pb.
  assert (Ea' : a == inject_Z (Ma * 2 ^ (ea - eb)) * pow2 eb).
  { rewrite Ea, inject_Z_mult, <- pow2_Z by lia.
    rewrite <- Qmult_assoc, <- pow2_add.
    now replace (ea - eb + eb)%Z with ea by lia. }
  set (N := (Ma * 2 ^ (ea - eb) - Mb)%Z).
  assert (E : a - b == inject_Z N * pow2 eb).
  { transitivity (inject_Z (Ma * 2 ^ (ea - eb)) * pow2 eb - inject_Z Mb * pow2 eb).
    - apply Qplus_comp; [exact Ea' | apply Qopp_comp; exact Eb].
    - unfold N, Z.sub. rewrite inject_Z_plus, inject_Z_opp. ring. }
  rewrite E. apply is_double_repr.
  assert (N0 : 0 <= inject_Z N).
  { apply (Qmult_le_r _ _ (pow2 eb) Pb). rewrite <- E. lra. }
  assert (N1 : inject_Z N <= inject_Z Mb).
  { apply (Qmult_le_r _ _ (pow2 eb) Pb). rewrite <- E, <- Eb. lra. }
  change 0 with (inject_Z 0) in N0. rewrite <- Zle_Qle in N0, N1. lia.
Qed.

Lemma fsub_exact (a b : Q) :
  is_double a -> is_double b -> 0 < b -> b <= a -> a <= 2 * b ->
  fsub a b == a - b.
Proof. intros. now apply sterbenz. Qed.

Lemma fadd_0_l (a : Q) : is_double a -> fadd 0 a == a.
Proof.
  intros H. unfold fadd. assert (E : 0 + a == a) by ring.
  rewrite (round_double_comp _ _ E). exact H.
Qed.

Lemma fsub_0_r (a : Q) : is_double a -> fsub a 0 == a.
Proof.
  intros H. unfold fsub. assert (E : a - 0 == a) by ring.
  rewrite (round_double_comp _ _ E). exact H.
Qed.

End Float64Facts.

(** ** The chunk scheduler *)

Module SchedulerFacts.
Import Float64 Float64Facts Scheduler.

Lemma inject_nat_S (n : nat) :
inject_Z (Z.of_nat (S n)) == inject_Z (Z.of_nat n) + 1.
Proof. rewrite Nat2Z.inj_succ. unfold Z.succ. rewrite inject_Z_plus. reflexivity. Qed.

Section Run.
Context {A : Type} (load_audio : Q -> Q -> A).
Variables D C O : Q.

#[local] Abbreviation make_chunk := (make_chunk load_audio D C).
#[local] Abbreviation gen_next := (gen_next load_audio D C O).
#[local] Abbreviation gen_take := (gen_take load_audio D C O).
#[local] Abbreviation run := (run load_audio D C O).
#[local] Abbreviation next_offset := (next_offset D C O).
#[local] Abbreviation step := (fsub C O).

Lemma gen_next_run st :
st <> GenFinished ->
gen_next st =
if Qle_bool D (next_offset st) then (Ok None, GenFinished)
else (Ok (Some (make_chunk (next_offset st))), GenSuspended (next_offset st)).
Proof.
destruct st as [|offset|]; intros Hst; [| |contradiction]; cbn.
- unfold while_head. now destruct (Qle_bool D 0).
- unfold while_head. now destruct (Qle_bool D (fadd offset step)).
Qed.

Lemma gen_take_run fuel : forall st,
st <> GenFinished -> gen_take fuel st = Ok (run fuel (next_offset st)).
Proof.
induction fuel as [|n IH]; intros st Hst; [reflexivity|].
cbn [Scheduler.gen_take Scheduler.run]. rewrite gen_next_run by exact Hst.
destruct (Qle_bool D (next_offset st)); [reflexivity|].
rewrite IH by discriminate. cbn [Scheduler.next_offset].
now destruct (run n (fadd (next_offset st) step)).
Qed.

Lemma run_S n offset :
run (S n) offset =
if Qle_bool D offset then ([], true)
else let '(cs, fin) := run n (fadd offset step) in (make_chunk offset :: cs, fin).
Proof. reflexivity. Qed.

Lemma run_head fuel offset c cs fin :
run fuel offset = (c :: cs, fin) -> c = make_chunk offset.
Proof.
destruct fuel as [|n]; [discriminate|]. rewrite run_S.
destruct (Qle_bool D offset); [discriminate|].
destruct (run n (fadd offset step)). now intros [= <- _ _].
Qed.

Lemma run_nil fuel offset : run fuel offset = ([], true) -> D <= offset.
Proof.
destruct fuel as [|n]; [discriminate|]. rewrite run_S.
case_Qle D offset H; [easy|].
destruct (run n (fadd offset step)). discriminate.
Qed.

(** The generator never raises. *)
Lemma gen_next_never_raises st : ~ raises (fst (gen_next st)).
Proof.
destruct st as [|offset|]; cbn; unfold while_head;
repeat match goal with |- context [if ?b then _ else _] => destruct b end;
apply raises_Ok.
Qed.

Lemma run_length fuel : forall offset, (length (fst (run fuel offset)) <= fuel)%nat.
Proof.
induction fuel as [|n IH]; intros offset; cbn; [lia|].
destruct (Qle_bool D offset); cbn; [lia|].
specialize (IH (fadd offset step)).
destruct (run n (fadd offset step)); cbn in *. lia.
Qed.

(** Once the run has signalled its end, more fuel changes nothing. *)
Lemma run_more_fuel fuel : forall offset cs,
run fuel offset = (cs, true) ->
forall fuel', (length cs < fuel')%nat -> run fuel' offset = (cs, true).
Proof.
induction fuel as [|n IH]; intros offset cs Hrun fuel' Hlen; [discriminate|].
destruct fuel' as [|n']; [lia|]. cbn in Hrun |- *.
destruct (Qle_bool D offset); [exact Hrun|].
destruct (run n (fadd offset step)) as [cs0 fin] eqn:E.
injection Hrun as <- ->. cbn in Hlen.
rewrite (IH _ _ E n') by lia. reflexivity.
Qed.

(** The duration asked of [load_audio] is positive and at most [C]. *)
Lemma duration_bounds offset :
  0 < C -> offset < D ->
  0 < py_min C (fsub D offset) /\ py_min C (fsub D offset) <= C.
Proof.
  intros HC Hlt.
  assert (P : 0 < fsub D offset) by (apply round_double_pos_lt; lra).
  unfold py_min. case_Qle C (fsub D offset) H; lra.
Qed.

Section WellConfigured.
Hypothesis HO : 0 <= O.
Hypothesis HOC : O < C.
Hypothesis dD : is_double D.
Hypothesis dC : is_double C.

Lemma step_pos : 0 < step.
Proof. apply round_double_pos_lt. lra. Qed.

Lemma step_le : step <= C.
Proof. apply round_double_le_double; [exact dC | lra]. Qed.

Lemma step_double : is_double step.
Proof. apply is_double_round. Qed.

Lemma next_ge offset : is_double offset -> offset <= fadd offset step.
Proof.
  intros Hd. apply round_double_ge_double; [exact Hd|].
  pose proof step_pos. lra.
Qed.

Lemma next_ge_step offset : 0 <= offset -> step <= fadd offset step.
Proof. intros H. apply round_double_ge_double; [apply step_double | lra]. Qed.

(** No gap: the next chunk, if there is one, starts inside this chunk or
    at its end. *)
Lemma no_gap offset :
  fadd offset step < D -> fadd offset step <= global_end (make_chunk offset).
Proof.
  intros Hnext. cbn [global_end Scheduler.make_chunk].
  apply round_double_le.
  assert (Hs : offset + step < D).
  { apply Qnot_le_lt. intros Hge.
    pose proof (round_double_ge_double _ _ dD Hge) as X.
    unfold fadd in Hnext. lra. }
  unfold py_min. case_Qle C (fsub D offset) H.
  - pose proof step_le. lra.
  - assert (X : step <= fsub D offset).
    { apply round_double_ge_double; [apply step_double | lra]. }
    lra.
Qed.

(** The chunk after which the loop ends is cut at [D] exactly. *)
Lemma last_end offset :
  is_double offset -> offset == 0 \/ step <= offset ->
  offset < D -> D <= fadd offset step ->
  global_end (make_chunk offset) == D.
Proof.
  intros Hd Hoff Hlt Hlast. cbn [global_end Scheduler.make_chunk].
  pose proof step_pos as Sp. pose proof step_le as Sl.
  assert (Hmono : fadd offset step <= fadd offset C).
  { apply round_double_le. lra. }
  destruct Hoff as [Hz|Hge].
  - assert (E1 : fsub D offset == D).
    { unfold fsub. assert (X : D - offset == D) by lra.
      rewrite (round_double_comp _ _ X). exact dD. }
    assert (E2 : fadd offset C == C).
    { unfold fadd. assert (X : offset + C == C) by lra.
      rewrite (round_double_comp _ _ X). exact dC. }
    unfold py_min. case_Qle C (fsub D offset) H.
    + lra.
    + unfold fadd. assert (X : offset + fsub D offset == D) by lra.
      rewrite (round_double_comp _ _ X). exact dD.
  - assert (Htwice : fadd offset step <= 2 * offset).
    { apply round_double_le_double; [now apply is_double_twice | lra]. }
    assert (E1 : fsub D offset == D - offset).
    { apply fsub_exact; try assumption; lra. }
    unfold py_min. case_Qle C (fsub D offset) H.
    + apply Qle_antisym; [|lra].
      apply round_double_le_double; [exact dD | lra].
    + unfold fadd. assert (X : offset + fsub D offset == D) by lra.
      rewrite (round_double_comp _ _ X). exact dD.
Qed.

(** The shape of a run: step rule, no gaps, coverage, truncation. *)
Lemma run_chunks fuel : forall offset cs fin,
  is_double offset -> offset == 0 \/ step <= offset ->
  run fuel offset = (cs, fin) ->
  (forall c, cs !! 0%nat = Some c -> global_start c = offset) /\
  (forall (i : nat) c, cs !! i = Some c ->
     offset <= global_start c /\ global_start c < D /\
     is_double (global_start c) /\
     c = make_chunk (global_start c)) /\
  (forall (i : nat) c c', cs !! i = Some c -> cs !! S i = Some c' ->
     global_start c' = fadd (global_start c) step /\
     global_start c <= global_start c' /\
     global_start c' <= global_end c) /\
  (fin = true ->
     (forall t, offset <= t /\ t < D ->
        exists c, c ∈ cs /\ global_start c <= t /\ t < global_end c) /\
     (forall c, last cs = Some c ->
        global_end c == D /\ D <= fadd (global_start c) step)).
Proof.
  induction fuel as [|n IH]; intros offset cs fin Hd Hoff Hrun.
  { cbn in Hrun. injection Hrun as <- <-.
    split; [discriminate|]. split; [discriminate|]. split; discriminate. }
  rewrite run_S in Hrun. case_Qle D offset HD.
  { injection Hrun as <- <-.
    split; [discriminate|]. split; [discriminate|]. split; [discriminate|].
    intros _. split; [|discriminate]. intros t [? ?]. lra. }
  destruct (Scheduler.run load_audio D C O n (fadd offset step)) as [cs0 fin0] eqn:E.
  injection Hrun as <- <-.
  pose proof step_pos as Sp.
  assert (H0 : 0 <= offset) by (destruct Hoff; lra).
  pose proof (next_ge offset Hd) as Hnext.
  destruct (IH _ _ _ (is_double_fadd offset step)
              (or_intror (next_ge_step offset H0)) E)
    as (Hhead & Hidx & Hstep & Hfin).
  split; [|split; [|split]].
  - intros c Hc. cbn in Hc. now injection Hc as <-.
  - intros [|i] c Hi; cbn in Hi.
    + injection Hi as <-. cbn [global_start Scheduler.make_chunk].
      split; [apply Qle_refl|]. split; [exact HD|]. split; [exact Hd | reflexivity].
    + destruct (Hidx i c Hi) as (H1 & H2 & H3 & H4).
      split; [lra|]. split; [exact H2|]. split; [exact H3 | exact H4].
  - intros [|i] c c' Hi Hj; cbn in Hi, Hj.
    + injection Hi as <-. pose proof (Hhead c' Hj) as Hs.
      destruct (Hidx 0%nat c' Hj) as (_ & H2 & _).
      cbn [global_start Scheduler.make_chunk].
      split; [exact Hs|]. rewrite Hs. split; [exact Hnext|].
      apply no_gap. now rewrite <- Hs.
    + apply (Hstep i); assumption.
  - intros ->. destruct (Hfin eq_refl) as [Hcov Hlast].
    assert (Hhere : D <= fadd offset step -> global_end (make_chunk offset) == D).
    { intros Hl. now apply last_end. }
    split.
    + intros t [Ht1 Ht2].
      destruct (Qlt_le_dec t (fadd offset step)) as [Hlt|Hge].
      * exists (make_chunk offset). split; [left|].
        split; [exact Ht1|].
        destruct (Qlt_le_dec (fadd offset step) D) as [Hin|Hout].
        -- pose proof (no_gap offset Hin). lra.
        -- rewrite (Hhere Hout). exact Ht2.
      * destruct (Hcov t (conj Hge Ht2)) as (c & Hc & Hc1 & Hc2).
        exists c. split; [now right | now split].
    + intros c Hl. destruct cs0 as [|c0 cs1].
      * cbn in Hl. injection Hl as <-.
        assert (HD' : D <= fadd offset step) by now apply (run_nil n).
        split; [now apply Hhere | exact HD'].
      * apply Hlast. exact Hl.
Qed.

(** When the step is not small against the duration, every addition
    advances the offset by at least a quarter of the step. *)
Lemma progress offset :
  D * pow2 (- 52) <= step -> 0 <= offset -> offset < D ->
  offset + step * (1 # 4) <= fadd offset step.
Proof.
  intros Hbig H0 Hlt. pose proof step_pos as Sp.
  assert (Hy : 0 < offset + step) by lra.
  unfold fadd. rewrite (round_double_pos _ Hy).
  pose proof (round_pos_error _ Hy) as Herr.
  apply Qabs_Qle_condition in Herr as [_ Herr].
  assert (P53 : pow2 (- 53) == 1 # 9007199254740992) by reflexivity.
  assert (P52 : pow2 (- 52) == 1 # 4503599627370496) by reflexivity.
  rewrite P53 in Herr. rewrite P52 in Hbig. lra.
Qed.

Lemma run_finishes fuel : forall offset,
  D * pow2 (- 52) <= step -> 0 <= offset ->
  D - offset <= inject_Z (Z.of_nat fuel) * (step * (1 # 4)) ->
  snd (run (S fuel) offset) = true.
Proof.
  induction fuel as [|n IH]; intros offset Hbig H0 Hb.
  - change (inject_Z (Z.of_nat 0)) with 0 in Hb.
    cbn [Scheduler.run]. case_Qle D offset H; [reflexivity|]. lra.
  - rewrite run_S. case_Qle D offset H; [reflexivity|].
    rewrite inject_nat_S in Hb.
    pose proof (progress offset Hbig H0 H) as Hp. pose proof step_pos as Sp.
    specialize (IH (fadd offset step) Hbig).
    destruct (Scheduler.run load_audio D C O (S n) (fadd offset step)) as [cs fin].
    cbn in IH |- *. apply IH; lra.
Qed.
End WellConfigured.

(** With [overlap >= chunk_duration] the offset never becomes positive. *)
Lemma next_nonpos offset : C <= O -> offset <= 0 -> fadd offset step <= 0.
Proof.
  intros HOC Hoff. apply round_double_nonpos.
  assert (X : step <= 0) by (apply round_double_nonpos; lra). lra.
Qed.
End Run.

(** C2 as stated fails on doubles: for the doubles nearest to [D = 5.2]
and [C = 2.1] and [O = 2] the start [52 * (C - O)] would be past [D], so
the listed starts end after 52 chunks; the generator, whose offset is a
sum of 52 rounded additions, yields a 53rd chunk, and its start is not
[52 * (C - O)]. *)
Lemma process_in_chunks_rounded_offsets :
let D := round_double 5.2 in
let C := round_double 2.1 in
let O := 2 in
(0 <= D /\ 0 < C /\ 0 <= O /\ O < C) /\
D <= 52 * (C - O) /\
exists chunks c,
process_in_chunks (fun duration offset => (offset, duration)) D C O 60
= Ok (chunks, true) /\
length chunks = 53%nat /\
chunks !! 52%nat = Some c /\
global_start c < D /\
~ global_start c == 52 * (C - O).
Proof.
vm_compute. split; [repeat split; discriminate|]. split; [discriminate|].
eexists _, _. split; [reflexivity|]. split; [reflexivity|].
split; [reflexivity|]. split; [reflexivity | discriminate].
Qed.

(** A chunk that is truncated but not the last one may end one rounding
error past [D]. *)
Lemma process_in_chunks_end_past_duration :
let D := 7909028061483011 # 1152921504606846976 in
let C := 6667984181540421 # 1152921504606846976 in
let O := 6789647667863887 # 2305843009213693952 in
(is_double D /\ is_double C /\ is_double O /\ 0 <= O /\ O < C) /\
exists c0 c1 c2,
process_in_chunks (fun duration offset => (offset, duration)) D C O 10
= Ok ([c0; c1; c2], true) /\
D < global_end c1 /\ global_end c2 == D.
Proof.
vm_compute. split; [repeat split; first [reflexivity | discriminate]|].
eexists _, _, _. split; [reflexivity|]. split; reflexivity.
Qed.

(** A step that rounding absorbs: on a recording of [2^54] seconds cut
into chunks of one second the offset stops at [2^53], and the generator,
though well configured, yields a chunk at every call. *)
Lemma process_in_chunks_absorbed_step (fuel : nat) :
exists chunks,
process_in_chunks (fun duration offset : Q => (offset, duration))
                  (inject_Z (2 ^ 54)) 1 0 fuel
= Ok (chunks, false) /\
length chunks = fuel.
Proof.
unfold process_in_chunks. rewrite gen_take_run by discriminate. cbn [next_offset].
assert (H : forall n offset, offset <= inject_Z (2 ^ 53) ->
exists chunks,
run (fun duration offset : Q => (offset, duration)) (inject_Z (2 ^ 54)) 1 0 n offset
= (chunks, false) /\ length chunks = n).
{ induction n as [|n IH]; intros offset Ho; [now exists []|].
rewrite run_S.
assert (L : inject_Z (2 ^ 53) < inject_Z (2 ^ 54)) by reflexivity.
rewrite (proj2 (Qle_bool_false _ offset)) by lra.
destruct (IH (fadd offset (fsub 1 0))) as (cs & -> & Hl).
- change (fsub 1 0) with 1.
  apply Qle_trans with (round_double (inject_Z (2 ^ 53) + 1)); [|discriminate].
  apply round_double_le. lra.
- eexists. split; [reflexivity|]. cbn. now rewrite Hl. }
destruct (H fuel 0) as (cs & -> & Hl); [discriminate|]. eauto.
Qed.

(** C2, amended. For doubles [D >= 0] and [C > 0] and [0 <= O < C], whatever
the number of calls: the first chunk starts at [0]; every chunk starts
before [D] and spans [start, start + min(C, D - start)], the duration
being positive; a chunk and its successor satisfy
[start' = start + (C - O)] in double arithmetic, the successor starting
not before the chunk and not after its end. Once the generator has
signalled its end, every time of [[0, D)] lies in a chunk, the last chunk
ends at [D] exactly and the start after it would be [>= D]. The
generator does signal its end, within [4 D / (C - O) + 1] calls, when the
step is at least [2^-52 D]. For [D = 125], [C = 60], [O = 2] the chunks
are [[0,60)], [[58,118)], [[116,125)]. *)
Theorem process_in_chunks_coverage {A : Type} (load_audio : Q -> Q -> A)
(D C O : Q) (HD : 0 <= D) (HC : 0 < C) (HO : 0 <= O) (HOC : O < C)
(dD : is_double D) (dC : is_double C) :
(forall fuel, exists chunks fin,
process_in_chunks load_audio D C O fuel = Ok (chunks, fin) /\
(forall c, chunks !! 0%nat = Some c -> global_start c = 0) /\
(forall (i : nat) c, chunks !! i = Some c ->
0 <= global_start c /\ global_start c < D /\
c = make_chunk load_audio D C (global_start c) /\
0 < py_min C (fsub D (global_start c))) /\
(forall (i : nat) c c', chunks !! i = Some c -> chunks !! S i = Some c' ->
global_start c' = fadd (global_start c) (fsub C O) /\
global_start c <= global_start c' /\
global_start c' <= global_end c) /\
(fin = true ->
(forall t, 0 <= t /\ t < D ->
exists c, c ∈ chunks /\ global_start c <= t /\ t < global_end c) /\
(forall c, last chunks = Some c ->
global_end c == D /\ D <= fadd (global_start c) (fsub C O)))) /\
(D * pow2 (- 52) <= fsub C O ->
exists chunks,
process_in_chunks load_audio D C O
  (S (Z.to_nat (Qceiling (4 * D / fsub C O)))) = Ok (chunks, true) /\
forall fuel, (length chunks < fuel)%nat ->
process_in_chunks load_audio D C O fuel = Ok (chunks, true)) /\
process_in_chunks load_audio 125 60 2 4 =
Ok ([mk_chunk (load_audio 60 0) 0 60;
mk_chunk (load_audio 60 58) 58 118;
mk_chunk (load_audio 9 116) 116 125], true).
Proof.
split; [|split; [|reflexivity]].
- intros fuel. unfold process_in_chunks.
rewrite gen_take_run by discriminate. cbn [next_offset].
destruct (run load_audio D C O fuel 0) as [chunks fin] eqn:E.
exists chunks, fin. split; [reflexivity|].
destruct (run_chunks load_audio D C O HO HOC dD dC fuel 0 chunks fin
          is_double_0 (or_introl (Qeq_refl 0)) E)
as (Hhead & Hidx & Hstep & Hfin).
split; [exact Hhead|]. split; [|split; [exact Hstep | exact Hfin]].
intros i c Hi. destruct (Hidx i c Hi) as (H1 & H2 & _ & H4).
split; [exact H1|]. split; [exact H2|]. split; [exact H4|].
exact (proj1 (duration_bounds D C (global_start c) HC H2)).
- intros Hbig. unfold process_in_chunks.
pose proof (step_pos C O HOC) as Sp.
set (fuel := Z.to_nat (Qceiling (4 * D / fsub C O))).
assert (Hfuel : D <= inject_Z (Z.of_nat fuel) * (fsub C O * (1 # 4))).
{ unfold fuel.
assert (Hq : 0 <= 4 * D / fsub C O) by (apply Qle_shift_div_l; lra).
assert (Hz : (0 <= Qceiling (4 * D / fsub C O))%Z).
{ change 0%Z with (Qceiling 0). now apply Qceiling_resp_le. }
rewrite Z2Nat.id by exact Hz.
pose proof (Qle_ceiling (4 * D / fsub C O)) as Hc.
assert (Hd : D == 4 * D / fsub C O * (fsub C O * (1 # 4))) by (field; lra).
rewrite Hd at 1. apply Qmult_le_compat_r; [exact Hc | lra]. }
assert (Hfin : snd (run load_audio D C O (S fuel) 0) = true).
{ apply run_finishes; try assumption; lra. }
destruct (run load_audio D C O (S fuel) 0) as [chunks fin] eqn:E.
cbn in Hfin. subst fin. exists chunks.
split.
+ rewrite gen_take_run by discriminate. cbn [next_offset]. now rewrite E.
+ intros fuel' Hlen. rewrite gen_take_run by discriminate. cbn [next_offset].
  f_equal. eapply run_more_fuel; [exact E | exact Hlen].
Qed.

Lemma process_in_chunks_coverage_witness :
0 <= 125 /\ 0 < 60 /\ 0 <= 2 /\ 2 < 60 /\
is_double 125 /\ is_double 60 /\
125 * pow2 (- 52) <= fsub 60 2 /\
exists chunks,
process_in_chunks (fun duration offset => (offset, duration)) 125 60 2
(S (Z.to_nat (Qceiling (4 * 125 / fsub 60 2)))) = Ok (chunks, true) /\
forall fuel, (length chunks < fuel)%nat ->
process_in_chunks (fun duration offset => (offset, duration)) 125 60 2 fuel
= Ok (chunks, true).
Proof.
split; [discriminate|]. split; [reflexivity|].
split; [discriminate|]. split; [reflexivity|].
split; [reflexivity|]. split; [reflexivity|].
assert (Hbig : 125 * pow2 (- 52) <= fsub 60 2) by discriminate.
split; [exact Hbig|].
exact (proj1 (proj2 (process_in_chunks_coverage
       (fun duration offset => (offset, duration)) 125 60 2
       ltac:(discriminate) ltac:(reflexivity)
       ltac:(discriminate) ltac:(reflexivity)
       ltac:(reflexivity) ltac:(reflexivity))) Hbig).
Defined.

(** C3 as stated fails: with [chunk_duration = overlap = 2] (the command
line's [--chunk-size 2]) on a recording of 125 seconds the first call
of the generator yields the chunk [[0, 2)]; nothing is raised. *)
Lemma process_in_chunks_bad_config_accepted :
(2 <= 0 \/ 2 <= 2) /\
fst (gen_next (fun duration offset => (offset, duration)) 125 2 2 GenCreated)
= Ok (Some (mk_chunk (0, 2) 0 2)) /\
~ raises (fst (gen_next (fun duration offset => (offset, duration))
       125 2 2 GenCreated)).
Proof.
split; [right; discriminate|]. split; [reflexivity|]. apply raises_Ok.
Qed.

(** C3, amended. For [chunk_duration <= 0] or [overlap >= chunk_duration]
the scheduler checks nothing: no call of the generator raises, and on a
recording of positive duration the first call yields the chunk that
starts at [0] and lasts [min(chunk_duration, total_duration)] (the two
being doubles). *)
Theorem process_in_chunks_no_validation {A : Type} (load_audio : Q -> Q -> A)
(D C O : Q) (Hbad : C <= 0 \/ C <= O) :
(forall st, ~ raises (fst (gen_next load_audio D C O st))) /\
(0 < D ->
exists c,
gen_next load_audio D C O GenCreated = (Ok (Some c), GenSuspended 0) /\
global_start c = 0 /\
(is_double D -> is_double C ->
 global_end c - global_start c == Qmin C D)).
Proof.
split; [apply gen_next_never_raises|].
intros HD. exists (make_chunk load_audio D C 0).
cbn [gen_next]. unfold while_head.
rewrite (proj2 (Qle_bool_false D 0) HD). cbn [negb].
split; [reflexivity|]. split; [reflexivity|]. intros dD dC.
cbn [global_start global_end make_chunk].
assert (E : fsub D 0 == D) by now apply fsub_0_r.
assert (Em : py_min C (fsub D 0) == Qmin C D).
{ rewrite <- py_min_Qmin. unfold py_min.
  case_Qle C (fsub D 0) H1; case_Qle C D H2; lra. }
assert (dm : is_double (py_min C (fsub D 0))).
{ unfold py_min. destruct (Qle_bool C (fsub D 0)); [exact dC | apply is_double_fsub]. }
rewrite (fadd_0_l _ dm), Em. ring.
Qed.

Lemma process_in_chunks_no_validation_witness :
(-(1) <= 0 \/ -(1) <= -(5)) /\
exists c,
gen_next (fun duration offset => (offset, duration)) 10 (-(1)) (-(5)) GenCreated
= (Ok (Some c), GenSuspended 0) /\
global_start c = 0 /\
global_end c - global_start c == Qmin (-(1)) 10.
Proof.
split; [left; discriminate|].
destruct (proj2 (process_in_chunks_no_validation
      (fun duration offset => (offset, duration)) 10 (-(1)) (-(5))
      ltac:(left; discriminate)) ltac:(reflexivity)) as (c & Hc & Hs & Hd).
exists c. split; [exact Hc|]. split; [exact Hs|].
apply Hd; reflexivity.
Defined.

(** With [overlap >= chunk_duration] on a recording of positive duration
the offset never advances past the start, and the generator yields a
chunk at every call. *)
Lemma process_in_chunks_endless {A : Type} (load_audio : Q -> Q -> A)
(D C O : Q) (HD : 0 < D) (HOC : C <= O) (fuel : nat) :
exists chunks,
gen_take load_audio D C O fuel GenCreated = Ok (chunks, false) /\
length chunks = fuel.
Proof.
rewrite gen_take_run by discriminate. cbn [next_offset].
assert (H : forall n offset, offset <= 0 ->
exists chunks, run load_audio D C O n offset = (chunks, false) /\
               length chunks = n).
{ induction n as [|n IH]; intros offset Ho; [now exists []|].
rewrite run_S. rewrite (proj2 (Qle_bool_false D offset)) by lra.
destruct (IH (fadd offset (fsub C O))) as (cs & -> & Hl);
  [now apply next_nonpos|].
eexists. split; [reflexivity|]. cbn. now rewrite Hl. }
destruct (H fuel 0) as (cs & -> & Hl); [lra|]. eauto.
Qed.

End SchedulerFacts.

(** ** The event extractor *)

Module ExtractorFacts.
Import Extractor ExtractorSpec ExtractorProps.

Section Facts.
Context {W : Type} (self : detector W).

Lemma getitem_lt {A} (l : list A) (i : nat) :
(i < length l)%nat -> exists x, l !! i = Some x /\ getitem l i = Ok x.
Proof.
intros H. destruct (lookup_lt_is_Some_2 l i H) as [x Hx].
exists x. unfold getitem. now rewrite Hx.
Qed.

Lemma best_loop_inv frame idxs : forall done st,
Forall (fun idx => idx < length (class_names self))%nat idxs ->
Forall (fun idx => idx < length frame)%nat idxs ->
best_inv self frame done st ->
exists st', best_loop self frame st idxs = Ok st' /\
  best_inv self frame (done ++ idxs) st'.
Proof.
induction idxs as [|k rest IH]; intros done st Hn Hf Hinv.
- exists st. rewrite app_nil_r. now split.
- apply Forall_cons_1 in Hn as [Hkn Hn], Hf as [Hkf Hf].
destruct (getitem_lt frame k Hkf) as (s & Hs & Hgs).
destruct (getitem_lt (class_names self) k Hkn) as (n & Hnm & Hgn).
destruct st as [[m name] idx]. destruct Hinv as [Hmax Hst].
assert (Hm0 : 0 <= m).
{ destruct Hst as [(-> & _)|(Hpos & _)]; lra. }
cbn [best_loop]. unfold best_step. rewrite Hgs. cbn [bind].
replace (done ++ k :: rest) with ((done ++ [k]) ++ rest)
by now rewrite <- app_assoc.
case_Qle s m Hsm; cbn [negb].
+ apply IH; [exact Hn | exact Hf |]. split.
* intros k' s' Hk' Hs'. apply elem_of_app in Hk' as [Hk'|Hk'].
-- now apply (Hmax k').
-- apply list_elem_of_singleton in Hk'. subst k'.
rewrite Hs in Hs'. now injection Hs' as <-.
* destruct Hst as [Hst|(Hpos & k0 & n0 & Hk0 & Hrest)]; [now left|].
right. split; [exact Hpos|]. exists k0, n0.
split; [apply elem_of_app; now left | exact Hrest].
+ rewrite Hgn. cbn [bind].
apply IH; [exact Hn | exact Hf |]. split.
* intros k' s' Hk' Hs'. apply elem_of_app in Hk' as [Hk'|Hk'].
-- specialize (Hmax k' s' Hk' Hs'). lra.
-- apply list_elem_of_singleton in Hk'. subst k'.
rewrite Hs in Hs'. injection Hs' as <-. apply Qle_refl.
* right. split; [lra|]. exists k, n.
split; [apply elem_of_app; right; now apply list_elem_of_singleton|].
now repeat split.
Qed.

Lemma frame_body_spec (i : nat) frame detections :
0 < confidence_threshold self ->
Forall (fun idx => idx < length (class_names self))%nat (dog_class_indices self) ->
Forall (fun idx => idx < length frame)%nat (dog_class_indices self) ->
exists oe,
frame_body self i frame detections = Ok (detections ++ omap id [oe]) /\
frame_event self i frame oe.
Proof.
intros Hthr Hn Hf.
destruct (best_loop_inv frame (dog_class_indices self) [] (0, None, None) Hn Hf)
as ([[m name] idx] & Hloop & Hmax & Hst).
{ split; [intros k s Hk; inversion Hk | now left]. }
cbn [app] in Hmax, Hst.
unfold frame_body. rewrite Hloop. cbn [bind].
case_Qle (confidence_threshold self) m Hm.
- eexists (Some _). split; [reflexivity|].
destruct Hst as [(-> & _)|(Hpos & k & n & Hk & Hs & Hnm & -> & ->)]; [lra|].
cbn [frame_event confidence class_index class_name start_time end_time].
split; [|split; [exact Hm|split; [|split; reflexivity]]].
+ split; [exists k; now split|]. intros k' s' [Hk' Hs']. now apply (Hmax k').
+ exists k, n. repeat split; assumption.
- exists None. split; [cbn; now rewrite app_nil_r|].
intros m' [(k & Hk & Hs) _]. specialize (Hmax k m' Hk Hs). lra.
Qed.

Lemma frame_loop_spec frames : forall (i : nat) detections,
0 < confidence_threshold self ->
well_indexed self frames ->
exists per_frame : list (option event),
length per_frame = length frames /\
frame_loop self i frames detections = Ok (detections ++ omap id per_frame) /\
forall (j : nat) frame oe,
frames !! j = Some frame -> per_frame !! j = Some oe ->
frame_event self (i + j) frame oe.
Proof.
induction frames as [|frame rest IH]; intros i detections Hthr [Hn Hf].
- exists []. split; [reflexivity|]. split; [cbn; now rewrite app_nil_r|].
intros j frame oe H. discriminate.
- apply Forall_cons_1 in Hf as [Hf Hrest].
destruct (frame_body_spec i frame detections Hthr Hn Hf) as (oe & Hbody & Hoe).
cbn [frame_loop]. rewrite Hbody. cbn [bind].
destruct (IH (S i) (detections ++ omap id [oe]) Hthr (conj Hn Hrest))
as (per & Hlen & Hloop & Hper).
exists (oe :: per). split; [cbn; now rewrite Hlen|].
split.
+ rewrite Hloop, <- app_assoc. f_equal.
destruct oe; reflexivity.
+ intros [|j] frame' oe' Hj Hj'; cbn in Hj, Hj'.
* injection Hj as <-. injection Hj' as <-. now rewrite Nat.add_0_r.
* replace (i + S j)%nat with (S i + j)%nat by lia. now apply Hper.
Qed.

(** Scores that are not above zero never replace the initial maximum. *)
Lemma best_loop_sentinel frame idxs :
Forall (fun idx => exists s, frame !! idx = Some s /\ s <= 0) idxs ->
best_loop self frame (0, None, None) idxs = Ok (0, None, None).
Proof.
induction 1 as [|k rest (s & Hs & Hle) Hrest IH]; [reflexivity|].
cbn [best_loop]. unfold best_step, getitem. rewrite Hs. cbn [bind].
rewrite (proj2 (Qle_bool_true s 0) Hle). cbn [negb bind]. exact IH.
Qed.

Lemma frame_body_unlabelled (i : nat) frame detections :
confidence_threshold self <= 0 -> no_positive_target self frame ->
frame_body self i frame detections = Ok (detections ++ [unlabelled i]).
Proof.
intros Hthr Hf. unfold frame_body.
rewrite (best_loop_sentinel frame _ Hf). cbn [bind].
now rewrite (proj2 (Qle_bool_true _ 0) Hthr).
Qed.

Lemma frame_loop_unlabelled frames : forall (i : nat) detections,
confidence_threshold self <= 0 ->
Forall (no_positive_target self) frames ->
frame_loop self i frames detections
= Ok (detections ++ imap (fun j _ => unlabelled (i + j)) frames).
Proof.
induction frames as [|frame rest IH]; intros i detections Hthr Hf.
- cbn. now rewrite app_nil_r.
- apply Forall_cons_1 in Hf as [Hf Hrest].
cbn [frame_loop]. rewrite (frame_body_unlabelled i frame detections Hthr Hf).
cbn [bind]. rewrite (IH (S i) _ Hthr Hrest), <- app_assoc. cbn [app].
rewrite imap_cons, Nat.add_0_r. do 3 f_equal.
apply imap_ext. intros j x _. cbn. f_equal. lia.
Qed.

(** Every event the contract allows carries a class index. *)
Lemma extractor_contract_labelled scores out :
extractor_contract self scores out ->
forall e, e ∈ out -> exists idx, class_index e = Some idx.
Proof.
intros (per & Hlen & -> & Hper) e He.
apply list_elem_of_omap in He as (oe & Hoe & Hid). cbn in Hid. subst oe.
apply list_elem_of_lookup in Hoe as [j Hj].
assert (Hlt : (j < length scores)%nat).
{ rewrite <- Hlen. eapply lookup_lt_Some. exact Hj. }
destruct (lookup_lt_is_Some_2 scores j Hlt) as [frame Hframe].
destruct (Hper j frame (Some e) Hframe Hj)
as (_ & _ & (idx & name & _ & _ & Hidx & _) & _).
now exists idx.
Qed.
End Facts.

(** C4. At a threshold that is not positive (zero, which [main] admits)
the extractor emits, for every frame in which no target class scores
above zero, an event that carries the initial values of the running
maximum: confidence [0] and neither a class name nor a class index. A
frame whose best target class scores [0] reaches the threshold [0], so
the claim asks for an event with the label and the index of that class;
the list returned therefore breaks the contract as soon as there is one
frame. *)
Theorem detect_in_waveform_unlabelled_events {W : Type} (self : detector W)
(waveform : W)
(Hthr : confidence_threshold self <= 0)
(Hscores : Forall (no_positive_target self) (model self waveform)) :
detect_in_waveform self waveform 16000
= Ok (imap (fun i _ => unlabelled i) (model self waveform)) /\
(model self waveform <> [] ->
~ exists out, detect_in_waveform self waveform 16000 = Ok out /\
  extractor_contract self (model self waveform) out).
Proof.
assert (E : detect_in_waveform self waveform 16000
          = Ok (imap (fun i _ => unlabelled i) (model self waveform))).
{ unfold detect_in_waveform. cbn [Z.eqb Pos.eqb negb].
rewrite (frame_loop_unlabelled self _ 0 [] Hthr Hscores). reflexivity. }
split; [exact E|].
intros Hne (out & Hout & Hc). rewrite E in Hout. injection Hout as <-.
destruct (model self waveform) as [|frame rest] eqn:Em; [contradiction|].
destruct (extractor_contract_labelled self _ _ Hc (unlabelled 0)) as [idx Hidx].
- rewrite imap_cons. left.
- discriminate.
Qed.

Lemma detect_in_waveform_unlabelled_events_witness :
let self := mk_detector 0 (fun _ : unit => [[0.2; 0]])
  ["Speech"; "Bark"]%string [1%nat] in
confidence_threshold self <= 0 /\
Forall (no_positive_target self) (model self tt) /\
detect_in_waveform self tt 16000 = Ok [unlabelled 0].
Proof.
intros self.
assert (Hthr : confidence_threshold self <= 0) by discriminate.
assert (Hs : Forall (no_positive_target self) (model self tt)).
{ repeat constructor. exists 0. split; [reflexivity | discriminate]. }
split; [exact Hthr|]. split; [exact Hs|].
exact (proj1 (detect_in_waveform_unlabelled_events self tt Hthr Hs)).
Defined.

(** The failing input evaluated: at threshold [0] a frame whose only
target class scores [0] reaches the threshold, and the event emitted for
it carries no class at all. *)
Lemma detect_in_waveform_zero_threshold :
let self := mk_detector 0 (fun _ : unit => [[0.2; 0]])
  ["Speech"; "Bark"]%string [1%nat] in
well_indexed self (model self tt) /\
detect_in_waveform self tt 16000
= Ok [mk_event (0 * hop_duration) (0 * hop_duration + frame_duration) 0 None None] /\
~ exists out, detect_in_waveform self tt 16000 = Ok out /\
  extractor_contract self (model self tt) out.
Proof.
cbn zeta. split; [|split; [reflexivity|]].
- split; repeat constructor.
- intros (out & Hout & per & Hlen & -> & Hper). cbn in Hout, Hlen, Hper.
injection Hout as Hout.
destruct per as [|oe [|oe' per']]; try discriminate.
specialize (Hper 0%nat _ oe eq_refl eq_refl).
destruct oe as [e|]; [|discriminate]. cbn in Hout. injection Hout as <-.
destruct Hper as (_ & _ & (idx & name & _ & _ & Hidx & _) & _).
discriminate.
Qed.

(** For a confidence threshold [> 0] and target indices that are columns
of every frame and have names, the extractor returns, in
frame order, exactly one event for each frame whose maximum score over
the target classes is [>=] the threshold and none for any other frame;
the event has the score, index and name of a target class attaining
that maximum, starts at [i * hop_duration] and ends [frame_duration]
later. *)
Theorem detect_in_waveform_contract {W : Type} (self : detector W) (waveform : W)
(Hthr : 0 < confidence_threshold self)
(Hidx : well_indexed self (model self waveform)) :
exists out,
detect_in_waveform self waveform 16000 = Ok out /\
extractor_contract self (model self waveform) out.
Proof.
destruct (frame_loop_spec self (model self waveform) 0 [] Hthr Hidx)
as (per & Hlen & Hloop & Hper).
exists (omap id per). split; [exact Hloop|].
exists per. split; [exact Hlen|]. split; [reflexivity | exact Hper].
Qed.

Lemma detect_in_waveform_contract_witness :
let self := mk_detector 0.3
  (fun _ : unit => [[0.1; 0.5; 0.4]; [0.1; 0.2; 0.1]; [0.9; 0.3; 0.8]])
  ["Speech"; "Bark"; "Dog"]%string [1%nat; 2%nat] in
0 < confidence_threshold self /\
well_indexed self (model self tt) /\
exists out,
detect_in_waveform self tt 16000 = Ok out /\
extractor_contract self (model self tt) out.
Proof.
cbn zeta. split; [reflexivity|].
assert (Hw : well_indexed
   (mk_detector 0.3
      (fun _ : unit => [[0.1; 0.5; 0.4]; [0.1; 0.2; 0.1]; [0.9; 0.3; 0.8]])
      ["Speech"; "Bark"; "Dog"]%string [1%nat; 2%nat])
   [[0.1; 0.5; 0.4]; [0.1; 0.2; 0.1]; [0.9; 0.3; 0.8]]).
{ split; repeat constructor. }
split; [exact Hw|].
apply detect_in_waveform_contract; [reflexivity | exact Hw].
Defined.

End ExtractorFacts.

(** ** The summary reducer *)

Module SummaryFacts.
Import Float64 Summary.

(** C5. On the empty list [get_detection_summary] returns normally, without
a division, and five of the six fields are present and zero; the sixth,
[avg_duration], which the branch for a non-empty list does return, is
missing from the dictionary. *)
Theorem get_detection_summary_empty (np_mean : list Q -> Q) :
(exists summary,
get_detection_summary np_mean [] = Ok summary /\
summary !! "total_events"%string = Some (VInt 0) /\
summary !! "total_duration"%string = Some (VFloat 0) /\
summary !! "avg_confidence"%string = Some (VFloat 0) /\
summary !! "max_confidence"%string = Some (VFloat 0) /\
summary !! "min_confidence"%string = Some (VFloat 0) /\
summary !! "avg_duration"%string = None) /\
(forall d rest, exists summary,
get_detection_summary np_mean (d :: rest) = Ok summary /\
summary !! "avg_duration"%string
= Some (VFloat (np_mean (map (fun d => fsub (end_time d) (start_time d))
                             (d :: rest))))).
Proof.
split.
- eexists. split; [reflexivity|]. repeat split; reflexivity.
- intros d rest. eexists. split; [reflexivity|].
rewrite lookup_insert_ne by discriminate.
rewrite lookup_insert_ne by discriminate.
now rewrite lookup_insert_eq.
Qed.

End SummaryFacts.

(** ** The driver loop *)

Module DriverFacts.
Import Scheduler Extractor Driver.

Lemma lookup_concat {A} (ls : list (list A)) : forall (k j : nat) l x,
ls !! k = Some l -> l !! j = Some x ->
concat ls !! (length (concat (take k ls)) + j)%nat = Some x.
Proof.
induction ls as [|l0 r IH]; intros k j l x Hk Hj; [discriminate|].
destruct k as [|k]; cbn in Hk |- *.
- injection Hk as ->. now apply lookup_app_l_Some.
- rewrite length_app, <- Nat.add_assoc, lookup_app_r by lia.
replace (length l0 + (length (concat (take k r)) + j) - length l0)%nat
with (length (concat (take k r)) + j)%nat by lia.
now apply (IH k j l).
Qed.

Section Loop.
Context {W : Type} (load_audio : Q -> Q -> W) (D : Q).
Context (detector0 : detector W) (chunk_size : Q).

Lemma chunk_loop_spec fuel : forall gen chunks dets all_detections,
gen_take load_audio D chunk_size 2 fuel gen = Ok (chunks, true) ->
Forall2 (fun c ds => detect_in_waveform detector0 (audio_chunk c) 16000 = Ok ds)
chunks dets ->
chunk_loop load_audio D detector0 chunk_size fuel gen all_detections
= Some (Ok (all_detections ++ concat (globalised chunks dets))).
Proof.
induction fuel as [|n IH]; intros gen chunks dets acc Hgen Hdet; [discriminate|].
cbn [gen_take chunk_loop] in Hgen |- *.
destruct (gen_next load_audio D chunk_size 2 gen) as [[[c|]|e] gen'];
[| |discriminate].
- destruct (gen_take load_audio D chunk_size 2 n gen') as [[cs fin]|e] eqn:E;
[|discriminate].
injection Hgen as <- ->.
inversion Hdet as [|? ds ? dss Hc Hrest]; subst.
rewrite Hc. rewrite (IH _ _ _ _ E Hrest).
cbn [globalised zip_with concat]. now rewrite app_assoc.
- injection Hgen as <-. inversion Hdet; subst.
cbn. now rewrite app_nil_r.
Qed.
End Loop.

(** C9. When the generator yields the chunks [chunks] and the extractor
returns for the chunk of index [k] the events [ds], the accumulated
list is the concatenation, in chunk order, of those events with the
chunk's [global_start] added once to [start_time] and to [end_time] and
nothing else changed: the event of index [j] of chunk [k] sits after the
events of the earlier chunks; without merging that list is what
[process_audio_file] returns. *)
Theorem process_audio_file_global_timestamps {W : Type}
(load_audio : Q -> Q -> W) (D : Q) (detector0 : detector W) (chunk_size : Q)
(fuel : nat) (chunks : list (chunk W)) (dets : list (list event))
(Hgen : gen_take load_audio D chunk_size 2 fuel GenCreated = Ok (chunks, true))
(Hdet : Forall2 (fun c ds =>
     detect_in_waveform detector0 (audio_chunk c) 16000 = Ok ds)
  chunks dets) :
exists all_detections,
chunk_loop load_audio D detector0 chunk_size fuel GenCreated []
= Some (Ok all_detections) /\
(forall merge_gap,
process_audio_file load_audio D detector0 chunk_size fuel merge_gap true
= Some (Ok all_detections)) /\
forall (k j : nat) c ds e,
chunks !! k = Some c -> dets !! k = Some ds -> ds !! j = Some e ->
exists e',
all_detections
!! (length (concat (take k (globalised chunks dets))) + j)%nat = Some e' /\
start_time e' = start_time e + global_start c /\
end_time e' = end_time e + global_start c /\
start_time e' == global_start c + start_time e /\
end_time e' == global_start c + end_time e /\
confidence e' = confidence e /\
class_name e' = class_name e /\
class_index e' = class_index e.
Proof.
pose proof (chunk_loop_spec load_audio D detector0 chunk_size fuel
GenCreated chunks dets [] Hgen Hdet) as Hloop.
cbn [app] in Hloop.
exists (concat (globalised chunks dets)).
split; [exact Hloop|]. split.
- intros merge_gap. unfold process_audio_file. now rewrite Hloop.
- intros k j c ds e Hk Hds He.
exists (adjust_timestamps (global_start c) e).
split.
+ apply (lookup_concat _ k j (map (adjust_timestamps (global_start c)) ds)).
* unfold globalised. rewrite lookup_zip_with, Hk. cbn. now rewrite Hds.
* now rewrite list_lookup_fmap, He.
+ cbn. repeat split; try reflexivity; ring.
Qed.

Lemma process_audio_file_global_timestamps_witness :
let load_audio := fun duration offset : Q => (offset, duration) in
let detector0 := mk_detector 0.3 (fun _ : Q * Q => [[0.1; 0.9]])
     ["Speech"; "Bark"]%string [1%nat] in
let e := mk_event (0 * hop_duration) (0 * hop_duration + frame_duration) 0.9
(Some "Bark"%string) (Some 1%nat) in
let chunks := [mk_chunk (0, 60) 0 60; mk_chunk (58, 42) 58 100] in
gen_take load_audio 100 60 2 3 GenCreated = Ok (chunks, true) /\
Forall2 (fun c ds => detect_in_waveform detector0 (audio_chunk c) 16000 = Ok ds)
chunks [[e]; [e]] /\
exists all_detections,
chunk_loop load_audio 100 detector0 60 3 GenCreated [] = Some (Ok all_detections) /\
exists e', all_detections !! 1%nat = Some e' /\
start_time e' = start_time e + 58 /\
end_time e' = end_time e + 58.
Proof.
cbn zeta.
assert (Hgen : gen_take (fun duration offset : Q => (offset, duration))
   100 60 2 3 GenCreated
 = Ok ([mk_chunk (0, 60) 0 60; mk_chunk (58, 42) 58 100], true))
by reflexivity.
assert (Hdet : Forall2
(fun c ds =>
detect_in_waveform
 (mk_detector 0.3 (fun _ : Q * Q => [[0.1; 0.9]])
    ["Speech"; "Bark"]%string [1%nat])
 (audio_chunk c) 16000 = Ok ds)
[mk_chunk (0, 60) 0 60; mk_chunk (58, 42) 58 100]
[[mk_event (0 * hop_duration) (0 * hop_duration + frame_duration) 0.9
(Some "Bark"%string) (Some 1%nat)];
[mk_event (0 * hop_duration) (0 * hop_duration + frame_duration) 0.9
(Some "Bark"%string) (Some 1%nat)]])
by (repeat constructor).
split; [exact Hgen|]. split; [exact Hdet|].
destruct (process_audio_file_global_timestamps _ _ _ _ _ _ _ Hgen Hdet)
as (all_detections & Hloop & _ & Hpos).
exists all_detections. split; [exact Hloop|].
destruct (Hpos 1%nat 0%nat _ _ _ eq_refl eq_refl eq_refl)
as (e' & He' & Hs & He & _).
exists e'. split; [exact He'|]. split; [exact Hs | exact He].
Defined.

End DriverFacts.

(** ** The merger on the heap *)

Module HeapFacts.
Import Merger Heap HeapSpec.

Lemma prefix_insert (h hc : heap) (i : nat) (o : obj) :
  h `prefix_of` hc -> (length h <= i)%nat -> h `prefix_of` <[i := o]> hc.
Proof.
  intros [k ->] Hi. rewrite insert_app_r_alt by exact Hi.
  now apply prefix_app_r.
Qed.

Lemma prefix_preserved (h hc : heap) : h `prefix_of` hc -> preserved h hc.
Proof. intros Hp l o Hl. eapply prefix_lookup_Some; eassumption. Qed.

Lemma denotes_insert hc ls es (i : nat) o :
  denotes hc ls es -> Forall (fun l => l <> i) ls -> denotes (<[i := o]> hc) ls es.
Proof.
  induction 1 as [|l e ls es Hl Hrest IH]; intros Hne; [constructor|].
  apply Forall_cons_1 in Hne as [Hli Hne].
  constructor; [|now apply IH].
  rewrite list_lookup_insert_ne by congruence. exact Hl.
Qed.

Lemma denotes_not_list hc ls es (m : loc) items :
  denotes hc ls es -> hc !! m = Some (OList items) -> Forall (fun l => l <> m) ls.
Proof.
  intros Hden Hm. induction Hden as [|l e ls es Hl Hrest IH]; [constructor|].
  constructor; [congruence | exact IH].
Qed.

Lemma denotes_app hc k ls es : denotes hc ls es -> denotes (hc ++ k) ls es.
Proof.
  induction 1 as [|l e ls es Hl Hrest IH]; constructor; [|exact IH].
  now apply lookup_app_l_Some.
Qed.

Lemma denotes_preserved h h' ls es :
  preserved h h' -> denotes h ls es -> denotes h' ls es.
Proof.
  intros Hp. induction 1 as [|l e ls es Hl Hrest IH]; constructor; [|exact IH].
  now apply Hp.
Qed.

Lemma read_dict_Some h l d : h !! l = Some (ODict d) -> read_dict l h = Ok d.
Proof. intros H. unfold read_dict. now rewrite H. Qed.

Lemma read_list_Some h l items :
  h !! l = Some (OList items) -> read_list l h = Ok items.
Proof. intros H. unfold read_list. now rewrite H. Qed.

Lemma read_dicts_denotes h ls es : denotes h ls es -> read_dicts ls h = Ok es.
Proof.
  induction 1 as [|l e ls es Hl Hrest IH]; [reflexivity|].
  cbn [read_dicts]. now rewrite (read_dict_Some _ _ _ Hl), IH.
Qed.

Lemma denotes_pairs h ls es :
  denotes h ls es ->
  exists pairs : list (loc * event),
    ls = map fst pairs /\ es = map snd pairs /\
    Forall (fun p => h !! fst p = Some (ODict (snd p))) pairs.
Proof.
  induction 1 as [|l e ls es Hl Hrest (pairs & -> & -> & Hp)].
  - now exists [].
  - exists ((l, e) :: pairs). repeat split. now constructor.
Qed.

Lemma pairs_denotes h (pairs : list (loc * event)) :
  Forall (fun p => h !! fst p = Some (ODict (snd p))) pairs ->
  denotes h (map fst pairs) (map snd pairs).
Proof. induction 1; constructor; assumption. Qed.

Lemma read_keys_pairs h (pairs : list (loc * event)) :
  Forall (fun p => h !! fst p = Some (ODict (snd p))) pairs ->
  read_keys (map fst pairs) h
  = Ok (map (fun p => (start_time (snd p), fst p)) pairs).
Proof.
  induction 1 as [|p pairs Hp Hrest IH]; [reflexivity|].
  cbn [map read_keys]. now rewrite (read_dict_Some _ _ _ Hp), IH.
Qed.

(** One iteration on the heap does what [merge_step] does on values, and
    writes only to objects allocated by the call. *)
Lemma merge_step_heap_spec g h merged current hc mlocs mp cp (dl : loc) d :
  h !! dl = Some (ODict d) ->
  loop_inv h merged current hc mlocs mp cp ->
  exists current' hc' mlocs',
    merge_step_heap g merged (current, hc) dl = Ok (current', hc') /\
    loop_inv h merged current' hc' mlocs'
             (fst (merge_step g (mp, cp) d)) (snd (merge_step g (mp, cp) d)).
Proof.
  intros Hd (Hpre & Hm & Hmc & Hcl & Hml & Hc & Hden & Hfresh).
  pose proof (lookup_lt_Some _ _ _ Hd) as Hdl.
  pose proof (prefix_lookup_Some _ _ _ _ Hd Hpre) as Hd'.
  unfold merge_step_heap, merge_step.
  rewrite (read_dict_Some _ _ _ Hd'), (read_dict_Some _ _ _ Hc). cbn [bind].
  destruct (Qle_bool (start_time d - end_time cp) g).
  - set (c1 := set_end_time cp (py_max (end_time cp) (end_time d))).
    assert (H1 : <[current := ODict c1]> hc !! current = Some (ODict c1))
      by now apply list_lookup_insert_eq.
    assert (H2 : <[current := ODict c1]> hc !! dl = Some (ODict d)).
    { rewrite list_lookup_insert_ne by lia. exact Hd'. }
    rewrite (read_dict_Some _ _ _ H1), (read_dict_Some _ _ _ H2). cbn [bind].
    eexists _, _, mlocs. split; [reflexivity|]. cbn [fst snd].
    assert (Hne : Forall (fun l => l <> current) mlocs).
    { eapply Forall_impl; [exact Hfresh|]. cbn. intros l Hl. lia. }
    split; [|split; [exact Hm|split; [exact Hmc|split; [|split; [|split; [|split]]]]]].
    + apply prefix_insert; [|lia]. apply prefix_insert; [exact Hpre | lia].
    + now rewrite !length_insert.
    + rewrite !list_lookup_insert_ne by lia. exact Hml.
    + apply list_lookup_insert_eq. now rewrite length_insert.
    + apply denotes_insert; [|exact Hne]. now apply denotes_insert.
    + exact Hfresh.
  - unfold list_append. rewrite (read_list_Some _ _ _ Hml). cbn [bind].
    set (hc1 := <[merged := OList (mlocs ++ [current])]> hc).
    assert (H2 : hc1 !! dl = Some (ODict d)).
    { unfold hc1. rewrite list_lookup_insert_ne by lia. exact Hd'. }
    rewrite (read_dict_Some _ _ _ H2). cbn [bind]. unfold alloc.
    assert (Hlen : length hc1 = length hc) by apply length_insert.
    eexists _, _, (mlocs ++ [current]). split; [reflexivity|]. cbn [fst snd].
    assert (Hne : Forall (fun l => l <> merged) mlocs).
    { eapply denotes_not_list; eassumption. }
    split; [|split; [exact Hm|split; [lia|split; [|split; [|split; [|split]]]]]].
    + apply prefix_app_r. apply prefix_insert; [exact Hpre | exact Hm].
    + rewrite length_app. cbn. lia.
    + apply lookup_app_l_Some. apply list_lookup_insert_eq. lia.
    + now rewrite list_lookup_middle.
    + apply denotes_app. apply Forall2_app.
      * now apply denotes_insert.
      * constructor; [|constructor].
        unfold hc1. rewrite list_lookup_insert_ne by lia. exact Hc.
    + rewrite Hlen. apply Forall_app. split.
      * eapply Forall_impl; [exact Hfresh|]. cbn. intros l Hl. lia.
      * constructor; [lia | constructor].
Qed.

Lemma merge_loop_heap_spec g h merged (pairs : list (loc * event)) :
  forall current hc mlocs mp cp,
    Forall (fun p => h !! fst p = Some (ODict (snd p))) pairs ->
    loop_inv h merged current hc mlocs mp cp ->
    exists current' hc' mlocs',
      merge_loop_heap g merged (current, hc) (map fst pairs) = Ok (current', hc') /\
      loop_inv h merged current' hc' mlocs'
               (fst (foldl (merge_step g) (mp, cp) (map snd pairs)))
               (snd (foldl (merge_step g) (mp, cp) (map snd pairs))).
Proof.
  induction pairs as [|[dl d] pairs IH]; intros current hc mlocs mp cp Hp Hinv.
  - exists current, hc, mlocs. now split.
  - apply Forall_cons_1 in Hp as [Hd Hp]. cbn [fst snd] in Hd.
    destruct (merge_step_heap_spec g _ _ _ _ _ _ _ _ _ Hd Hinv)
      as (c1 & h1 & ml1 & Hstep & Hinv1).
    cbn [map merge_loop_heap foldl fst snd]. rewrite Hstep. cbn [bind].
    destruct (merge_step g (mp, cp) d) as [mp1 cp1]. cbn [fst snd] in Hinv1.
    eapply IH; eassumption.
Qed.

Lemma sorted_pairs (pairs : list (loc * event)) :
  let sp := py_sorted (fun p => start_time (snd p)) pairs in
  map snd (py_sorted fst (map (fun p => (start_time (snd p), fst p)) pairs))
  = map fst sp /\
  py_sorted start_time (map snd pairs) = map snd sp.
Proof.
  cbn zeta. split.
  - rewrite <- (py_sorted_map fst (fun p : loc * event => (start_time (snd p), fst p))).
    cbn [fst]. rewrite map_map. reflexivity.
  - now rewrite <- (py_sorted_map start_time snd).
Qed.

(** C10. Called on a list object whose items are event dictionaries,
    [merge_detections] returns normally and leaves every object that
    existed before the call as it was, the input list and each of its
    dictionaries included, so that the input still denotes the same events;
    the result is a list allocated by the call, of dictionaries allocated
    by the call, and it denotes the episodes computed on values. *)
Theorem merge_detections_heap_preserves_input (h : heap) (detections : loc)
  (items : list loc) (evs : list event) (merge_gap : Q)
  (Hlist : h !! detections = Some (OList items))
  (Hitems : denotes h items evs) :
  exists out h' out_items episodes,
    merge_detections_heap detections merge_gap h = Ok (out, h') /\
    preserved h h' /\
    view detections h' = Ok evs /\
    merge_detections evs merge_gap = Ok episodes /\
    view out h' = Ok episodes /\
    h' !! out = Some (OList out_items) /\
    (length h <= out)%nat /\
    Forall (fun l => length h <= l)%nat out_items.
Proof.
  assert (Hview : forall h', preserved h h' -> view detections h' = Ok evs).
  { intros h' Hp. unfold view.
    rewrite (read_list_Some _ _ _ (Hp _ _ Hlist)). cbn [bind].
    apply read_dicts_denotes. eapply denotes_preserved; eassumption. }
  destruct (denotes_pairs _ _ _ Hitems) as (pairs & -> & -> & Hp).
  unfold merge_detections_heap.
  rewrite (read_list_Some _ _ _ Hlist). cbn [bind].
  destruct pairs as [|p0 pairs0].
  { cbn [map]. unfold alloc.
    exists (length h), (h ++ [OList []]), [], [].
    assert (Hpre : preserved h (h ++ [OList []]))
      by (apply prefix_preserved; now apply prefix_app_r).
    assert (Hout : (h ++ [OList []]) !! length h = Some (OList []))
      by now rewrite list_lookup_middle.
    split; [reflexivity|]. split; [exact Hpre|]. split; [now apply Hview|].
    split; [reflexivity|]. split.
    - unfold view. now rewrite (read_list_Some _ _ _ Hout).
    - split; [exact Hout|]. split; [lia | constructor]. }
  change (map fst (p0 :: pairs0)) with (fst p0 :: map fst pairs0) at 1.
  cbv iota.
  change (fst p0 :: map fst pairs0) with (map fst (p0 :: pairs0)).
  remember (p0 :: pairs0) as pairs eqn:Epairs.
  rewrite (read_keys_pairs _ _ Hp). cbn [bind]. unfold alloc.
  destruct (sorted_pairs pairs) as [Hlocs Hevs]. rewrite Hlocs.
  set (sp := py_sorted (fun p => start_time (snd p)) pairs) in *.
  assert (Hsp : Forall (fun p => h !! fst p = Some (ODict (snd p))) sp).
  { unfold sp. now rewrite py_sorted_perm. }
  destruct sp as [|q0 sp'] eqn:Esp.
  { apply py_sorted_nil_inv in Esp. subst pairs. discriminate. }
  apply Forall_cons_1 in Hsp as [Hq0 Hsp'].
  set (h1 := h ++ [OList (map fst (q0 :: sp'))]).
  set (h2 := h1 ++ [OList []]).
  assert (Hl1 : length h1 = S (length h)) by (unfold h1; rewrite length_app; cbn; lia).
  assert (Hl2 : length h2 = S (S (length h))) by (unfold h2; rewrite length_app; cbn; lia).
  assert (Hp1 : h `prefix_of` h1) by now apply prefix_app_r.
  assert (Hp2 : h `prefix_of` h2) by now apply prefix_app_r.
  assert (Hsd : h2 !! length h = Some (OList (map fst (q0 :: sp')))).
  { unfold h2. apply lookup_app_l_Some. unfold h1. now rewrite list_lookup_middle. }
  rewrite (read_list_Some _ _ _ Hsd). cbn [bind map getitem lookup list_lookup].
  rewrite (read_dict_Some _ _ _ (prefix_lookup_Some _ _ _ _ Hq0 Hp2)). cbn [bind].
  set (h3 := h2 ++ [ODict (snd q0)]).
  set (h4 := h3 ++ [OList (drop 1 (fst q0 :: map fst sp'))]).
  assert (Hl3 : length h3 = S (S (S (length h)))) by (unfold h3; rewrite length_app; cbn; lia).
  assert (Hrest : h4 !! length h3 = Some (OList (map fst sp'))).
  { unfold h4. now rewrite list_lookup_middle. }
  rewrite (read_list_Some _ _ _ Hrest). cbn [bind].
  assert (Hinv : loop_inv h (length h1) (length h2) h4 [] [] (snd q0)).
  { split; [unfold h4, h3; now do 2 apply prefix_app_r|].
    split; [lia|]. split; [lia|].
    split; [unfold h4; rewrite length_app; cbn; lia|].
    split; [|split; [|split; constructor]].
    - unfold h4, h3. do 2 apply lookup_app_l_Some. unfold h2.
      now rewrite list_lookup_middle.
    - unfold h4. apply lookup_app_l_Some. unfold h3.
      now rewrite list_lookup_middle. }
  destruct (merge_loop_heap_spec merge_gap h _ sp' _ _ _ _ _ Hsp' Hinv)
    as (current' & hc' & mlocs' & Hloop & Hinv').
  rewrite Hloop. cbn [bind]. clear Hloop Hinv.
  destruct (foldl (merge_step merge_gap) ([], snd q0) (map snd sp')) as [mp' cp'] eqn:Efold.
  cbn [fst snd] in Hinv'.
  destruct Hinv' as (Hpre & Hm & Hmc & Hcl & Hml & Hc & Hden & Hfresh).
  unfold list_append. rewrite (read_list_Some _ _ _ Hml). cbn [bind].
  set (h' := <[length h1 := OList (mlocs' ++ [current'])]> hc').
  assert (Hpre' : preserved h h').
  { apply prefix_preserved. apply prefix_insert; [exact Hpre | lia]. }
  assert (Hout : h' !! length h1 = Some (OList (mlocs' ++ [current']))).
  { apply list_lookup_insert_eq. lia. }
  exists (length h1), h', (mlocs' ++ [current']), (mp' ++ [cp']).
  split; [reflexivity|]. split; [exact Hpre'|]. split; [now apply Hview|].
  split; [|split; [|split; [exact Hout|split; [lia|]]]].
  - rewrite MergerFacts.merge_detections_scan, Hevs. cbn [map]. f_equal.
    pose proof (MergerFacts.foldl_merge_step merge_gap (map snd sp') [] (snd q0)) as H.
    rewrite Efold in H. symmetry. exact H.
  - unfold view. rewrite (read_list_Some _ _ _ Hout). cbn [bind].
    apply read_dicts_denotes. apply Forall2_app.
    + apply denotes_insert; [exact Hden|]. eapply denotes_not_list; eassumption.
    + constructor; [|constructor]. unfold h'.
      rewrite list_lookup_insert_ne by lia. exact Hc.
  - apply Forall_app. split.
    + eapply Forall_impl; [exact Hfresh|]. cbn. intros l Hl. lia.
    + constructor; [lia | constructor].
Qed.

Lemma merge_detections_heap_preserves_input_witness :
  let a := mk_event 0.5 1.5 0.7 None None in
  let b := mk_event 0 1 0.5 None None in
  let c := mk_event 3 4 0.6 None None in
  let h := [ODict a; ODict b; OList [0; 1; 3]%nat; ODict c] in
  h !! 2%nat = Some (OList [0; 1; 3]%nat) /\
  denotes h [0; 1; 3]%nat [a; b; c] /\
  exists out h',
    merge_detections_heap 2%nat 1 h = Ok (out, h') /\
    preserved h h' /\
    view 2%nat h' = Ok [a; b; c] /\
    view out h' = Ok [mk_event 0 1.5 0.7 None None; c].
Proof.
  intros a b c h.
  assert (Hlist : h !! 2%nat = Some (OList [0; 1; 3]%nat)) by reflexivity.
  assert (Hden : denotes h [0; 1; 3]%nat [a; b; c]) by (repeat constructor).
  split; [exact Hlist|]. split; [exact Hden|].
  destruct (merge_detections_heap_preserves_input
              h 2%nat [0; 1; 3]%nat [a; b; c] 1 Hlist Hden)
    as (out & h' & out_items & episodes & Hrun & Hpre & Hin & Hmerge & Hout & _).
  exists out, h'. split; [exact Hrun|]. split; [exact Hpre|]. split; [exact Hin|].
  rewrite Hout. symmetry. exact Hmerge.
Defined.

End HeapFacts.

(** * Further properties *)

(** ** What merging keeps *)

Module MergerMore.
Import Merger MergerFacts EventProps.

Lemma py_max_l (a b : Q) : a <= py_max a b.
Proof. unfold py_max. case_Qle b a H; lra. Qed.

Lemma py_max_r (a b : Q) : b <= py_max a b.
Proof. unfold py_max. case_Qle b a H; lra. Qed.

Lemma py_max_cases (a b : Q) : py_max a b = a \/ py_max a b = b.
Proof. unfold py_max. destruct (Qle_bool b a); auto. Qed.

Lemma covers_refl d : covers d d.
Proof. unfold covers. repeat split; apply Qle_refl. Qed.

Lemma covers_absorb_l current d x : covers current x -> covers (absorb current d) x.
Proof.
  intros (H1 & H2 & H3). unfold covers, absorb; cbn.
  pose proof (py_max_l (end_time current) (end_time d)).
  pose proof (py_max_l (confidence current) (confidence d)).
  repeat split; lra.
Qed.

Lemma covers_absorb_r current d :
  start_time current <= start_time d -> covers (absorb current d) d.
Proof.
  intros H. unfold covers, absorb; cbn.
  pose proof (py_max_r (end_time current) (end_time d)).
  pose proof (py_max_r (confidence current) (confidence d)).
  repeat split; lra.
Qed.

Lemma scan_covers g l : forall current x,
  StronglySorted (key_le start_time) (current :: l) ->
  covers current x \/ x ∈ l ->
  exists ep, ep ∈ scan g current l /\ covers ep x.
Proof.
  induction l as [|d r IH]; intros current x Hs Hx; cbn [scan].
  - destruct Hx as [Hx|Hx]; [|inversion Hx].
    exists current. split; [left | exact Hx].
  - apply StronglySorted_inv in Hs as [Hs Hc].
    apply Forall_cons_1 in Hc as [Hcd Hcr].
    pose proof Hs as Hs'. apply StronglySorted_inv in Hs' as [Hr Hd].
    destruct (Qle_bool (start_time d - end_time current) g).
    + apply IH.
      * constructor; [exact Hr | exact Hcr].
      * destruct Hx as [Hx|Hx]; [left; now apply covers_absorb_l|].
        apply elem_of_cons in Hx as [->|Hx]; [left|now right].
        now apply covers_absorb_r.
    + destruct Hx as [Hx|Hx].
      * exists current. split; [left | exact Hx].
      * destruct (IH d x Hs) as (ep & Hep & Hcov).
        { apply elem_of_cons in Hx as [->|Hx]; [left; apply covers_refl | now right]. }
        exists ep. split; [now right | exact Hcov].
Qed.

Lemma scan_length g l : forall current,
  (1 <= length (scan g current l) <= S (length l))%nat.
Proof.
  induction l as [|d r IH]; intros current; cbn [scan]; [cbn; lia|].
  destruct (Qle_bool (start_time d - end_time current) g).
  - specialize (IH (absorb current d)). cbn [length]. lia.
  - specialize (IH d). cbn [length]. lia.
Qed.

Lemma built_from_absorb input current d :
  built_from input current -> d ∈ input -> built_from input (absorb current d).
Proof.
  intros (Hs & He & Hc) Hd. unfold built_from, absorb; cbn.
  split; [exact Hs|]. split.
  - destruct (py_max_cases (end_time current) (end_time d)) as [->| ->];
      [exact He | now exists d].
  - destruct (py_max_cases (confidence current) (confidence d)) as [->| ->];
      [exact Hc | now exists d].
Qed.

Lemma built_from_self input d : d ∈ input -> built_from input d.
Proof. intros Hd. repeat split; exists d; repeat split; exact Hd. Qed.

Lemma scan_built_from g input l : forall current,
  built_from input current -> Forall (fun d => d ∈ input) l ->
  Forall (built_from input) (scan g current l).
Proof.
  induction l as [|d r IH]; intros current Hc Hl; cbn [scan].
  - now constructor.
  - apply Forall_cons_1 in Hl as [Hd Hr].
    destruct (Qle_bool (start_time d - end_time current) g).
    + apply IH; [now apply built_from_absorb | exact Hr].
    + constructor; [exact Hc|]. apply IH; [now apply built_from_self | exact Hr].
Qed.

Lemma scan_well_timed g l : forall current,
  well_timed current -> Forall well_timed l ->
  Forall well_timed (scan g current l).
Proof.
  induction l as [|d r IH]; intros current Hc Hl; cbn [scan].
  - now constructor.
  - apply Forall_cons_1 in Hl as [Hd Hr].
    destruct (Qle_bool (start_time d - end_time current) g).
    + apply IH; [|exact Hr]. unfold well_timed, absorb in *; cbn.
      pose proof (py_max_l (end_time current) (end_time d)). lra.
    + constructor; [exact Hc | now apply IH].
Qed.

(** The merged list in terms of the sorted input, for a non-empty input. *)
Lemma merge_detections_sorted_scan detections g :
  detections <> [] ->
  exists first rest,
    py_sorted start_time detections = first :: rest /\
    merge_detections detections g = Ok (scan g first rest).
Proof.
  intros Hne. rewrite merge_detections_scan.
  destruct (py_sorted start_time detections) as [|first rest] eqn:E.
  - apply py_sorted_nil_inv in E. contradiction.
  - eauto.
Qed.

Lemma sorted_elem_of (detections : list event) x :
  x ∈ py_sorted start_time detections <-> x ∈ detections.
Proof. now rewrite (py_sorted_perm start_time detections). Qed.

(** The facts about the merged list shared by the theorems below. *)
Lemma merge_detections_facts (detections : list event) (g : Q) :
  exists out,
    merge_detections detections g = Ok out /\
    (forall d, d ∈ detections -> exists ep, ep ∈ out /\ covers ep d) /\
    Forall (built_from detections) out /\
    (length out <= length detections)%nat /\
    (out = [] <-> detections = []).
Proof.
  destruct detections as [|d0 r0].
  { exists []. split; [reflexivity|]. split; [intros d Hd; inversion Hd|].
    split; [constructor|]. split; [cbn; lia | tauto]. }
  destruct (merge_detections_sorted_scan (d0 :: r0) g)
    as (first & rest & Es & ->); [discriminate|].
  exists (scan g first rest). split; [reflexivity|].
  pose proof (py_sorted_sorted start_time (d0 :: r0)) as Hs. rewrite Es in Hs.
  pose proof (scan_length g rest first) as Hlen.
  pose proof (Permutation_length (py_sorted_perm start_time (d0 :: r0))) as Hpl.
  rewrite Es in Hpl. cbn [length] in Hpl.
  assert (Hin : Forall (fun d => d ∈ d0 :: r0) (first :: rest)).
  { rewrite <- Es. apply Forall_forall. intros x Hx.
    apply (proj1 (sorted_elem_of (d0 :: r0) x)). exact Hx. }
  split; [|split; [|split]].
  - intros d Hd. apply sorted_elem_of in Hd. rewrite Es in Hd.
    apply scan_covers; [exact Hs|].
    apply elem_of_cons in Hd as [->|Hd]; [left; apply covers_refl | now right].
  - apply Forall_cons_1 in Hin as [Hf Hr].
    apply scan_built_from; [now apply built_from_self | exact Hr].
  - cbn [length]. lia.
  - split; [|discriminate]. intros E. rewrite E in Hlen. cbn in Hlen. lia.
Qed.

(** Every event handed to [merge_detections] lies inside one of the
    returned episodes, whose confidence is at least the event's; and there
    are at most as many episodes as events, none only for no event. *)
Theorem merge_detections_covers (detections : list event) (merge_gap : Q) :
  exists out,
    merge_detections detections merge_gap = Ok out /\
    (forall d, d ∈ detections -> exists ep, ep ∈ out /\ covers ep d) /\
    (length out <= length detections)%nat /\
    (out = [] <-> detections = []).
Proof.
  destruct detections as [|d0 r0].
  { exists []. split; [reflexivity|]. split; [intros d Hd; inversion Hd|].
    split; [cbn; lia | tauto]. }
  destruct (merge_detections_sorted_scan (d0 :: r0) merge_gap)
    as (first & rest & Es & ->); [discriminate|].
  exists (scan merge_gap first rest). split; [reflexivity|].
  pose proof (py_sorted_sorted start_time (d0 :: r0)) as Hs. rewrite Es in Hs.
  pose proof (scan_length merge_gap rest first) as Hlen.
  pose proof (Permutation_length (py_sorted_perm start_time (d0 :: r0))) as Hpl.
  rewrite Es in Hpl. cbn [length] in Hpl.
  split; [|split].
  - intros d Hd. apply sorted_elem_of in Hd. rewrite Es in Hd.
    apply scan_covers; [exact Hs|].
    apply elem_of_cons in Hd as [->|Hd]; [left; apply covers_refl | now right].
  - cbn [length]. lia.
  - split; [|discriminate]. intros E. rewrite E in Hlen. cbn in Hlen. lia.
Qed.

(** Merging invents no value: each episode starts where one input event
    starts and carries that event's class, and its end and its confidence
    are the end and the confidence of input events. *)
Theorem merge_detections_built_from_input (detections : list event) (merge_gap : Q) :
  exists out,
    merge_detections detections merge_gap = Ok out /\
    Forall (built_from detections) out.
Proof.
  destruct detections as [|d0 r0].
  { exists []. split; [reflexivity | constructor]. }
  destruct (merge_detections_sorted_scan (d0 :: r0) merge_gap)
    as (first & rest & Es & ->); [discriminate|].
  exists (scan merge_gap first rest). split; [reflexivity|].
  assert (Hin : Forall (fun d => d ∈ d0 :: r0) (first :: rest)).
  { rewrite <- Es. apply Forall_forall. intros x Hx.
    apply (proj1 (sorted_elem_of (d0 :: r0) x)). exact Hx. }
  apply Forall_cons_1 in Hin as [Hf Hr].
  apply scan_built_from; [now apply built_from_self | exact Hr].
Qed.

(** Merging keeps the data invariant: when every event ends after it
    starts, so does every episode. *)
Theorem merge_detections_well_timed (detections : list event) (merge_gap : Q)
  (Hwt : Forall well_timed detections) :
  exists out,
    merge_detections detections merge_gap = Ok out /\ Forall well_timed out.
Proof.
  destruct detections as [|d0 r0].
  { exists []. split; [reflexivity | constructor]. }
  destruct (merge_detections_sorted_scan (d0 :: r0) merge_gap)
    as (first & rest & Es & ->); [discriminate|].
  exists (scan merge_gap first rest). split; [reflexivity|].
  assert (Hin : Forall well_timed (first :: rest)).
  { rewrite <- Es. now rewrite (py_sorted_perm start_time (d0 :: r0)). }
  apply Forall_cons_1 in Hin as [Hf Hr]. now apply scan_well_timed.
Qed.

Lemma merge_detections_well_timed_witness :
  Forall well_timed [mk_event 3 4 0.6 None None; mk_event 0 1 0.5 None None;
                     mk_event 0.5 1.5 0.7 None None] /\
  exists out,
    merge_detections [mk_event 3 4 0.6 None None; mk_event 0 1 0.5 None None;
                      mk_event 0.5 1.5 0.7 None None] 1 = Ok out /\
    Forall well_timed out.
Proof.
  assert (H : Forall well_timed
                [mk_event 3 4 0.6 None None; mk_event 0 1 0.5 None None;
                 mk_event 0.5 1.5 0.7 None None])
    by (repeat constructor).
  split; [exact H|]. apply merge_detections_well_timed. exact H.
Defined.

End MergerMore.

(** ** The summary of a non-empty list *)

Module SummaryMore.
Import Float64 Float64Facts.
Import Merger MergerFacts EventProps MergerMore Summary Report.

Lemma py_min_l (a b : Q) : py_min a b <= a.
Proof. unfold py_min. case_Qle a b H; lra. Qed.

Lemma py_min_r (a b : Q) : py_min a b <= b.
Proof. unfold py_min. case_Qle a b H; lra. Qed.

Lemma py_min_cases (a b : Q) : py_min a b = a \/ py_min a b = b.
Proof. unfold py_min. destruct (Qle_bool a b); auto. Qed.

(** [max(l)] is an element of the list and bounds it. *)
Lemma py_max_list_spec l : forall x,
  py_max_list x l ∈ x :: l /\ Forall (fun y => y <= py_max_list x l) (x :: l).
Proof.
  unfold py_max_list.
  induction l as [|y r IH]; intros x; cbn [foldl].
  - split; [left | repeat constructor; apply Qle_refl].
  - destruct (IH (py_max x y)) as [Hin Hub].
    apply Forall_cons_1 in Hub as [Hm Hr].
    pose proof (py_max_l x y). pose proof (py_max_r x y).
    split.
    + apply elem_of_cons in Hin as [Hin|Hin].
      * rewrite Hin. destruct (py_max_cases x y) as [->| ->];
          [left | right; left].
      * right; now right.
    + constructor; [lra|]. constructor; [lra | exact Hr].
Qed.

Lemma py_min_list_spec l : forall x,
  py_min_list x l ∈ x :: l /\ Forall (fun y => py_min_list x l <= y) (x :: l).
Proof.
  unfold py_min_list.
  induction l as [|y r IH]; intros x; cbn [foldl].
  - split; [left | repeat constructor; apply Qle_refl].
  - destruct (IH (py_min x y)) as [Hin Hlb].
    apply Forall_cons_1 in Hlb as [Hm Hr].
    pose proof (py_min_l x y). pose proof (py_min_r x y).
    split.
    + apply elem_of_cons in Hin as [Hin|Hin].
      * rewrite Hin. destruct (py_min_cases x y) as [->| ->];
          [left | right; left].
      * right; now right.
    + constructor; [lra|]. constructor; [lra | exact Hr].
Qed.



Section Reducer.
Variable np_mean : list Q -> Q.

#[local] Abbreviation durations :=
  (map (fun d => fsub (end_time d) (start_time d))).

(** The six entries of the summary of a non-empty list. *)
Lemma summary_entries d rest :
  exists summary,
    get_detection_summary np_mean (d :: rest) = Ok summary /\
    summary !! "total_events"%string
      = Some (VInt (Z.of_nat (length (d :: rest)))) /\
    summary !! "total_duration"%string
      = Some (VFloat (py_sum (durations (d :: rest)))) /\
    summary !! "avg_duration"%string
      = Some (VFloat (np_mean (durations (d :: rest)))) /\
    summary !! "avg_confidence"%string
      = Some (VFloat (np_mean (map confidence (d :: rest)))) /\
    summary !! "max_confidence"%string
      = Some (VFloat (py_max_list (confidence d) (map confidence rest))) /\
    summary !! "min_confidence"%string
      = Some (VFloat (py_min_list (confidence d) (map confidence rest))).
Proof.
  eexists. split; [reflexivity|].
  repeat split;
    repeat (rewrite lookup_insert_ne by discriminate);
    now rewrite lookup_insert_eq.
Qed.

Lemma summary_other_keys d rest summary (key : string) :
  get_detection_summary np_mean (d :: rest) = Ok summary ->
  key <> "total_events"%string -> key <> "total_duration"%string ->
  key <> "avg_duration"%string -> key <> "avg_confidence"%string ->
  key <> "max_confidence"%string -> key <> "min_confidence"%string ->
  summary !! key = None.
Proof.
  intros [= <-] H1 H2 H3 H4 H5 H6.
  repeat (rewrite lookup_insert_ne by congruence). apply lookup_empty.
Qed.

End Reducer.


Lemma entry_equiv_refl (a : option value) : SummaryProps.entry_equiv a a.
Proof. destruct a as [[n|x]|]; cbn; [reflexivity | reflexivity | exact I]. Qed.

Lemma py_max_list_perm x l y l' :
  Permutation (x :: l) (y :: l') -> py_max_list x l == py_max_list y l'.
Proof.
  intros HP.
  destruct (py_max_list_spec l x) as [Hin Hub].
  destruct (py_max_list_spec l' y) as [Hin' Hub'].
  rewrite Forall_forall in Hub, Hub'.
  apply Qle_antisym.
  - apply Hub'. now rewrite <- HP.
  - apply Hub. now rewrite HP.
Qed.

Lemma py_min_list_perm x l y l' :
  Permutation (x :: l) (y :: l') -> py_min_list x l == py_min_list y l'.
Proof.
  intros HP.
  destruct (py_min_list_spec l x) as [Hin Hlb].
  destruct (py_min_list_spec l' y) as [Hin' Hlb'].
  rewrite Forall_forall in Hlb, Hlb'.
  apply Qle_antisym.
  - apply Hlb. now rewrite HP.
  - apply Hlb'. now rewrite <- HP.
Qed.

(** The rounded sum is not a function of the multiset of its items: the
    same three episodes, given in another order, have a total duration
    that differs in the last bit. *)
Lemma get_detection_summary_order_matters :
  let e1 := mk_event (round_double 1.44) (round_double 33.12) 0.5 None None in
  let e2 := mk_event (fadd (round_double 39.84) (- pow2 (- 47)))
                     (round_double 46.08) 0.5 None None in
  let e3 := mk_event (round_double 51.36) (round_double 57.6) 0.5 None None in
  exists s s' t t',
    get_detection_summary (fun _ => 0) [e1; e2; e3] = Ok s /\
    get_detection_summary (fun _ => 0) [e3; e2; e1] = Ok s' /\
    s !! "total_duration"%string = Some (VFloat t) /\
    s' !! "total_duration"%string = Some (VFloat t') /\
    ~ t == t'.
Proof.
  cbn zeta. do 4 eexists.
  split; [reflexivity|]. split; [reflexivity|].
  split; [reflexivity|]. split; [reflexivity|].
  vm_compute. discriminate.
Qed.

(** The count and the extreme confidences do not depend on the order of
    the events, nor does the set of keys: a permutation of the list gives
    the same [total_events], [max_confidence] and [min_confidence]. *)
Theorem get_detection_summary_permutation (np_mean : list Q -> Q)
  (detections detections' : list event)
  (HP : Permutation detections detections') :
  exists summary summary',
    get_detection_summary np_mean detections = Ok summary /\
    get_detection_summary np_mean detections' = Ok summary' /\
    (forall key : string,
       is_Some (summary !! key) <-> is_Some (summary' !! key)) /\
    forall key : string,
      key ∈ ["total_events"; "max_confidence"; "min_confidence"]%string ->
      SummaryProps.entry_equiv (summary !! key) (summary' !! key).
Proof.
  destruct detections as [|d rest], detections' as [|d' rest'].
  - do 2 eexists. split; [reflexivity|]. split; [reflexivity|].
    split; [reflexivity|]. intros key _. apply entry_equiv_refl.
  - apply Permutation_nil in HP. discriminate.
  - symmetry in HP. apply Permutation_nil in HP. discriminate.
  - destruct (summary_entries np_mean d rest)
      as (s1 & Hs1 & A1 & A2 & A3 & A4 & A5 & A6).
    destruct (summary_entries np_mean d' rest')
      as (s2 & Hs2 & B1 & B2 & B3 & B4 & B5 & B6).
    exists s1, s2. split; [exact Hs1|]. split; [exact Hs2|].
    pose proof (Permutation_map confidence HP) as HPc.
    split.
    + intros key.
      destruct (decide (key = "total_events"%string)) as [->|N1];
        [rewrite A1, B1; split; eauto|].
      destruct (decide (key = "total_duration"%string)) as [->|N2];
        [rewrite A2, B2; split; eauto|].
      destruct (decide (key = "avg_duration"%string)) as [->|N3];
        [rewrite A3, B3; split; eauto|].
      destruct (decide (key = "avg_confidence"%string)) as [->|N4];
        [rewrite A4, B4; split; eauto|].
      destruct (decide (key = "max_confidence"%string)) as [->|N5];
        [rewrite A5, B5; split; eauto|].
      destruct (decide (key = "min_confidence"%string)) as [->|N6];
        [rewrite A6, B6; split; eauto|].
      rewrite (summary_other_keys np_mean _ _ _ key Hs1),
              (summary_other_keys np_mean _ _ _ key Hs2) by assumption.
      reflexivity.
    + intros key Hkey.
      apply elem_of_cons in Hkey as [->|Hkey].
      { rewrite A1, B1. unfold SummaryProps.entry_equiv.
        now rewrite (Permutation_length HP). }
      apply elem_of_cons in Hkey as [->|Hkey].
      { rewrite A5, B5. unfold SummaryProps.entry_equiv. now apply py_max_list_perm. }
      apply list_elem_of_singleton in Hkey as ->.
      rewrite A6, B6. unfold SummaryProps.entry_equiv. now apply py_min_list_perm.
Qed.

Lemma get_detection_summary_permutation_witness :
  Permutation [mk_event 0 1 0.5 None None; mk_event 2 5 0.7 None None]
              [mk_event 2 5 0.7 None None; mk_event 0 1 0.5 None None] /\
  exists summary summary',
    get_detection_summary (fun _ => 0)
      [mk_event 0 1 0.5 None None; mk_event 2 5 0.7 None None]
    = Ok summary /\
    get_detection_summary (fun _ => 0)
      [mk_event 2 5 0.7 None None; mk_event 0 1 0.5 None None]
    = Ok summary' /\
    SummaryProps.entry_equiv (summary !! "max_confidence"%string)
                             (summary' !! "max_confidence"%string).
Proof.
  assert (HP : Permutation
                 [mk_event 0 1 0.5 None None; mk_event 2 5 0.7 None None]
                 [mk_event 2 5 0.7 None None; mk_event 0 1 0.5 None None])
    by apply perm_swap.
  split; [exact HP|].
  destruct (get_detection_summary_permutation (fun _ => 0) _ _ HP)
    as (s1 & s2 & H1 & H2 & _ & Hk).
  exists s1, s2. split; [exact H1|]. split; [exact H2|]. apply Hk.
  solve [repeat constructor].
Defined.

(** Merging and then summarising: the merged list of a non-empty list has
    the same [max_confidence], a [min_confidence] that is not lower and a
    [total_events] that is not higher than the list itself. *)
Theorem merge_detections_summary (np_mean : list Q -> Q)
  (d : event) (rest : list event) (merge_gap : Q) :
  exists out s_in s_out max_in max_out min_in min_out n_in n_out,
    merge_detections (d :: rest) merge_gap = Ok out /\
    get_detection_summary np_mean (d :: rest) = Ok s_in /\
    get_detection_summary np_mean out = Ok s_out /\
    s_in !! "max_confidence"%string = Some (VFloat max_in) /\
    s_out !! "max_confidence"%string = Some (VFloat max_out) /\
    s_in !! "min_confidence"%string = Some (VFloat min_in) /\
    s_out !! "min_confidence"%string = Some (VFloat min_out) /\
    s_in !! "total_events"%string = Some (VInt n_in) /\
    s_out !! "total_events"%string = Some (VInt n_out) /\
    max_out == max_in /\ min_in <= min_out /\ (1 <= n_out <= n_in)%Z.
Proof.
  destruct (merge_detections_facts (d :: rest) merge_gap)
    as (out & Hm & Hcov & Hbf & Hlen & Hnil).
  destruct out as [|e r]; [destruct Hnil as [Hnil _]; now specialize (Hnil eq_refl)|].
  destruct (summary_entries np_mean d rest) as (s1 & Hs1 & A1 & _ & _ & _ & A5 & A6).
  destruct (summary_entries np_mean e r) as (s2 & Hs2 & B1 & _ & _ & _ & B5 & B6).
  destruct (py_max_list_spec (map confidence rest) (confidence d)) as [Hi1 Hu1].
  destruct (py_max_list_spec (map confidence r) (confidence e)) as [Hi2 Hu2].
  destruct (py_min_list_spec (map confidence rest) (confidence d)) as [Hj1 Hl1].
  destruct (py_min_list_spec (map confidence r) (confidence e)) as [Hj2 Hl2].
  change (confidence d :: map confidence rest) with (map confidence (d :: rest)) in *.
  change (confidence e :: map confidence r) with (map confidence (e :: r)) in *.
  rewrite Forall_forall in Hu1, Hu2, Hl1, Hl2.
  rewrite Forall_forall in Hbf.
  do 9 eexists.
  split; [exact Hm|]. split; [exact Hs1|]. split; [exact Hs2|].
  split; [exact A5|]. split; [exact B5|]. split; [exact A6|]. split; [exact B6|].
  split; [exact A1|]. split; [exact B1|].
  split; [|split].
  - apply Qle_antisym.
    + apply list_elem_of_fmap in Hi2 as (ep & -> & Hep).
      destruct (Hbf ep Hep) as (_ & _ & x & Hx & ->).
      apply Hu1. apply list_elem_of_fmap. now exists x.
    + apply list_elem_of_fmap in Hi1 as (x & -> & Hx).
      destruct (Hcov x Hx) as (ep & Hep & _ & _ & Hc).
      eapply Qle_trans; [exact Hc|].
      apply Hu2. apply list_elem_of_fmap. now exists ep.
  - apply list_elem_of_fmap in Hj2 as (ep & -> & Hep).
    destruct (Hbf ep Hep) as (_ & _ & x & Hx & ->).
    apply Hl1. apply list_elem_of_fmap. now exists x.
  - cbn [length] in Hlen |- *. lia.
Qed.

(** [main] prints the summary under [if detections:], and then all six
    keys it reads are there: the block never fails on a missing key; the
    same block run on the empty list fails at the third key read,
    [avg_duration]. *)
Theorem main_summary_never_fails (np_mean : list Q -> Q) :
  (forall detections, exists vs,
     main_summary np_mean detections = Returned vs /\
     (detections = [] /\ vs = [] \/ detections <> [] /\ length vs = 6%nat)) /\
  (forall detections,
     (exists vs, print_summary np_mean detections = Returned vs) <-> detections <> []) /\
  print_summary np_mean [] = KeyError "avg_duration".
Proof.
  assert (Hne : forall d rest, exists vs,
            print_summary np_mean (d :: rest) = Returned vs /\ length vs = 6%nat).
  { intros d rest.
    destruct (summary_entries np_mean d rest)
      as (s1 & Hs1 & A1 & A2 & A3 & A4 & A5 & A6).
    unfold print_summary. rewrite Hs1.
    unfold printed_keys, Report.read_keys, dict_getitem.
    rewrite A1, A2, A3, A4, A5, A6. eexists. split; reflexivity. }
  split; [|split].
  - intros [|d rest].
    + exists []. split; [reflexivity | now left].
    + destruct (Hne d rest) as (vs & Hvs & Hl). exists vs.
      split; [exact Hvs | right; split; [discriminate | exact Hl]].
  - intros [|d rest]; split.
    + intros [vs Hvs]. discriminate.
    + intros H. now contradiction H.
    + discriminate.
    + intros _. destruct (Hne d rest) as (vs & Hvs & _). eauto.
  - reflexivity.
Qed.

End SummaryMore.

(** ** More on the chunk scheduler *)

Module SchedulerMore.
Import Float64 Float64Facts Scheduler SchedulerFacts.

Lemma run_starts {A : Type} (load_audio : Q -> Q -> A) (D C O : Q) fuel :
  forall offset cs fin,
  is_double offset ->
  run load_audio D C O fuel offset = (cs, fin) ->
  Forall (fun c => is_double (global_start c) /\ global_start c < D /\
                   c = make_chunk load_audio D C (global_start c)) cs.
Proof.
  induction fuel as [|n IH]; intros offset cs fin Hd Hrun.
  { cbn in Hrun. injection Hrun as <- _. constructor. }
  rewrite run_S in Hrun. case_Qle D offset HD.
  { injection Hrun as <- _. constructor. }
  destruct (run load_audio D C O n (fadd offset (fsub C O))) as [cs0 fin0] eqn:E.
  injection Hrun as <- _. constructor.
  - cbn [global_start make_chunk]. split; [exact Hd|]. split; [exact HD | reflexivity].
  - eapply IH; [apply is_double_fadd | exact E].
Qed.

(** With a positive chunk duration the generator never asks for an empty
    or negative stretch of audio, whatever the overlap: every chunk it
    yields starts before [D], its audio is [load_audio] of the duration
    [min(C, D - start)], which is positive and at most [C], at the offset
    [start], and it ends at [start + duration], not before its start. *)
Theorem process_in_chunks_durations {A : Type} (load_audio : Q -> Q -> A)
  (D C O : Q) (HC : 0 < C) (fuel : nat) :
  exists chunks fin,
    process_in_chunks load_audio D C O fuel = Ok (chunks, fin) /\
    (length chunks <= fuel)%nat /\
    forall c, c ∈ chunks ->
      exists duration,
        duration = py_min C (fsub D (global_start c)) /\
        audio_chunk c = load_audio duration (global_start c) /\
        global_end c = fadd (global_start c) duration /\
        0 < duration /\ duration <= C /\
        global_start c < D /\ global_start c <= global_end c.
Proof.
  unfold process_in_chunks. rewrite gen_take_run by discriminate.
  cbn [next_offset].
  pose proof (run_length load_audio D C O fuel 0) as Hlen.
  destruct (run load_audio D C O fuel 0) as [chunks fin] eqn:E.
  exists chunks, fin. split; [reflexivity|]. split; [exact Hlen|].
  pose proof (run_starts load_audio D C O fuel 0 chunks fin is_double_0 E) as Hs.
  rewrite Forall_forall in Hs.
  intros c Hc. destruct (Hs c Hc) as (Hd & Hlt & Hmk).
  destruct (duration_bounds D C (global_start c) HC Hlt) as [Hpos Hle].
  exists (py_min C (fsub D (global_start c))).
  split; [reflexivity|].
  split; [rewrite Hmk at 1; reflexivity|].
  split; [rewrite Hmk at 1; reflexivity|].
  split; [exact Hpos|]. split; [exact Hle|]. split; [exact Hlt|].
  rewrite Hmk at 2. cbn [global_end make_chunk].
  apply round_double_ge_double; [exact Hd | lra].
Qed.

Lemma process_in_chunks_durations_witness :
  0 < 60 /\
  exists chunks fin,
    process_in_chunks (fun duration offset : Q => (offset, duration)) 125 60 2 5
    = Ok (chunks, fin) /\
    (length chunks <= 5)%nat.
Proof.
  split; [reflexivity|].
  destruct (process_in_chunks_durations
              (fun duration offset : Q => (offset, duration)) 125 60 2
              ltac:(reflexivity) 5)
    as (chunks & fin & Hp & Hl & _).
  exists chunks, fin. split; [exact Hp | exact Hl].
Defined.

(** [process_in_chunks_endless] at [chunk_duration = overlap = 2]. *)
Lemma process_in_chunks_endless_witness :
  0 < 125 /\ 2 <= 2 /\
  exists chunks,
    gen_take (fun duration offset : Q => (offset, duration)) 125 2 2 7 GenCreated
    = Ok (chunks, false) /\
    length chunks = 7%nat.
Proof.
  split; [reflexivity|]. split; [discriminate|].
  apply (process_in_chunks_endless
           (fun duration offset : Q => (offset, duration)) 125 2 2);
    [reflexivity | discriminate].
Defined.

End SchedulerMore.

(** ** More on the event extractor *)

Module ExtractorMore.
Import Extractor ExtractorSpec ExtractorFacts ExtractorProps EventProps.

Section More.
Context {W : Type} (self : detector W).

Lemma best_loop_nonneg frame idxs : forall st st',
  best_loop self frame st idxs = Ok st' ->
  0 <= fst (fst st) -> 0 <= fst (fst st').
Proof.
  induction idxs as [|k rest IH]; intros st st' H Hst.
  - cbn in H. now injection H as <-.
  - cbn [best_loop] in H. apply bind_Ok_inv in H as (st1 & Hstep & Hrest).
    apply (IH _ _ Hrest).
    destruct st as [[m name] idx]. unfold best_step in Hstep.
    apply bind_Ok_inv in Hstep as (sc & _ & Hstep). cbn [fst] in Hst.
    case_Qle sc m Hs; cbn [negb] in Hstep.
    + injection Hstep as <-. exact Hst.
    + apply bind_Ok_inv in Hstep as (n & _ & Hstep). injection Hstep as <-.
      cbn. lra.
Qed.

Lemma frame_body_ok (i : nat) frame detections out :
  frame_body self i frame detections = Ok out ->
  out = detections \/ exists e, out = detections ++ [e] /\ emitted_at self i e.
Proof.
  unfold frame_body. intros H. apply bind_Ok_inv in H as ([[m name] idx] & Hb & H).
  apply best_loop_nonneg in Hb; [|cbn; lra]. cbn [fst] in Hb.
  case_Qle (confidence_threshold self) m Hm.
  - injection H as <-. right. eexists. split; [reflexivity|].
    unfold emitted_at; cbn. repeat split; assumption.
  - injection H as <-. now left.
Qed.

Lemma frame_loop_ok frames : forall (i : nat) detections out,
  frame_loop self i frames detections = Ok out ->
  exists evs (idxs : list nat),
    out = detections ++ evs /\
    Forall2 (emitted_at self) idxs evs /\
    StronglySorted lt idxs /\
    Forall (fun j => i <= j < i + length frames)%nat idxs /\
    (length evs <= length frames)%nat.
Proof.
  induction frames as [|frame rest IH]; intros i detections out H.
  - cbn in H. injection H as <-. exists [], [].
    rewrite app_nil_r. repeat split; constructor.
  - cbn [frame_loop] in H. apply bind_Ok_inv in H as (d1 & Hbody & Hrest).
    destruct (IH _ _ _ Hrest) as (evs & idxs & -> & Hev & Hs & Hb & Hl).
    assert (Hb' : Forall (fun j => i <= j < i + length (frame :: rest))%nat idxs).
    { eapply Forall_impl; [exact Hb|]. cbn. intros j Hj. lia. }
    destruct (frame_body_ok _ _ _ _ Hbody) as [->|(e & -> & He)].
    + exists evs, idxs. repeat split; try assumption. cbn [length]. lia.
    + exists (e :: evs), (i :: idxs). rewrite <- app_assoc.
      split; [reflexivity|]. split; [now constructor|]. split; [|split].
      * constructor; [exact Hs|].
        eapply Forall_impl; [exact Hb|]. cbn. intros j Hj. lia.
      * constructor; [cbn; lia | exact Hb'].
      * cbn [length]. lia.
Qed.

Lemma frame_loop_total frames : forall (i : nat) detections,
  well_indexed self frames ->
  exists out, frame_loop self i frames detections = Ok out.
Proof.
  induction frames as [|frame rest IH]; intros i detections [Hn Hf].
  - now exists detections.
  - apply Forall_cons_1 in Hf as [Hf Hrest].
    destruct (best_loop_inv self frame (dog_class_indices self) [] (0, None, None) Hn Hf)
      as (st & Hloop & _).
    { split; [intros k s Hk; inversion Hk | now left]. }
    cbn [frame_loop]. unfold frame_body. rewrite Hloop. cbn [bind].
    destruct st as [[m name] idx].
    destruct (Qle_bool (confidence_threshold self) m); cbn [bind];
      apply IH; now split.
Qed.

Lemma best_loop_index_error frame idxs (idx : nat) : forall st,
  idx ∈ idxs -> (length frame <= idx)%nat ->
  best_loop self frame st idxs = Raise IndexError.
Proof.
  induction idxs as [|k rest IH]; intros st Hin Hlen; [inversion Hin|].
  cbn [best_loop]. unfold best_step. destruct st as [[m name] i0].
  unfold getitem at 1.
  destruct (frame !! k) as [sc|] eqn:Ek; cbn [bind]; [|reflexivity].
  assert (Hrest : idx ∈ rest).
  { apply elem_of_cons in Hin as [->|Hin]; [|exact Hin].
    apply lookup_lt_Some in Ek. lia. }
  destruct (negb (Qle_bool sc m)).
  - unfold getitem. destruct (class_names self !! k); cbn [bind]; [|reflexivity].
    now apply IH.
  - now apply IH.
Qed.

Lemma emitted_sorted (idxs : list nat) (evs : list event) :
  Forall2 (emitted_at self) idxs evs -> StronglySorted lt idxs ->
  StronglySorted (fun a b => start_time a < start_time b) evs.
Proof.
  induction 1 as [|j e idxs evs He Hrest IH]; intros Hs; [constructor|].
  apply StronglySorted_inv in Hs as [Hs Hj].
  constructor; [now apply IH|].
  clear IH Hs. induction Hrest as [|j' e' idxs evs He' Hrest IH]; [constructor|].
  apply Forall_cons_1 in Hj as [Hjj' Hj].
  constructor; [|now apply IH].
  destruct He as [-> _], He' as [-> _].
  assert (inject_Z (Z.of_nat j) < inject_Z (Z.of_nat j'))
    by (rewrite <- Zlt_Qlt; lia).
  unfold hop_duration. nra.
Qed.

Lemma emitted_well_timed (idxs : list nat) (evs : list event) :
  Forall2 (emitted_at self) idxs evs -> Forall well_timed evs.
Proof.
  induction 1 as [|j e idxs evs He Hrest IH]; constructor; [|exact IH].
  destruct He as (_ & He & _). unfold well_timed. rewrite He.
  unfold frame_duration. lra.
Qed.
End More.

(** When every target index is a column of every frame and has a name,
    [detect_in_waveform] returns a list exactly for the sample rate 16000
    and raises [ValueError] for any other; the list holds at most one event
    per frame, in strictly ascending order of [start_time], each spanning
    its frame ([end_time = start_time + 0.96]) with a confidence that is
    non-negative and reaches the threshold. *)
Theorem detect_in_waveform_events {W : Type} (self : detector W) (waveform : W)
  (sample_rate : Z) (Hidx : well_indexed self (model self waveform)) :
  (sample_rate <> 16000%Z ->
   exists msg, detect_in_waveform self waveform sample_rate = Raise (ValueError msg)) /\
  (sample_rate = 16000%Z ->
   exists out (idxs : list nat),
     detect_in_waveform self waveform sample_rate = Ok out /\
     Forall2 (emitted_at self) idxs out /\
     StronglySorted lt idxs /\
     Forall (fun j => j < length (model self waveform))%nat idxs /\
     (length out <= length (model self waveform))%nat /\
     StronglySorted (fun a b => start_time a < start_time b) out /\
     Forall well_timed out).
Proof.
  unfold detect_in_waveform. split.
  - intros Hsr. apply Z.eqb_neq in Hsr. rewrite Hsr. cbn [negb]. eauto.
  - intros ->. cbn [Z.eqb Pos.eqb negb].
    destruct (frame_loop_total self (model self waveform) 0 [] Hidx) as [out Hout].
    destruct (frame_loop_ok self _ _ _ _ Hout) as (evs & idxs & -> & Hev & Hs & Hb & Hl).
    cbn [app] in *. exists evs, idxs. split; [exact Hout|].
    split; [exact Hev|]. split; [exact Hs|]. split; [|split; [exact Hl|split]].
    + eapply Forall_impl; [exact Hb|]. cbn. intros j Hj. lia.
    + eapply emitted_sorted; eassumption.
    + eapply emitted_well_timed; eassumption.
Qed.

Lemma detect_in_waveform_events_witness :
  let self := mk_detector 0.3
                (fun _ : unit => [[0.1; 0.5; 0.4]; [0.1; 0.2; 0.1]; [0.9; 0.3; 0.8]])
                ["Speech"; "Bark"; "Dog"]%string [1%nat; 2%nat] in
  well_indexed self (model self tt) /\
  (exists msg, detect_in_waveform self tt 44100 = Raise (ValueError msg)) /\
  exists out,
    detect_in_waveform self tt 16000 = Ok out /\
    StronglySorted (fun a b => start_time a < start_time b) out.
Proof.
  intros self.
  assert (Hw : well_indexed self (model self tt)) by (split; repeat constructor).
  split; [exact Hw|].
  split.
  - apply (proj1 (detect_in_waveform_events self tt 44100 Hw)). discriminate.
  - destruct (proj2 (detect_in_waveform_events self tt 16000 Hw) eq_refl)
      as (out & idxs & Hout & _ & _ & _ & _ & Hs & _).
    exists out. split; [exact Hout | exact Hs].
Defined.

(** A target index beyond the width of the first frame makes
    [detect_in_waveform] raise [IndexError]; no list is returned. *)
Theorem detect_in_waveform_index_error {W : Type} (self : detector W) (waveform : W)
  (frame : list Q) (rest : list (list Q)) (idx : nat)
  (Hframes : model self waveform = frame :: rest)
  (Hin : idx ∈ dog_class_indices self)
  (Hlen : (length frame <= idx)%nat) :
  detect_in_waveform self waveform 16000 = Raise IndexError.
Proof.
  unfold detect_in_waveform. cbn [Z.eqb Pos.eqb negb]. rewrite Hframes.
  cbn [frame_loop]. unfold frame_body.
  now rewrite (best_loop_index_error self frame _ idx _ Hin Hlen).
Qed.

Lemma detect_in_waveform_index_error_witness :
  let self := mk_detector 0.3 (fun _ : unit => [[0.1; 0.5]; [0.1; 0.2]])
                ["Speech"; "Bark"; "Dog"]%string [1%nat; 2%nat] in
  model self tt = [0.1; 0.5] :: [[0.1; 0.2]] /\
  2%nat ∈ dog_class_indices self /\
  (length ([0.1; 0.5]%Q : list Q) <= 2)%nat /\
  detect_in_waveform self tt 16000 = Raise IndexError.
Proof.
  intros self.
  assert (Hin : 2%nat ∈ dog_class_indices self) by (right; left).
  split; [reflexivity|]. split; [exact Hin|]. split; [cbn; lia|].
  apply (detect_in_waveform_index_error self tt [0.1; 0.5] [[0.1; 0.2]] 2%nat
           eq_refl Hin).
  cbn; lia.
Defined.

End ExtractorMore.

(** ** The target classes *)

Module ClassMapFacts.
Import Extractor ExtractorSpec ExtractorMore ClassMap.

Lemma prefix_app (p s : string) :
  String.prefix p s = true <-> exists post, s = (p ++ post)%string.
Proof.
  revert p. induction s as [|b s IH]; intros [|a p]; cbn.
  - split; [now exists EmptyString | reflexivity].
  - split; [discriminate | intros [post H]; discriminate].
  - split; [intros _; now exists (String b s) | reflexivity].
  - destruct (ascii_dec a b) as [->|Hne].
    + rewrite IH. split; intros [post H]; exists post.
      * now rewrite H.
      * now injection H.
    + split; [discriminate | intros [post H]; injection H as H1 _; congruence].
Qed.

(** [contains] is Python's substring test. *)
Lemma contains_spec (needle hay : string) :
  contains needle hay = true <->
  exists pre post, hay = (pre ++ needle ++ post)%string.
Proof.
  induction hay as [|c r IH]; cbn [contains]; rewrite orb_true_iff.
  - split.
    + intros [H|H]; [|discriminate].
      apply prefix_app in H as [post H]. now exists EmptyString, post.
    + intros (pre & post & H). left. apply prefix_app.
      destruct pre; [now exists post | discriminate].
  - rewrite prefix_app, IH. split.
    + intros [[post H]|(pre & post & H)].
      * now exists EmptyString, post.
      * exists (String c pre), post. cbn. now rewrite H.
    + intros (pre & post & H). destruct pre as [|a pre].
      * left. now exists post.
      * right. exists pre, post. cbn in H. now injection H.
Qed.

Lemma dog_class_loop_spec class_name dog_classes :
  dog_class_loop class_name dog_classes = true <->
  exists dog_class, dog_class ∈ dog_classes /\
    contains (lower dog_class) (lower class_name) = true.
Proof.
  induction dog_classes as [|dc rest IH]; cbn [dog_class_loop].
  - split; [discriminate | intros (x & Hx & _); inversion Hx].
  - destruct (contains (lower dc) (lower class_name)) eqn:E.
    + split; [intros _; exists dc; split; [left | exact E] | reflexivity].
    + rewrite IH. split.
      * intros (x & Hx & Hc). exists x. split; [now right | exact Hc].
      * intros (x & Hx & Hc). apply elem_of_cons in Hx as [->|Hx];
          [congruence | now exists x].
Qed.

Lemma class_loop_spec names : forall (idx : nat) acc,
  exists new,
    class_loop idx names acc = acc ++ new /\
    StronglySorted lt new /\
    Forall (fun k => idx <= k < idx + length names)%nat new /\
    forall k : nat, k ∈ new <->
      (idx <= k)%nat /\
      exists name, names !! (k - idx)%nat = Some name /\
                   dog_class_loop name DOG_BARK_CLASSES = true.
Proof.
  induction names as [|name rest IH]; intros idx acc.
  - exists []. rewrite app_nil_r. split; [reflexivity|].
    split; [constructor|]. split; [constructor|].
    intros k. split; [intros H; inversion H | intros (_ & n & H & _); discriminate].
  - cbn [class_loop].
    destruct (dog_class_loop name DOG_BARK_CLASSES) eqn:E.
    + destruct (IH (S idx) (acc ++ [idx])) as (new & -> & Hs & Hb & Hk).
      exists (idx :: new). rewrite <- app_assoc. split; [reflexivity|].
      split; [|split].
      * constructor; [exact Hs|].
        eapply Forall_impl; [exact Hb|]. cbn. intros k Hkk. lia.
      * constructor; [cbn; lia|].
        eapply Forall_impl; [exact Hb|]. cbn. intros k Hkk. lia.
      * intros k. rewrite elem_of_cons, Hk. split.
        -- intros [->|(Hle & n & Hn & Hd)].
           ++ split; [lia|]. exists name. rewrite Nat.sub_diag. now split.
           ++ split; [lia|]. exists n. split; [|exact Hd].
              replace (k - idx)%nat with (S (k - S idx)) by lia. exact Hn.
        -- intros (Hle & n & Hn & Hd).
           destruct (decide (k = idx)) as [->|Hne]; [now left|]. right.
           split; [lia|]. exists n. split; [|exact Hd].
           replace (k - idx)%nat with (S (k - S idx)) in Hn by lia. exact Hn.
    + destruct (IH (S idx) acc) as (new & -> & Hs & Hb & Hk).
      exists new. split; [reflexivity|]. split; [exact Hs|]. split.
      * eapply Forall_impl; [exact Hb|]. cbn. intros k Hkk. lia.
      * intros k. rewrite Hk. split.
        -- intros (Hle & n & Hn & Hd). split; [lia|]. exists n. split; [|exact Hd].
           replace (k - idx)%nat with (S (k - S idx)) by lia. exact Hn.
        -- intros (Hle & n & Hn & Hd).
           destruct (decide (k = idx)) as [->|Hne].
           ++ rewrite Nat.sub_diag in Hn. cbn in Hn. congruence.
           ++ split; [lia|]. exists n. split; [|exact Hd].
              replace (k - idx)%nat with (S (k - S idx)) in Hn by lia. exact Hn.
Qed.

(** [_load_class_names] collects, in strictly ascending order and inside
    the bounds of [class_names], exactly the indices of the names whose
    lower-cased text contains the lower-cased text of one of the
    [DOG_BARK_CLASSES]. *)
Theorem load_class_names_spec (class_names0 : list string) :
  StronglySorted lt (load_class_names class_names0) /\
  Forall (fun k => k < length class_names0)%nat (load_class_names class_names0) /\
  forall k : nat, k ∈ load_class_names class_names0 <->
    exists name dog_class pre post,
      class_names0 !! k = Some name /\
      dog_class ∈ DOG_BARK_CLASSES /\
      lower name = (pre ++ lower dog_class ++ post)%string.
Proof.
  unfold load_class_names.
  destruct (class_loop_spec class_names0 0 []) as (new & -> & Hs & Hb & Hk).
  cbn [app]. split; [exact Hs|]. split.
  - eapply Forall_impl; [exact Hb|]. cbn. intros k Hkk. lia.
  - intros k. rewrite Hk. split.
    + intros (_ & name & Hn & Hd). rewrite Nat.sub_0_r in Hn.
      apply dog_class_loop_spec in Hd as (dc & Hdc & Hc).
      apply contains_spec in Hc as (pre & post & Hc).
      now exists name, dc, pre, post.
    + intros (name & dc & pre & post & Hn & Hdc & Hc).
      split; [lia|]. exists name. rewrite Nat.sub_0_r. split; [exact Hn|].
      apply dog_class_loop_spec. exists dc. split; [exact Hdc|].
      apply contains_spec. now exists pre, post.
Qed.

(** A detector built by [__init__] from a class map, run on scores that
    have one column per class name, never meets an index out of range:
    [detect_in_waveform] returns a list at 16 kHz. *)
Theorem init_detector_well_indexed {W : Type} (model0 : W -> list (list Q))
  (class_names0 : list string) (threshold : Q) (waveform : W)
  (Hrows : Forall (fun frame : list Q => length frame = length class_names0)
                  (model0 waveform)) :
  well_indexed (init_detector model0 class_names0 threshold) (model0 waveform) /\
  exists out,
    detect_in_waveform (init_detector model0 class_names0 threshold) waveform 16000
    = Ok out.
Proof.
  assert (Hb : Forall (fun k => k < length class_names0)%nat
                      (load_class_names class_names0)).
  { unfold load_class_names.
    destruct (class_loop_spec class_names0 0 []) as (new & -> & _ & Hb & _).
    cbn [app]. eapply Forall_impl; [exact Hb|]. cbn. intros k Hk. lia. }
  assert (Hw : well_indexed (init_detector model0 class_names0 threshold)
                            (model0 waveform)).
  { split; [exact Hb|]. cbn [dog_class_indices init_detector].
    eapply Forall_impl; [exact Hrows|]. cbn. intros frame ->. exact Hb. }
  split; [exact Hw|].
  unfold detect_in_waveform. cbn [Z.eqb Pos.eqb negb].
  apply frame_loop_total. exact Hw.
Qed.

Lemma init_detector_well_indexed_witness :
  let model0 := fun _ : unit => [[0.1; 0.6; 0.2]; [0.4; 0.1; 0.9]] in
  let names := ["Speech"; "Dog"; "Domestic animals, pets"]%string in
  Forall (fun frame : list Q => length frame = length names) (model0 tt) /\
  exists out, detect_in_waveform (init_detector model0 names 0.3) tt 16000 = Ok out.
Proof.
  intros model0 names.
  assert (H : Forall (fun frame : list Q => length frame = length names) (model0 tt))
    by (repeat constructor).
  split; [exact H|].
  exact (proj2 (init_detector_well_indexed model0 names 0.3 tt H)).
Defined.

End ClassMapFacts.

(** ** Sample arrays *)

Module AudioFacts.
Import Audio Summary SummaryMore.

Lemma np_abs_max_spec x rest :
  exists m,
    np_abs_max (x :: rest) = Ok m /\
    m ∈ map Qabs (x :: rest) /\
    Forall (fun y => Qabs y <= m) (x :: rest) /\
    0 <= m.
Proof.
  destruct (py_max_list_spec (map Qabs rest) (Qabs x)) as [Hin Hub].
  exists (py_max_list (Qabs x) (map Qabs rest)).
  split; [reflexivity|]. split; [exact Hin|]. split.
  - change (Qabs x :: map Qabs rest) with (map Qabs (x :: rest)) in Hub.
    rewrite Forall_forall in Hub. apply Forall_forall. intros y Hy.
    apply Hub. apply list_elem_of_fmap. now exists y.
  - apply Forall_cons_1 in Hub as [Hx _].
    pose proof (Qabs_nonneg x). lra.
Qed.

Lemma Qabs_div (x m : Q) : 0 < m -> Qabs (x / m) == Qabs x / m.
Proof.
  intros Hm. unfold Qdiv. rewrite Qabs_Qmult, Qabs_Qinv.
  rewrite (Qabs_pos m) by lra. reflexivity.
Qed.

Lemma Qabs_zero (x : Q) : Qabs x <= 0 -> x == 0.
Proof.
  intros H. apply Qabs_Qle_condition in H. lra.
Qed.

Lemma Forall2_Qeq_refl (l : list Q) : Forall2 Qeq l l.
Proof. induction l; constructor; [reflexivity | assumption]. Qed.

(** The result of [normalize_audio] on a non-empty array in full. *)
Lemma normalize_audio_cases x rest :
  exists m out,
    np_abs_max (x :: rest) = Ok m /\ 0 <= m /\
    m ∈ map Qabs (x :: rest) /\
    Forall (fun y => Qabs y <= m) (x :: rest) /\
    normalize_audio (x :: rest) = Ok out /\
    (m <= 0 /\ out = x :: rest \/ 0 < m /\ out = map (fun y => y / m) (x :: rest)).
Proof.
  destruct (np_abs_max_spec x rest) as (m & Hm & Hin & Hub & Hpos).
  unfold normalize_audio. rewrite Hm. cbn [bind].
  case_Qle m 0 H; cbn [negb]; eexists m, _; repeat split; try eassumption; auto.
Qed.

(** [normalize_audio] refuses the empty array; otherwise it returns an
    array of the same length whose samples all lie in [[-1, 1]]; if some
    sample is not zero, one returned sample has absolute value 1, and if
    all are zero the array is returned as it is. *)
Theorem normalize_audio_range (audio : list Q) :
  (audio = [] <-> exists msg, normalize_audio audio = Raise (ValueError msg)) /\
  (audio <> [] ->
   exists out,
     normalize_audio audio = Ok out /\
     length out = length audio /\
     Forall (fun y => Qabs y <= 1) out /\
     ((exists x, x ∈ audio /\ ~ x == 0) -> exists y, y ∈ out /\ Qabs y == 1) /\
     (Forall (fun x => x == 0) audio -> out = audio)).
Proof.
  destruct audio as [|x rest].
  { split; [split; [intros _; cbn; eauto | reflexivity] | intros H; contradiction]. }
  destruct (normalize_audio_cases x rest)
    as (m & out & Hm & Hpos & Hin & Hub & Hn & Hcase).
  split.
  { split; [discriminate | intros [msg H]; rewrite Hn in H; discriminate]. }
  intros _. exists out. split; [exact Hn|].
  rewrite Forall_forall in Hub.
  destruct Hcase as [[Hle ->]|[Hlt ->]].
  - split; [reflexivity|]. split; [|split].
    + apply Forall_forall. intros y Hy. specialize (Hub y Hy). lra.
    + intros (y & Hy & Hne). specialize (Hub y Hy).
      contradiction Hne. apply Qabs_zero. lra.
    + reflexivity.
  - split; [apply length_map|]. split; [|split].
    + apply Forall_forall. intros z Hz.
      apply list_elem_of_fmap in Hz as (y & -> & Hy).
      rewrite Qabs_div by exact Hlt. specialize (Hub y Hy).
      apply Qle_shift_div_r; lra.
    + intros _. apply list_elem_of_fmap in Hin as (y & Hmy & Hy).
      exists (y / m). split; [apply list_elem_of_fmap; now exists y|].
      rewrite Qabs_div by exact Hlt. rewrite <- Hmy. field. lra.
    + intros Hz. rewrite Forall_forall in Hz.
      apply list_elem_of_fmap in Hin as (y & Hmy & Hy).
      specialize (Hz y Hy).
      assert (E : Qabs y == 0) by (rewrite Hz; reflexivity).
      rewrite <- Hmy in E. lra.
Qed.

Lemma normalize_audio_range_witness :
  [0.5; -(2); 1] <> [] /\
  exists out,
    normalize_audio [0.5; -(2); 1] = Ok out /\
    length out = 3%nat /\
    Forall (fun y => Qabs y <= 1) out.
Proof.
  split; [discriminate|].
  destruct (proj2 (normalize_audio_range [0.5; -(2); 1]) ltac:(discriminate))
    as (out & Hn & Hl & Hb & _).
  exists out. split; [exact Hn|]. split; [exact Hl | exact Hb].
Defined.

(** Normalising twice changes nothing more: the second call returns,
    sample by sample, the numbers the first call returned. *)
Theorem normalize_audio_idempotent (x : Q) (rest : list Q) :
  exists out out2,
    normalize_audio (x :: rest) = Ok out /\
    normalize_audio out = Ok out2 /\
    Forall2 Qeq out2 out.
Proof.
  destruct (normalize_audio_cases x rest)
    as (m & out & Hm & Hpos & Hin & Hub & Hn & Hcase).
  exists out. destruct Hcase as [[Hle ->]|[Hlt ->]].
  - exists (x :: rest). split; [exact Hn|]. split; [exact Hn|].
    apply Forall2_Qeq_refl.
  - cbn [map].
    destruct (normalize_audio_cases (x / m) (map (fun y => y / m) rest))
      as (m' & out2 & Hm' & Hpos' & Hin' & Hub' & Hn' & Hcase').
    exists out2. split; [exact Hn|]. split; [exact Hn'|].
    change (x / m :: map (fun y => y / m) rest)
      with (map (fun y => y / m) (x :: rest)) in *.
    assert (Hone : m' == 1).
    { rewrite Forall_forall in Hub, Hub'. apply Qle_antisym.
      - apply list_elem_of_fmap in Hin' as (z & -> & Hz).
        apply list_elem_of_fmap in Hz as (y & -> & Hy).
        rewrite Qabs_div by exact Hlt. specialize (Hub y Hy).
        apply Qle_shift_div_r; lra.
      - apply list_elem_of_fmap in Hin as (y & Hmy & Hy).
        assert (Hz : y / m ∈ map (fun y => y / m) (x :: rest))
          by (apply list_elem_of_fmap; now exists y).
        specialize (Hub' _ Hz). rewrite Qabs_div in Hub' by exact Hlt.
        rewrite <- Hmy in Hub'.
        assert (E : m / m == 1) by (field; lra). lra. }
    destruct Hcase' as [[Hle' ->]|[Hlt' ->]]; [apply Forall2_Qeq_refl|].
    apply Forall2_fmap_l, Forall_Forall2_diag, Forall_forall.
    intros y _. cbn. rewrite Hone. field.
Qed.

(** [apply_noise_reduction] returns an array of the same length in which
    no sample is louder than it was: a sample at or above the threshold is
    kept as it is, a sample below it is a tenth of itself and still below
    the threshold. *)
Theorem apply_noise_reduction_spec (audio : list Q) (noise_threshold : Q) :
  length (apply_noise_reduction audio noise_threshold) = length audio /\
  forall (i : nat) x, audio !! i = Some x ->
    exists y,
      apply_noise_reduction audio noise_threshold !! i = Some y /\
      Qabs y <= Qabs x /\
      (noise_threshold <= Qabs x -> y = x) /\
      (Qabs x < noise_threshold -> y == x * (1 # 10) /\ Qabs y < noise_threshold).
Proof.
  unfold apply_noise_reduction. split; [apply length_map|].
  intros i x Hi. rewrite list_lookup_fmap, Hi. cbn [fmap option_fmap option_map].
  eexists. split; [reflexivity|].
  pose proof (Qabs_nonneg x) as Hx.
  case_Qle noise_threshold (Qabs x) H; cbn [negb].
  - split; [apply Qle_refl|]. split; [reflexivity | lra].
  - assert (E : Qabs (x * 0.1) == Qabs x * (1 # 10)).
    { rewrite Qabs_Qmult. reflexivity. }
    split; [rewrite E; lra|]. split; [lra|].
    intros _. split; [reflexivity | rewrite E; lra].
Qed.

Lemma apply_noise_reduction_spec_witness :
  exists y,
    apply_noise_reduction [0.5; 0.01; -(0.3)] 0.02 !! 1%nat = Some y /\
    Qabs y <= Qabs 0.01.
Proof.
  destruct (proj2 (apply_noise_reduction_spec [0.5; 0.01; -(0.3)] 0.02)
              1%nat 0.01 eq_refl) as (y & Hy & Hle & _).
  exists y. split; [exact Hy | exact Hle].
Defined.

End AudioFacts.

(** ** More on the driver loop *)

Module DriverMore.
Import Scheduler Extractor ExtractorMore Driver DriverFacts SchedulerFacts.
Import Merger MergerFacts MergerMore EventProps.

Lemma merge_detections_order_facts (detections : list event) (g : Q) :
  exists out,
    merge_detections detections g = Ok out /\
    (Forall well_timed detections -> Forall well_timed out) /\
    StronglySorted (fun a b => end_time a + g < start_time b) out.
Proof.
  destruct detections as [|d0 r0].
  { exists []. split; [reflexivity|]. split; [auto | constructor]. }
  destruct (merge_detections_sorted_scan (d0 :: r0) g)
    as (first & rest & Es & ->); [discriminate|].
  exists (scan g first rest). split; [reflexivity|].
  pose proof (py_sorted_sorted start_time (d0 :: r0)) as Hs. rewrite Es in Hs.
  split.
  - intros Hwt.
    assert (Hin : Forall well_timed (first :: rest)).
    { rewrite <- Es. now rewrite (py_sorted_perm start_time (d0 :: r0)). }
    apply Forall_cons_1 in Hin as [Hf Hr]. now apply scan_well_timed.
  - apply apart_pairwise; [now apply scan_sorted | apply scan_apart].
Qed.

Lemma detect_in_waveform_well_timed {W : Type} (self : detector W) (w : W) ds :
  detect_in_waveform self w 16000 = Ok ds -> Forall well_timed ds.
Proof.
  unfold detect_in_waveform. cbn [Z.eqb Pos.eqb negb]. intros H.
  destruct (frame_loop_ok self _ _ _ _ H) as (evs & idxs & -> & Hev & _).
  cbn [app]. eapply emitted_well_timed. exact Hev.
Qed.

Lemma adjust_timestamps_well_timed (t : Q) (d : event) :
  well_timed d -> well_timed (adjust_timestamps t d).
Proof. unfold well_timed, adjust_timestamps. cbn. intros H. lra. Qed.

Section Loop.
Context {W : Type} (load_audio : Q -> Q -> W) (D : Q).
Context (detector0 : detector W) (chunk_size : Q).

Lemma chunk_loop_raise fuel : forall gen cs1 c cs2 fin dets all_detections e,
  gen_take load_audio D chunk_size 2 fuel gen = Ok (cs1 ++ c :: cs2, fin) ->
  Forall2 (fun c ds => detect_in_waveform detector0 (audio_chunk c) 16000 = Ok ds)
          cs1 dets ->
  detect_in_waveform detector0 (audio_chunk c) 16000 = Raise e ->
  chunk_loop load_audio D detector0 chunk_size fuel gen all_detections
  = Some (Raise e).
Proof.
  induction fuel as [|n IH]; intros gen cs1 c cs2 fin dets acc e Hgen Hdet He.
  { cbn in Hgen. injection Hgen as Hnil _. now destruct cs1. }
  cbn [gen_take chunk_loop] in Hgen |- *.
  destruct (gen_next load_audio D chunk_size 2 gen) as [[[c0|]|e0] gen'];
    [| |discriminate].
  - destruct (gen_take load_audio D chunk_size 2 n gen') as [[cs fin']|e1] eqn:E;
      [|discriminate].
    injection Hgen as Hcs ->.
    destruct cs1 as [|c1 cs1].
    + cbn in Hcs. injection Hcs as -> ->. now rewrite He.
    + cbn in Hcs. injection Hcs as -> ->.
      inversion Hdet as [|? ds ? dss Hc Hrest]; subst.
      rewrite Hc. eapply IH; eassumption.
  - injection Hgen as Hnil _. now destruct cs1.
Qed.

Lemma chunk_loop_endless fuel : forall gen all_detections,
  0 < D -> chunk_size <= 2 ->
  (forall w, exists ds, detect_in_waveform detector0 w 16000 = Ok ds) ->
  gen <> GenFinished -> next_offset D chunk_size 2 gen <= 0 ->
  chunk_loop load_audio D detector0 chunk_size fuel gen all_detections = None.
Proof.
  induction fuel as [|n IH]; intros gen acc HD Hcs Hok Hgen Hoff; [reflexivity|].
  cbn [chunk_loop]. rewrite gen_next_run by exact Hgen.
  rewrite (proj2 (Qle_bool_false D _)) by lra.
  cbn [audio_chunk global_start].
  destruct (Hok (audio_chunk (make_chunk load_audio D chunk_size
                                (next_offset D chunk_size 2 gen)))) as [ds Hds].
  rewrite Hds. apply IH; try assumption; [discriminate|].
  cbn [next_offset]. now apply next_nonpos.
Qed.
End Loop.

(** A recording without duration gives the empty list: the generator ends
    at once, the detector is never called and nothing is merged. *)
Theorem process_audio_file_empty_recording {W : Type}
  (load_audio : Q -> Q -> W) (D : Q) (detector0 : detector W) (chunk_size : Q)
  (fuel : nat) (merge_gap : Q) (no_merge : bool) (HD : D <= 0) :
  process_audio_file load_audio D detector0 chunk_size (S fuel) merge_gap no_merge
  = Some (Ok []).
Proof.
  unfold process_audio_file. cbn [chunk_loop gen_next]. unfold while_head.
  rewrite (proj2 (Qle_bool_true D 0) HD). cbn [negb].
  now destruct no_merge.
Qed.

Lemma process_audio_file_empty_recording_witness :
  0 <= 0 /\
  process_audio_file (fun duration offset : Q => (offset, duration)) 0
    (mk_detector 0.3 (fun _ : Q * Q => [[0.9]]) ["Bark"%string] [5%nat])
    60 1 1 false
  = Some (Ok []).
Proof.
  split; [discriminate|].
  apply process_audio_file_empty_recording. discriminate.
Defined.

(** A failure of the detector on one chunk is the failure of the whole
    call: when the chunks before it were scored and this one raises,
    [process_audio_file] raises the same error, with or without merging,
    and returns no partial list. *)
Theorem process_audio_file_fails_hard {W : Type}
  (load_audio : Q -> Q -> W) (D : Q) (detector0 : detector W) (chunk_size : Q)
  (fuel : nat) (cs1 cs2 : list (chunk W)) (c : chunk W) (fin : bool)
  (dets : list (list event)) (e : exn) (merge_gap : Q) (no_merge : bool)
  (Hgen : gen_take load_audio D chunk_size 2 fuel GenCreated
          = Ok (cs1 ++ c :: cs2, fin))
  (Hdet : Forall2 (fun c ds =>
                     detect_in_waveform detector0 (audio_chunk c) 16000 = Ok ds)
                  cs1 dets)
  (Hfail : detect_in_waveform detector0 (audio_chunk c) 16000 = Raise e) :
  process_audio_file load_audio D detector0 chunk_size fuel merge_gap no_merge
  = Some (Raise e).
Proof.
  unfold process_audio_file.
  now rewrite (chunk_loop_raise load_audio D detector0 chunk_size fuel
                 _ _ _ _ _ _ [] _ Hgen Hdet Hfail).
Qed.

Lemma process_audio_file_fails_hard_witness :
  let load_audio := fun duration offset : Q => (offset, duration) in
  let detector0 := mk_detector 0.3 (fun _ : Q * Q => [[0.1; 0.9]])
                     ["Speech"; "Bark"]%string [1%nat; 2%nat] in
  gen_take load_audio 100 60 2 3 GenCreated
  = Ok ([] ++ mk_chunk (0, 60) 0 60 :: [mk_chunk (58, 42) 58 100], true) /\
  detect_in_waveform detector0 (0, 60) 16000 = Raise IndexError /\
  process_audio_file load_audio 100 detector0 60 3 1 false = Some (Raise IndexError).
Proof.
  intros load_audio detector0.
  assert (Hgen : gen_take load_audio 100 60 2 3 GenCreated
                 = Ok ([] ++ mk_chunk (0, 60) 0 60 :: [mk_chunk (58, 42) 58 100], true))
    by reflexivity.
  assert (Hfail : detect_in_waveform detector0
                    (audio_chunk (mk_chunk (0, 60) 0 60)) 16000 = Raise IndexError)
    by reflexivity.
  split; [exact Hgen|]. split; [exact Hfail|].
  exact (process_audio_file_fails_hard load_audio 100 detector0 60 3
           [] [mk_chunk (58, 42) 58 100] (mk_chunk (0, 60) 0 60) true []
           IndexError 1 false Hgen ltac:(constructor) Hfail).
Defined.

(** [process_audio_file] always asks for an overlap of 2 seconds: with a
    chunk size of 2 seconds or less on a recording of positive duration,
    and a detector that returns, the loop over the chunks never ends,
    however many iterations it is given. *)
Theorem process_audio_file_small_chunk_never_returns {W : Type}
  (load_audio : Q -> Q -> W) (D : Q) (detector0 : detector W) (chunk_size : Q)
  (HD : 0 < D) (Hsize : chunk_size <= 2)
  (Hok : forall w, exists ds, detect_in_waveform detector0 w 16000 = Ok ds)
  (fuel : nat) (merge_gap : Q) (no_merge : bool) :
  process_audio_file load_audio D detector0 chunk_size fuel merge_gap no_merge = None.
Proof.
  unfold process_audio_file.
  rewrite (chunk_loop_endless load_audio D detector0 chunk_size fuel GenCreated []
             HD Hsize Hok); [reflexivity | discriminate | cbn; lra].
Qed.

Lemma process_audio_file_small_chunk_never_returns_witness :
  let detector0 := mk_detector 0.3 (fun _ : Q * Q => []) ["Bark"%string] [0%nat] in
  0 < 125 /\ 2 <= 2 /\
  (forall w, exists ds, detect_in_waveform detector0 w 16000 = Ok ds) /\
  process_audio_file (fun duration offset : Q => (offset, duration)) 125
    detector0 2 50 1 false = None.
Proof.
  intros detector0.
  assert (Hok : forall w, exists ds, detect_in_waveform detector0 w 16000 = Ok ds)
    by (intros w; now exists []).
  split; [reflexivity|]. split; [discriminate|]. split; [exact Hok|].
  apply process_audio_file_small_chunk_never_returns;
    [reflexivity | discriminate | exact Hok].
Defined.

(** The whole pipeline with merging: when every chunk is scored, the
    result of [process_audio_file] is the merge of the accumulated events;
    its episodes end after they start, any two of them are more than
    [merge_gap] apart, and every event extracted from a chunk, moved to
    global time, lies inside one of them. *)
Theorem process_audio_file_merged {W : Type}
  (load_audio : Q -> Q -> W) (D : Q) (detector0 : detector W) (chunk_size : Q)
  (fuel : nat) (chunks : list (chunk W)) (dets : list (list event))
  (merge_gap : Q)
  (Hgen : gen_take load_audio D chunk_size 2 fuel GenCreated = Ok (chunks, true))
  (Hdet : Forall2 (fun c ds =>
                     detect_in_waveform detector0 (audio_chunk c) 16000 = Ok ds)
                  chunks dets)
  (Hgap : 0 <= merge_gap) :
  exists out,
    process_audio_file load_audio D detector0 chunk_size fuel merge_gap false
    = Some (Ok out) /\
    merge_detections (concat (globalised chunks dets)) merge_gap = Ok out /\
    Forall well_timed out /\
    StronglySorted (fun a b => end_time a < start_time b /\
                               merge_gap < start_time b - end_time a) out /\
    forall (k : nat) c ds e,
      chunks !! k = Some c -> dets !! k = Some ds -> e ∈ ds ->
      exists ep, ep ∈ out /\ covers ep (adjust_timestamps (global_start c) e).
Proof.
  pose proof (chunk_loop_spec load_audio D detector0 chunk_size fuel
                GenCreated chunks dets [] Hgen Hdet) as Hloop.
  cbn [app] in Hloop.
  set (all := concat (globalised chunks dets)) in *.
  destruct (merge_detections_facts all merge_gap)
    as (out & Hm & Hcov & _ & _ & Hnil).
  destruct (merge_detections_order_facts all merge_gap)
    as (out' & Hm' & Hwt & Hsep).
  rewrite Hm in Hm'. injection Hm' as <-.
  assert (Hall : Forall well_timed all).
  { unfold all, globalised. apply Forall_concat.
    clear -Hdet. induction Hdet as [|c ds cs dss Hc Hrest IH]; [constructor|].
    cbn [zip_with]. constructor; [|exact IH].
    apply Forall_fmap. eapply Forall_impl;
      [exact (detect_in_waveform_well_timed _ _ _ Hc)|].
    cbn. intros d Hd. now apply adjust_timestamps_well_timed. }
  exists out. split; [|split; [exact Hm|split; [now apply Hwt|split]]].
  - unfold process_audio_file. rewrite Hloop. cbn [negb andb].
    destruct (bool_decide (all = [])) eqn:Eb; cbn [negb]; [|now rewrite Hm].
    apply bool_decide_eq_true in Eb.
    destruct Hnil as [_ Hnil]. now rewrite (Hnil Eb), Eb.
  - clear -Hsep Hgap. induction Hsep as [|a l Hl IH Ha]; constructor; [exact IH|].
    eapply Forall_impl; [exact Ha|]. cbn. intros b Hab. split; lra.
  - intros k c ds e Hk Hds He. apply Hcov.
    unfold all. apply list_elem_of_In, in_concat.
    exists (map (adjust_timestamps (global_start c)) ds). split.
    + apply list_elem_of_In, list_elem_of_lookup. exists k.
      unfold globalised. rewrite lookup_zip_with, Hk. cbn. now rewrite Hds.
    + apply list_elem_of_In, list_elem_of_fmap. now exists e.
Qed.

Lemma process_audio_file_merged_witness :
  let load_audio := fun duration offset : Q => (offset, duration) in
  let detector0 := mk_detector 0.3 (fun _ : Q * Q => [[0.1; 0.9]; [0.2; 0.8]])
                     ["Speech"; "Bark"]%string [1%nat] in
  let e0 := mk_event (0 * hop_duration) (0 * hop_duration + frame_duration) 0.9
              (Some "Bark"%string) (Some 1%nat) in
  let e1 := mk_event (1 * hop_duration) (1 * hop_duration + frame_duration) 0.8
              (Some "Bark"%string) (Some 1%nat) in
  let chunks := [mk_chunk (0, 60) 0 60; mk_chunk (58, 42) 58 100] in
  gen_take load_audio 100 60 2 3 GenCreated = Ok (chunks, true) /\
  Forall2 (fun c ds => detect_in_waveform detector0 (audio_chunk c) 16000 = Ok ds)
          chunks [[e0; e1]; [e0; e1]] /\
  0 <= 1 /\
  exists out,
    process_audio_file load_audio 100 detector0 60 3 1 false = Some (Ok out) /\
    Forall well_timed out.
Proof.
  intros load_audio detector0 e0 e1 chunks.
  assert (Hgen : gen_take load_audio 100 60 2 3 GenCreated = Ok (chunks, true))
    by reflexivity.
  assert (Hdet : Forall2
            (fun c ds => detect_in_waveform detector0 (audio_chunk c) 16000 = Ok ds)
            chunks [[e0; e1]; [e0; e1]])
    by (repeat constructor).
  split; [exact Hgen|]. split; [exact Hdet|]. split; [discriminate|].
  destruct (process_audio_file_merged load_audio 100 detector0 60 3 chunks
              [[e0; e1]; [e0; e1]] 1 Hgen Hdet ltac:(discriminate))
    as (out & Hp & _ & Hwt & _).
  exists out. split; [exact Hp | exact Hwt].
Defined.

End DriverMore.

(** ** Google Drive links *)

Module GDriveFacts.
Import ClassMap GDrive.

Lemma append_cons (c : ascii) (a b : string) :
  (String c a ++ b)%string = String c (a ++ b)%string.
Proof. reflexivity. Qed.

Lemma append_nil (b : string) : (EmptyString ++ b)%string = b.
Proof. reflexivity. Qed.

Lemma append_empty_r (s : string) : (s ++ EmptyString)%string = s.
Proof.
  induction s as [|c r IH]; [reflexivity|]. rewrite append_cons. now rewrite IH.
Qed.

Lemma id_run_rest (s : string) : s = (id_run s ++ id_rest s)%string.
Proof.
  induction s as [|c r IH]; [reflexivity|].
  cbn [id_run id_rest]. destruct (id_char c); [|reflexivity].
  rewrite append_cons. now rewrite <- IH.
Qed.

Lemma id_run_all_id (s : string) : all_id (id_run s) = true.
Proof.
  induction s as [|c r IH]; [reflexivity|].
  cbn [id_run]. destruct (id_char c) eqn:E; [|reflexivity].
  cbn [all_id]. now rewrite E, IH.
Qed.

Lemma id_run_app (g post : string) :
  all_id g = true ->
  (post = EmptyString \/ exists c r, post = String c r /\ id_char c = false) ->
  id_run (g ++ post) = g /\ id_rest (g ++ post) = post.
Proof.
  intros Hg Hpost. induction g as [|c r IH].
  - rewrite append_nil.
    destruct Hpost as [->|(c & r & -> & Hc)]; [now split|].
    cbn [id_run id_rest]. now rewrite Hc.
  - cbn [all_id] in Hg. apply andb_true_iff in Hg as [Hc Hr].
    rewrite append_cons. cbn [id_run id_rest]. rewrite Hc.
    destruct (IH Hr) as [-> ->]. now split.
Qed.

Lemma match_here_some (items : list (ascii -> bool)) : forall (s g : string),
  match_here items s = Some g ->
  g <> EmptyString /\ all_id g = true /\
  exists pre post, s = (pre ++ g ++ post)%string.
Proof.
  induction items as [|p items IH]; intros s g H.
  - cbn [match_here] in H.
    pose proof (id_run_all_id s) as Ha. pose proof (id_run_rest s) as Hs.
    destruct (id_run s) as [|c r] eqn:E; [discriminate|].
    injection H as <-. split; [discriminate|]. split; [exact Ha|].
    exists EmptyString, (id_rest s). exact Hs.
  - cbn [match_here] in H. destruct s as [|c r]; [discriminate|].
    destruct (p c); [|discriminate].
    destruct (IH _ _ H) as (Hne & Ha & pre & post & ->).
    split; [exact Hne|]. split; [exact Ha|].
    now exists (String c pre), post.
Qed.

Lemma re_search_some (items : list (ascii -> bool)) : forall (s g : string),
  re_search items s = Some g ->
  g <> EmptyString /\ all_id g = true /\
  exists pre post, s = (pre ++ g ++ post)%string.
Proof.
  induction s as [|c r IH]; intros g H; cbn [re_search] in H.
  - destruct (match_here items EmptyString) eqn:E; [|discriminate].
    injection H as ->. now apply match_here_some in E.
  - destruct (match_here items (String c r)) eqn:E.
    + injection H as ->. now apply match_here_some in E.
    + destruct (IH _ H) as (Hne & Ha & pre & post & ->).
      split; [exact Hne|]. split; [exact Ha|].
      now exists (String c pre), post.
Qed.

(** A pattern with a position that accepts none of [[a-zA-Z0-9_-]] finds
    nothing in a text made of these characters. *)
Lemma match_here_all_id (items : list (ascii -> bool)) : forall s : string,
  Exists (fun p : ascii -> bool => forall c, id_char c = true -> p c = false) items ->
  all_id s = true -> match_here items s = None.
Proof.
  induction items as [|p items IH]; intros s Hex Hs.
  - inversion Hex.
  - cbn [match_here]. destruct s as [|c r]; [reflexivity|].
    cbn [all_id] in Hs. apply andb_true_iff in Hs as [Hc Hr].
    apply Exists_cons in Hex as [Hp|Hex].
    + now rewrite (Hp c Hc).
    + destruct (p c); [now apply IH | reflexivity].
Qed.

Lemma re_search_all_id (items : list (ascii -> bool)) : forall s : string,
  Exists (fun p : ascii -> bool => forall c, id_char c = true -> p c = false) items ->
  all_id s = true -> re_search items s = None.
Proof.
  intros s Hex. induction s as [|c r IH]; intros Hs; cbn [re_search].
  - now rewrite match_here_all_id.
  - rewrite match_here_all_id by assumption.
    cbn [all_id] in Hs. apply andb_true_iff in Hs as [_ Hr]. now apply IH.
Qed.

Lemma id_char_cases (c : ascii) (bad : ascii) :
  id_char bad = false -> id_char c = true -> Ascii.eqb bad c = false.
Proof.
  intros Hb Hc. destruct (Ascii.eqb_spec bad c) as [->|]; [congruence | reflexivity].
Qed.

Lemma patterns_reject_ids :
  Forall (Exists (fun p : ascii -> bool => forall c, id_char c = true -> p c = false))
         DRIVE_URL_PATTERNS.
Proof.
  assert (Hcolon : forall c, id_char c = true -> Ascii.eqb ":" c = false)
    by (intros c; now apply id_char_cases).
  unfold DRIVE_URL_PATTERNS.
  apply Forall_cons_2; [|apply Forall_cons_2; [|apply Forall_cons_2; [|constructor]]].
  - unfold lit. cbn [list_ascii_of_string map].
    do 5 apply Exists_cons_tl. apply Exists_cons_hd. exact Hcolon.
  - unfold lit. cbn [list_ascii_of_string map].
    do 5 apply Exists_cons_tl. apply Exists_cons_hd. exact Hcolon.
  - apply Exists_cons_hd. intros c Hc. unfold one_of.
    cbn [list_ascii_of_string existsb].
    destruct (Ascii.eqb_spec c "?") as [->|]; [discriminate|].
    destruct (Ascii.eqb_spec c "&") as [->|]; [discriminate|]. reflexivity.
Qed.

Lemma pattern_loop_all_id (s : string) :
  all_id s = true -> pattern_loop DRIVE_URL_PATTERNS s = None.
Proof.
  intros Hs. pose proof patterns_reject_ids as H.
  induction H as [|pattern rest Hp Hrest IH]; [reflexivity|].
  cbn [pattern_loop]. now rewrite re_search_all_id.
Qed.

Lemma match_here_run (g post : string) :
  g <> EmptyString -> all_id g = true ->
  (post = EmptyString \/ exists c r, post = String c r /\ id_char c = false) ->
  match_here [] (g ++ post) = Some g.
Proof.
  intros Hne Hg Hpost. cbn [match_here].
  destruct (id_run_app g post Hg Hpost) as [-> _].
  destruct g; [contradiction | reflexivity].
Qed.

Lemma id_run_all (g : string) :
  all_id g = true -> id_run g = g /\ id_rest g = EmptyString.
Proof.
  intros Hg. induction g as [|c r IH]; [now split|].
  cbn [all_id] in Hg. apply andb_true_iff in Hg as [Hc Hr].
  cbn [id_run id_rest]. rewrite Hc. destruct (IH Hr) as [-> ->]. now split.
Qed.

Lemma match_here_all (g : string) :
  g <> EmptyString -> all_id g = true -> match_here [] g = Some g.
Proof.
  intros Hne Hg. cbn [match_here]. destruct (id_run_all g Hg) as [-> _].
  destruct g; [contradiction | reflexivity].
Qed.

Lemma re_search_step_none (items : list (ascii -> bool)) (c : ascii) (r : string) :
  match_here items (String c r) = None ->
  re_search items (String c r) = re_search items r.
Proof. intros H. cbn [re_search]. now rewrite H. Qed.

Lemma re_search_step_some (items : list (ascii -> bool)) (s g : string) :
  match_here items s = Some g -> re_search items s = Some g.
Proof. intros H. destruct s; cbn [re_search]; now rewrite H. Qed.

Lemma pattern_loop_some (patterns : list (list (ascii -> bool))) (url g : string) :
  pattern_loop patterns url = Some g ->
  g <> EmptyString /\ all_id g = true /\
  exists pre post, url = (pre ++ g ++ post)%string.
Proof.
  induction patterns as [|pattern rest IH]; [discriminate|].
  cbn [pattern_loop]. destruct (re_search pattern url) eqn:E; [|exact IH].
  intros H. injection H as ->. now apply re_search_some in E.
Qed.

Lemma pattern_reject_1 :
  Exists (fun p : ascii -> bool => forall c, id_char c = true -> p c = false)
         (lit "https://drive.google.com/file/d/").
Proof.
  pose proof patterns_reject_ids as H. unfold DRIVE_URL_PATTERNS in H.
  now apply Forall_cons_1 in H as [H _].
Qed.

Lemma pattern_reject_2 :
  Exists (fun p : ascii -> bool => forall c, id_char c = true -> p c = false)
         (lit "https://drive.google.com/open?id=").
Proof.
  pose proof patterns_reject_ids as H. unfold DRIVE_URL_PATTERNS in H.
  apply Forall_cons_1 in H as [_ H]. now apply Forall_cons_1 in H as [H _].
Qed.

#[local] Ltac to_chars := rewrite ?append_cons, ?append_nil.
#[local] Ltac skip_positions :=
  repeat (rewrite re_search_step_none by reflexivity).

(** What [extract_file_id] returns is never the empty text, so the test
    [if not file_id] of [download_file] fails only for [None]; it is a run
    of [[a-zA-Z0-9_-]] that occurs in the text given, or that text itself
    when it is such a run followed by one newline. *)
Theorem extract_file_id_result (url g : string)
  (H : extract_file_id url = Some g) :
  g <> EmptyString /\
  ((all_id g = true /\ exists pre post, url = (pre ++ g ++ post)%string) \/
   (g = url /\
    exists run, run <> EmptyString /\ all_id run = true /\
                url = (run ++ String "010" EmptyString)%string)).
Proof.
  unfold extract_file_id in H.
  destruct (pattern_loop DRIVE_URL_PATTERNS url) as [g'|] eqn:E.
  - injection H as ->. apply pattern_loop_some in E as (Hne & Ha & Hocc).
    split; [exact Hne|]. left. now split.
  - destruct (is_bare_id url) eqn:Eb; [|discriminate]. injection H as <-.
    unfold is_bare_id in Eb.
    pose proof (id_run_rest url) as Hs. pose proof (id_run_all_id url) as Ha.
    destruct (id_run url) as [|c r] eqn:Er; [discriminate|].
    apply orb_true_iff in Eb as [Eb|Eb]; apply String.eqb_eq in Eb;
      rewrite Eb in Hs.
    + rewrite append_empty_r in Hs. subst url.
      split; [discriminate|]. left. split; [exact Ha|].
      exists EmptyString, EmptyString.
      now rewrite append_nil, append_empty_r.
    + split; [rewrite Hs; discriminate|]. right. split; [reflexivity|].
      exists (String c r). split; [discriminate|]. now split.
Qed.

Lemma extract_file_id_result_witness :
  extract_file_id "https://drive.google.com/uc?id=1ABC123xyz" = Some "1ABC123xyz" /\
  "1ABC123xyz" <> EmptyString.
Proof.
  assert (H : extract_file_id "https://drive.google.com/uc?id=1ABC123xyz"
              = Some "1ABC123xyz") by reflexivity.
  split; [exact H|].
  exact (proj1 (extract_file_id_result _ _ H)).
Defined.

(** Reading back an id: for a non-empty id made of [[a-zA-Z0-9_-]],
    [extract_file_id] returns that id from the address [download_file]
    builds for it, from the [open?id=] and [uc?id=] links that end with it,
    from the id alone, and from a [/file/d/] link whatever follows the id;
    the address built is recognised by [is_gdrive_url]. *)
Theorem extract_file_id_round_trip (file_id : string)
  (Hne : file_id <> EmptyString) (Hid : all_id file_id = true) :
  extract_file_id (download_url file_id) = Some file_id /\
  extract_file_id ("https://drive.google.com/open?id=" ++ file_id)%string
  = Some file_id /\
  extract_file_id ("https://drive.google.com/uc?id=" ++ file_id)%string
  = Some file_id /\
  extract_file_id file_id = Some file_id /\
  (forall rest : string,
     rest = EmptyString \/ (exists c r, rest = String c r /\ id_char c = false) ->
     extract_file_id ("https://drive.google.com/file/d/" ++ file_id ++ rest)%string
     = Some file_id) /\
  is_gdrive_url (download_url file_id) = true.
Proof.
  pose proof (re_search_all_id _ file_id pattern_reject_1 Hid) as N1.
  pose proof (re_search_all_id _ file_id pattern_reject_2 Hid) as N2.
  pose proof (match_here_all file_id Hne Hid) as M.
  split; [|split; [|split; [|split; [|split; [|reflexivity]]]]].
  - unfold extract_file_id, DRIVE_URL_PATTERNS, pattern_loop.
    assert (E1 : re_search (lit "https://drive.google.com/file/d/")
                   (download_url file_id) = None).
    { unfold download_url. to_chars. skip_positions. exact N1. }
    assert (E2 : re_search (lit "https://drive.google.com/open?id=")
                   (download_url file_id) = None).
    { unfold download_url. to_chars. skip_positions. exact N2. }
    assert (E3 : re_search (one_of "?&" :: lit "id=") (download_url file_id)
                 = Some file_id).
    { unfold download_url. to_chars. skip_positions.
      apply re_search_step_some. exact M. }
    now rewrite E1, E2, E3.
  - unfold extract_file_id, DRIVE_URL_PATTERNS, pattern_loop.
    assert (E1 : re_search (lit "https://drive.google.com/file/d/")
                   ("https://drive.google.com/open?id=" ++ file_id)%string = None).
    { to_chars. skip_positions. exact N1. }
    assert (E2 : re_search (lit "https://drive.google.com/open?id=")
                   ("https://drive.google.com/open?id=" ++ file_id)%string
                 = Some file_id).
    { apply re_search_step_some. exact M. }
    now rewrite E1, E2.
  - unfold extract_file_id, DRIVE_URL_PATTERNS, pattern_loop.
    assert (E1 : re_search (lit "https://drive.google.com/file/d/")
                   ("https://drive.google.com/uc?id=" ++ file_id)%string = None).
    { to_chars. skip_positions. exact N1. }
    assert (E2 : re_search (lit "https://drive.google.com/open?id=")
                   ("https://drive.google.com/uc?id=" ++ file_id)%string = None).
    { to_chars. skip_positions. exact N2. }
    assert (E3 : re_search (one_of "?&" :: lit "id=")
                   ("https://drive.google.com/uc?id=" ++ file_id)%string
                 = Some file_id).
    { to_chars. skip_positions. apply re_search_step_some. exact M. }
    now rewrite E1, E2, E3.
  - unfold extract_file_id. rewrite (pattern_loop_all_id file_id Hid).
    unfold is_bare_id. destruct (id_run_all file_id Hid) as [-> ->].
    destruct file_id; [contradiction | reflexivity].
  - intros rest Hrest.
    unfold extract_file_id, DRIVE_URL_PATTERNS, pattern_loop.
    assert (E1 : re_search (lit "https://drive.google.com/file/d/")
                   ("https://drive.google.com/file/d/" ++ file_id ++ rest)%string
                 = Some file_id).
    { apply re_search_step_some.
      exact (match_here_run file_id rest Hne Hid Hrest). }
    now rewrite E1.
Qed.

Lemma extract_file_id_round_trip_witness :
  "1ABC123xyz"%string <> EmptyString /\ all_id "1ABC123xyz" = true /\
  extract_file_id "https://drive.google.com/file/d/1ABC123xyz/view?usp=sharing"
  = Some "1ABC123xyz"%string /\
  extract_file_id (download_url "1ABC123xyz") = Some "1ABC123xyz"%string.
Proof.
  assert (Hne : "1ABC123xyz"%string <> EmptyString) by discriminate.
  assert (Hid : all_id "1ABC123xyz" = true) by reflexivity.
  destruct (extract_file_id_round_trip "1ABC123xyz" Hne Hid)
    as (Hd & _ & _ & _ & Hshare & _).
  split; [exact Hne|]. split; [exact Hid|]. split; [|exact Hd].
  apply (Hshare "/view?usp=sharing"%string).
  right. now exists "/"%char, "view?usp=sharing"%string.
Defined.

End GDriveFacts.
